(** * CharacterAI-Discord-Bridge: the message cache, the collector, the
      dispatch coordinator and the inactivity monitor of [AI_utils.py].

    The class [discord_AI_bot] is embedded as functions over an explicit
    [World]: the two attributes of the bot object, the JSON files it reads
    and writes, and what its collaborators can observe (log lines, messages
    sent to a channel, requests made to the AI client).  Exceptions, the
    early [return] and [try/except/finally] are kept through a small
    state-and-outcome monad.  Timestamps ([time.time()]) are rationals.

    A text ([str]) is held as the bytes of its UTF-8 encoding, so that a
    character beyond ASCII takes two to four bytes of a [string].  A file is
    known by the name to which the file system resolves the path given to
    [open], so that two paths to one file are one key of [files]; the
    configuration handed to the functions names the cache in this way
    ([on_disk]), and the file that the monitor opens as
    ["messages_cache.json"] is known by this very name. *)

From Stdlib Require Import QArith.
From stdpp Require Import gmap strings list.

(** ** Data model *)

(** One participant of a cache record: the keys ["username"], ["name"] and
    ["message"] of the dictionaries built in [read_channel_messages]. *)
Record Sender := {
  username : string;
  name : string;
  message : string
}.

(** A record of the cache file: [message_info] and the optional
    [reply_message]. *)
Record CachedMessage := {
  message_info : Sender;
  reply_message : option Sender
}.

#[global] Instance Sender_eq_dec : EqDecision Sender.
Proof. solve_decision. Defined.

#[global] Instance CachedMessage_eq_dec : EqDecision CachedMessage.
Proof. solve_decision. Defined.

(** Severities of [utils.log]. *)
Inductive Level := DEBUG | INFO | WARNING | ERROR | CRITICAL.

#[global] Instance Level_eq_dec : EqDecision Level.
Proof. solve_decision. Defined.

(** Exceptions that the embedded code can meet. *)
Inductive Exn :=
| IndexError                       (* [][0] *)
| AttributeError                   (* None.typing() *)
| NameError                        (* a local read before it is bound *)
| FileError                        (* a cache file that cannot be read *)
| ExternalError (what : string).   (* raised by a collaborator *)

(** The part of the configuration that [AI_utils.py] consults.  The two
    [.get(..., default)] look-ups of [channel_bot_chat] make the absence of
    the key observable, so it is an [option]; the other keys are read with
    plain subscripts and are taken as present. *)
Record Config := {
  channel_bot_chat : option (list Z);
  messages_cache : string;
  remove_emojis_AI : bool;
  send_message_line_by_line : bool
}.

(** The bot object ([last_message_time], [awaiting_response]), the files,
    and the observable effects, oldest first. *)
Record World := {
  awaiting_response : bool;
  last_message_time : Q;
  files : gmap string (list CachedMessage);
  log : list (Level * string);
  sent : list (Z * string);
  ai_requests : list (list CachedMessage)
}.

Definition set_awaiting_response (b : bool) (w : World) : World :=
  {| awaiting_response := b;
     last_message_time := last_message_time w;
     files := files w; log := log w; sent := sent w;
     ai_requests := ai_requests w |}.

Definition set_last_message_time (t : Q) (w : World) : World :=
  {| awaiting_response := awaiting_response w;
     last_message_time := t;
     files := files w; log := log w; sent := sent w;
     ai_requests := ai_requests w |}.

Definition set_files (f : gmap string (list CachedMessage)) (w : World) : World :=
  {| awaiting_response := awaiting_response w;
     last_message_time := last_message_time w;
     files := f; log := log w; sent := sent w;
     ai_requests := ai_requests w |}.

Definition add_log (l : Level) (s : string) (w : World) : World :=
  {| awaiting_response := awaiting_response w;
     last_message_time := last_message_time w;
     files := files w; log := log w ++ [(l, s)]; sent := sent w;
     ai_requests := ai_requests w |}.

Definition add_sent (ch : Z) (s : string) (w : World) : World :=
  {| awaiting_response := awaiting_response w;
     last_message_time := last_message_time w;
     files := files w; log := log w; sent := sent w ++ [(ch, s)];
     ai_requests := ai_requests w |}.

Definition add_ai_request (c : list CachedMessage) (w : World) : World :=
  {| awaiting_response := awaiting_response w;
     last_message_time := last_message_time w;
     files := files w; log := log w; sent := sent w;
     ai_requests := ai_requests w ++ [c] |}.

(** ** Control flow *)

(** How a block ends: normally, by an exception, or by the [return]
    statement of the enclosing function. *)
Inductive Outcome (A : Type) :=
| Normal (a : A)
| Raised (e : Exn)
| Returned.

Arguments Normal {A} a.
Arguments Raised {A} e.
Arguments Returned {A}.

Definition M (S A : Type) : Type := S -> Outcome A * S.

Definition ret {S A} (a : A) : M S A := fun s => (Normal a, s).

Definition bind {S A B} (m : M S A) (k : A -> M S B) : M S B :=
  fun s =>
    match m s with
    | (Normal a, s') => k a s'
    | (Raised e, s') => (Raised e, s')
    | (Returned, s') => (Returned, s')
    end.

Definition raise {S A} (e : Exn) : M S A := fun s => (Raised e, s).

(** The statement [return]. *)
Definition return_ {S A} : M S A := fun s => (Returned, s).

Definition modify {S} (f : S -> S) : M S unit := fun s => (Normal tt, f s).

Definition gets {S A} (f : S -> A) : M S A := fun s => (Normal (f s), s).

(** [try: body except Exception as e: handler e]. *)
Definition try_except {S A} (body : M S A) (handler : Exn -> M S A) : M S A :=
  fun s =>
    match body s with
    | (Raised e, s') => handler e s'
    | r => r
    end.

(** [try: body finally: final].  The final block runs however the body
    ended; when it ends normally the body's outcome stands, otherwise its
    own exception or [return] replaces it. *)
Definition try_finally {S A} (body : M S A) (final : M S unit) : M S A :=
  fun s =>
    match body s with
    | (r, s') =>
        match final s' with
        | (Normal _, s'') => (r, s'')
        | (Raised e, s'') => (Raised e, s'')
        | (Returned, s'') => (Returned, s'')
        end
    end.

Declare Scope py_scope.
Delimit Scope py_scope with py.
Notation "x <- c ;; k" := (bind c (fun x => k))
  (at level 100, c at next level, right associativity) : py_scope.
Notation "c ;;; k" := (bind c (fun _ => k))
  (at level 100, right associativity) : py_scope.
Open Scope py_scope.

(** ** The cache store *)

(** Modelled from the spec: [utils.read_json], which is not part of the
    sources at hand.  The cache is "read/written as a whole snapshot"; a
    file that is missing or unreadable is taken to raise. *)
Definition read_json (path : string) : M World (list CachedMessage) :=
  fun w =>
    match files w !! path with
    | Some c => (Normal c, w)
    | None => (Raised FileError, w)
    end.

(** Modelled from the spec: [utils.write_json], whole-file replacement. *)
Definition write_json (path : string) (c : list CachedMessage) : M World unit :=
  modify (fun w => set_files (<[path := c]> (files w)) w).

(** Modelled from the spec: [utils.capture_message], "appends a
    CachedMessage to the Cache Store (load-modify-store of the whole
    sequence)". *)
Definition capture_message (cache_file : string) (info : Sender)
    (reply : option Sender) : M World unit :=
  cache <- read_json cache_file ;;
  write_json cache_file
    (cache ++ [{| message_info := info; reply_message := reply |}]).

Definition log_ (l : Level) (s : string) : M World unit := modify (add_log l s).

(** The list comprehension of the reconciliation,
    [[x for x in current_cache if x not in cached_data]]. *)
Definition remove_messages (current_cache cached_data : list CachedMessage)
    : list CachedMessage :=
  filter (fun x => x ∉ cached_data) current_cache.

(** ** The chat platform, as the code sees it *)

(** A user object: [id], its printed form (the value stored under
    ["username"]), [global_name] and [name]. *)
Record User := {
  user_id : Z;
  handle : string;
  global_name : option string;
  user_name : string
}.

(** A received message: [channel.id], [author], [content] and
    [reference.message_id] when the message is a reply. *)
Record DiscordMessage := {
  channel_id : Z;
  author : User;
  content : string;
  reference : option Z
}.

(** The [client] argument: [client.user.id], [channel.fetch_message] (which
    may raise) and [client.get_channel] (which answers [None] for a channel
    it does not know). *)
Record Client := {
  bot_user_id : Z;
  fetch_message : Z -> Z -> Exn + (User * string);
  get_channel : option Z -> option Z
}.

(** [u.global_name or u.name]: the fallback is taken for [None] and for the
    empty string. *)
Definition global_name_or_name (u : User) : string :=
  match global_name u with
  | Some g => if decide (g = "") then user_name u else g
  | None => user_name u
  end.

(** [content.startswith(("#", "//"))]. *)
Definition is_comment (content : string) : bool :=
  String.prefix "#" content || String.prefix "//" content.

(** The outcome of a call to a collaborator. *)
Definition call {S A} (r : Exn + A) : M S A :=
  match r with
  | inl e => raise e
  | inr a => ret a
  end.

Section Bot.

Variable cfg : Config.
Variable client : Client.

(** [utils.config_yaml.get("Discord", {}).get("channel_bot_chat", [])]. *)
Definition watched_channels : list Z := default [] (channel_bot_chat cfg).

(** ** Typing activity tracker: [time_typing] *)
Definition time_typing (now : Q) (channel user : Z) : M World unit :=
  try_except
    (if bool_decide (channel ∈ watched_channels)
        && bool_decide (user ≠ bot_user_id client)
     then
       modify (set_last_message_time now) ;;;
       log_ DEBUG "User %s is typing in channel %s; last_message_time updated."
     else ret tt)
    (fun e => log_ ERROR "Error in time_typing: %s").

(** ** Message collector: [read_channel_messages] *)

(** The condition under which a message is read: it is in a monitored
    channel, not from the bot, and not a comment. *)
Definition accepts (msg : DiscordMessage) : bool :=
  bool_decide (channel_id msg ∈ watched_channels)
  && bool_decide (user_id (author msg) ≠ bot_user_id client)
  && negb (is_comment (content msg)).

Definition read_channel_messages (now : Q) (msg : DiscordMessage) : M World unit :=
  try_except
    (if accepts msg then
       log_ DEBUG "Reading message from channel: %s" ;;;
       let author_name := global_name_or_name (author msg) in
       match reference msg with
       | Some message_id =>
           try_except
             (ref_message <- call (fetch_message client (channel_id msg) message_id) ;;
              let ref_author_name := global_name_or_name (fst ref_message) in
              capture_message (messages_cache cfg)
                {| username := handle (author msg);
                   name := author_name;
                   message := content msg |}
                (Some {| username := handle (fst ref_message);
                         name := ref_author_name;
                         message := snd ref_message |}))
             (fun e => log_ ERROR "Error fetching reference message: %s")
       | None =>
           capture_message (messages_cache cfg)
             {| username := handle (author msg);
                name := author_name;
                message := content msg |}
             None
       end ;;;
       modify (set_last_message_time now)
     else ret tt)
    (fun e => log_ ERROR "Error in read_channel_messages: %s").

(** ** What runs while a dispatch is suspended *)

(** The event loop is cooperative: while [AI_send_message] waits at an
    [await], the handlers of the events that the platform delivers run.
    An event carries the clock value its handler reads.  The handlers are
    taken one after the other, each to its end: this is how [time_typing]
    and the handler of a message that is not a reply run, since they never
    await.  The handler of a reply awaits [fetch_message] (line 83) before
    it captures; its place in the list is the moment it resumes and
    captures (the debug line of line 74 is logged with it), and what other
    handlers do while it waits is given by the events listed before it.
    The list is thus in the order in which the records are captured, which
    for replies need not be the order in which the messages came in. *)
Inductive Event :=
| MessageEvent (t : Q) (msg : DiscordMessage)
| TypingEvent (t : Q) (channel user : Z).

Definition handle_event (ev : Event) : M World unit :=
  match ev with
  | MessageEvent t msg => read_channel_messages t msg
  | TypingEvent t channel user => time_typing t channel user
  end.

Fixpoint run_events (evs : list Event) (w : World) : World :=
  match evs with
  | [] => w
  | ev :: rest => run_events rest (snd (handle_event ev w))
  end.

(** The places where [AI_send_message] awaits a collaborator: entering
    [response_channel.typing()], [cai.cai_response] and the [n]-th
    [response_channel.send] of the dispatch.  (The lock is free when a
    single dispatch runs, and leaving the two [async with] blocks does not
    suspend.) *)
Inductive AwaitPoint := AtTyping | AtAI | AtSend (n : nat).

(** The collaborators during one dispatch. *)
Record Env := {
  test_internet : bool;
  typing_error : option Exn;
  cai_response : list CachedMessage -> Exn + string;
  remove_emoji : string -> Exn + string;
  send_error : nat -> option Exn;
  interleaved : AwaitPoint -> list Event;
  time_time : Q
}.

Variable env : Env.

(** ** Dispatch coordinator: [AI_send_message] *)

(** The frame of one call: the world and the local [cached_data], which the
    final block reads and which is unbound until the snapshot is taken. *)
Record Frame := {
  world : World;
  cached_data : option (list CachedMessage)
}.

Definition lift {A} (m : M World A) : M Frame A :=
  fun f =>
    match m (world f) with
    | (r, w) => (r, {| world := w; cached_data := cached_data f |})
    end.

Definition set_cached_data (c : list CachedMessage) : M Frame unit :=
  modify (fun f => {| world := world f; cached_data := Some c |}).

Definition logF (l : Level) (s : string) : M Frame unit := lift (log_ l s).

Definition suspend (p : AwaitPoint) : M Frame unit :=
  lift (modify (run_events (interleaved env p))).

(** [.get("channel_bot_chat", [None])[0]]. *)
Definition first_channel : Exn + option Z :=
  match default [None] (List.map Some <$> channel_bot_chat cfg) with
  | [] => inl IndexError
  | c :: _ => inr c
  end.

(** [async with response_channel.typing():] on entry. *)
Definition enter_typing (response_channel : option Z) : M Frame unit :=
  match response_channel with
  | None => raise AttributeError
  | Some _ =>
      suspend AtTyping ;;;
      match typing_error env with
      | Some e => raise e
      | None => ret tt
      end
  end.

(** [await cai.cai_response(cached_data)]. *)
Definition await_cai_response (cached : list CachedMessage) : M Frame string :=
  lift (modify (add_ai_request cached)) ;;;
  suspend AtAI ;;;
  call (cai_response env cached).

(** [await response_channel.send(text)], the [n]-th of the dispatch. *)
Definition send (ch : Z) (n : nat) (text : string) : M Frame unit :=
  suspend (AtSend n) ;;;
  match send_error env n with
  | Some e => raise e
  | None => lift (modify (add_sent ch text))
  end.

(** The character ["\n"]. *)
Definition newline : Ascii.ascii := Ascii.ascii_of_nat 10.

(** [response.split("\n")]. *)
Fixpoint split_lines (s : string) : list string :=
  match s with
  | EmptyString => [EmptyString]
  | String c rest =>
      if Ascii.eqb c newline then EmptyString :: split_lines rest
      else match split_lines rest with
           | [] => [String c EmptyString]
           | l :: ls => String c l :: ls
           end
  end.

(** The characters that [str.strip()] removes are those of
    [str.isspace]: U+0009 to U+000D, U+001C to U+0020, U+0085, U+00A0,
    U+1680, U+2000 to U+200A, U+2028, U+2029, U+202F, U+205F and U+3000.
    Here, those of one byte. *)
Definition is_space (c : Ascii.ascii) : bool :=
  let n := Ascii.nat_of_ascii c in
  ((9 <=? n) && (n <=? 13) || (28 <=? n) && (n <=? 32))%nat.

(** Those of two bytes: U+0085 and U+00A0. *)
Definition is_space2 (c1 c2 : Ascii.ascii) : bool :=
  let n1 := Ascii.nat_of_ascii c1 in
  let n2 := Ascii.nat_of_ascii c2 in
  ((n1 =? 194) && ((n2 =? 133) || (n2 =? 160)))%nat.

(** Those of three bytes: U+1680; U+2000 to U+200A, U+2028, U+2029 and
    U+202F; U+205F; U+3000. *)
Definition is_space3 (c1 c2 c3 : Ascii.ascii) : bool :=
  let n1 := Ascii.nat_of_ascii c1 in
  let n2 := Ascii.nat_of_ascii c2 in
  let n3 := Ascii.nat_of_ascii c3 in
  ((n1 =? 225) && (n2 =? 154) && (n3 =? 128)
   || (n1 =? 226) && (n2 =? 128)
      && ((128 <=? n3) && (n3 <=? 138) || (n3 =? 168) || (n3 =? 169)
          || (n3 =? 175))
   || (n1 =? 226) && (n2 =? 129) && (n3 =? 159)
   || (n1 =? 227) && (n2 =? 128) && (n3 =? 128))%nat.

(** [not line.strip()]: the line is made of such characters only. *)
Fixpoint is_blank (s : string) : bool :=
  match s with
  | EmptyString => true
  | String c1 rest1 =>
      if is_space c1 then is_blank rest1
      else
        match rest1 with
        | EmptyString => false
        | String c2 rest2 =>
            if is_space2 c1 c2 then is_blank rest2
            else
              match rest2 with
              | EmptyString => false
              | String c3 rest3 =>
                  if is_space3 c1 c2 c3 then is_blank rest3 else false
              end
        end
  end.

(** The loop [for line in response.split("\n"): if line.strip(): send]. *)
Fixpoint send_lines (ch : Z) (n : nat) (lines : list string) : M Frame unit :=
  match lines with
  | [] => ret tt
  | line :: rest =>
      if is_blank line then send_lines ch n rest
      else
        send ch n line ;;;
        logF DEBUG "Sent line: %s" ;;;
        send_lines ch (S n) rest
  end.

Definition deliver (response_channel_id response_channel : option Z)
    (response : string) : M Frame unit :=
  match response_channel with
  | Some ch =>
      if send_message_line_by_line cfg
      then send_lines ch 0 (split_lines response)
      else
        send ch 0 response ;;;
        logF DEBUG "Sent full response."
  | None => logF CRITICAL "Response channel with ID %s not found."
  end.

(** The comprehension reads [cached_data] once per element of
    [current_cache]: over an empty [current_cache] an unbound [cached_data]
    goes unnoticed, otherwise it is a [NameError]. *)
Definition unprocessed (current_cache : list CachedMessage)
    : M Frame (list CachedMessage) :=
  fun f =>
    match current_cache, cached_data f with
    | [], _ => (Normal [], f)
    | _ :: _, None => (Raised NameError, f)
    | _ :: _, Some snapshot => (Normal (remove_messages current_cache snapshot), f)
    end.

(** The inner [try] of the final block. *)
Definition update_cache : M Frame unit :=
  try_except
    (current_cache <- lift (read_json (messages_cache cfg)) ;;
     remove <- unprocessed current_cache ;;
     lift (write_json (messages_cache cfg) remove) ;;;
     logF DEBUG "Cache updated after sending AI message.")
    (fun e => logF ERROR "Error updating message cache: %s").

(** The final block: "Reset state and clean up cache". *)
Definition reset_and_clean_up : M Frame unit :=
  lift (modify (set_awaiting_response false)) ;;;
  lift (modify (set_last_message_time (time_time env))) ;;;
  update_cache.

(** The body of the outer [try]. *)
Definition dispatch_body (response_channel_id response_channel : option Z)
    : M Frame unit :=
  enter_typing response_channel ;;;
  cached <- lift (read_json (messages_cache cfg)) ;;
  set_cached_data cached ;;;
  match cached with
  | [] =>
      logF INFO "No cached messages found." ;;;
      return_
  | _ :: _ =>
      response <- await_cai_response cached ;;
      logF DEBUG "AI response received: %s" ;;;
      response <- (if remove_emojis_AI cfg
                   then
                     response <- call (remove_emoji env response) ;;
                     logF DEBUG "AI response received (without emoji): %s" ;;;
                     ret response
                   else ret response) ;;
      deliver response_channel_id response_channel response
  end.

Definition AI_send_message_frame : M Frame unit :=
  lift (modify (set_awaiting_response true)) ;;;
  response_channel_id <- call first_channel ;;
  let response_channel := get_channel client response_channel_id in
  if test_internet env then
    try_finally
      (try_except
         (dispatch_body response_channel_id response_channel)
         (fun e => logF ERROR "An error occurred while sending AI message: %s"))
      reset_and_clean_up
  else
    logF WARNING "No internet access detected. AI message not sent." ;;;
    lift (modify (set_awaiting_response false)).

(** The call itself: a fresh frame, and [return] ends the call normally. *)
Definition AI_send_message : M World unit :=
  fun w =>
    match AI_send_message_frame {| world := w; cached_data := None |} with
    | (Returned, f) => (Normal tt, world f)
    | (r, f) => (r, world f)
    end.

End Bot.

(** ** Inactivity monitor: one turn of the loop of [monitor_inactivity] *)

(** [open(path); json.load(file)]: raises when the file is not there. *)
Definition json_load (path : string) : M World (list CachedMessage) :=
  fun w =>
    match files w !! path with
    | Some c => (Normal c, w)
    | None => (Raised FileError, w)
    end.

(** [(time.time() - self.last_message_time >= 7 or cache_count >= 5)
     and cache_count >= 1]. *)
Definition trigger_condition (now last : Q) (cache_count : nat) : bool :=
  (Qle_bool 7 (now - last) || (5 <=? cache_count)%nat) && (1 <=? cache_count)%nat.

Definition trigger_line : Level * string :=
  (DEBUG, "Inactivity threshold reached (or cache count >= 5). Triggering AI_send_message.").

(** The two statements under the condition: the debug line, then the call. *)
Definition trigger_dispatch (cfg : Config) (client : Client) (env : Env)
    : M World unit :=
  log_ (fst trigger_line) (snd trigger_line) ;;;
  AI_send_message cfg client env.

(** The body of the loop after [await asyncio.sleep(3)]; [now] is the clock
    read in the condition and [env] the collaborators during the dispatch
    it may start. *)
Definition monitor_tick (cfg : Config) (client : Client) (now : Q) (env : Env)
    : M World unit :=
  awaiting <- gets awaiting_response ;;
  if negb awaiting then
    try_except
      (cached_data <- json_load "messages_cache.json" ;;
       let cache_count := length cached_data in
       last <- gets last_message_time ;;
       if trigger_condition now last cache_count
       then trigger_dispatch cfg client env
       else ret tt)
      (fun e => log_ ERROR "Error in monitor_inactivity: %s")
  else ret tt.

(** The loop of [monitor_inactivity], over the turns that are observed:
    each turn gives the events handled during [await asyncio.sleep(3)], the
    clock read in the condition, and the collaborators of the dispatch that
    the turn may start. *)
Fixpoint monitor_inactivity (cfg : Config) (client : Client)
    (turns : list (list Event * Q * Env)) : M World unit :=
  match turns with
  | [] => ret tt
  | (evs, now, env) :: rest =>
      modify (run_events cfg client evs) ;;;
      monitor_tick cfg client now env ;;;
      monitor_inactivity cfg client rest
  end.

(** A turn of the loop that calls [AI_send_message], lines 205 to 209: the
    debug line, the call, and around both the [except] of the loop, which
    logs what the call raises. *)
Definition dispatching_tick (cfg : Config) (client : Client) (env : Env)
    : M World unit :=
  try_except
    (log_ DEBUG
       "Inactivity threshold reached (or cache count >= 5). Triggering AI_send_message." ;;;
     AI_send_message cfg client env)
    (fun e => log_ ERROR "Error in monitor_inactivity: %s").

(** The turn taken in [w] is one that calls [AI_send_message]. *)
Definition tick_dispatches (cfg : Config) (client : Client) (now : Q)
    (env : Env) (w : World) : Prop :=
  monitor_tick cfg client now env w = dispatching_tick cfg client env w.

(** Modelled from the spec: "Trigger dispatch iff N >= 1 AND (D >=
    idle_threshold OR N >= batch_threshold)", with the thresholds 7 and 5. *)
Definition rule_holds (N : nat) (D : Q) : Prop :=
  1 <= N /\ ((7 <= D)%Q \/ 5 <= N).

(** ** Notions used to state the properties *)

(** Every run of [m] relates the state it starts from to the state it
    ends in. *)
Definition keeps {S A} (R : S -> S -> Prop) (m : M S A) : Prop :=
  forall s, R s (snd (m s)).

(** A relation on worlds, read on the frames of a dispatch. *)
Definition on_world (R : World -> World -> Prop) (f f' : Frame) : Prop :=
  R (world f) (world f').

(** The record that [read_channel_messages] appends to the cache for a
    message, if it appends one. *)
Definition captured (cfg : Config) (client : Client) (msg : DiscordMessage)
    : option CachedMessage :=
  let info := {| username := handle (author msg);
                 name := global_name_or_name (author msg);
                 message := content msg |} in
  if accepts cfg client msg then
    match reference msg with
    | None => Some {| message_info := info; reply_message := None |}
    | Some message_id =>
        match fetch_message client (channel_id msg) message_id with
        | inr ref_message =>
            Some {| message_info := info;
                    reply_message :=
                      Some {| username := handle (fst ref_message);
                              name := global_name_or_name (fst ref_message);
                              message := snd ref_message |} |}
        | inl _ => None
        end
    end
  else None.

(** The records appended by the handlers of a sequence of events. *)
Definition arrivals (cfg : Config) (client : Client) (evs : list Event)
    : list CachedMessage :=
  omap (fun ev =>
          match ev with
          | MessageEvent _ msg => captured cfg client msg
          | TypingEvent _ _ _ => None
          end) evs.

(** The event is not a message that replies to another: its handler never
    awaits. *)
Definition never_awaits (ev : Event) : Prop :=
  match ev with
  | MessageEvent _ msg => reference msg = None
  | TypingEvent _ _ _ => True
  end.

(** The record of a message that is not a reply, lines 107 to 114. *)
Definition plain_record (msg : DiscordMessage) : CachedMessage :=
  {| message_info := {| username := handle (author msg);
                        name := global_name_or_name (author msg);
                        message := content msg |};
     reply_message := None |}.

(** The records of the messages of a sequence of events that the collector
    accepts, in the order of the events. *)
Definition accepted_records (cfg : Config) (client : Client)
    (evs : list Event) : list CachedMessage :=
  omap (fun ev =>
          match ev with
          | MessageEvent _ msg =>
              if accepts cfg client msg then Some (plain_record msg) else None
          | TypingEvent _ _ _ => None
          end) evs.

(** The events handled at a sequence of suspension points. *)
Definition events_at (env : Env) (points : list AwaitPoint) : list Event :=
  points ≫= interleaved env.

(** The [send]s that the line-by-line loop reaches: one per non-blank
    line, up to and including the first that raises. *)
Fixpoint sends_reached (env : Env) (n : nat) (lines : list string)
    : list AwaitPoint :=
  match lines with
  | [] => []
  | line :: rest =>
      if is_blank line then sends_reached env n rest
      else AtSend n ::
           match send_error env n with
           | Some _ => []
           | None => sends_reached env (S n) rest
           end
  end.

(** The suspension points that a dispatch with a resolved channel passes
    between taking [snapshot] and re-reading the cache. *)
Definition awaited_after_snapshot (cfg : Config) (env : Env)
    (snapshot : list CachedMessage) : list AwaitPoint :=
  match snapshot with
  | [] => []
  | _ :: _ =>
      AtAI ::
      match cai_response env snapshot with
      | inl _ => []
      | inr response =>
          match (if remove_emojis_AI cfg then remove_emoji env response
                 else inr response) with
          | inl _ => []
          | inr response =>
              if send_message_line_by_line cfg
              then sends_reached env 0 (split_lines response)
              else [AtSend 0]
          end
      end
  end.

(** The cache that a dispatch takes as its snapshot, when the cache holds
    [cache] as the dispatch starts. *)
Definition snapshot_of (cfg : Config) (client : Client) (env : Env)
    (cache : list CachedMessage) : list CachedMessage :=
  cache ++ arrivals cfg client (interleaved env AtTyping).

(** The records that arrive between the snapshot and the reconciliation. *)
Definition arrived_during (cfg : Config) (client : Client) (env : Env)
    (snapshot : list CachedMessage) : list CachedMessage :=
  arrivals cfg client (events_at env (awaited_after_snapshot cfg env snapshot)).

(** All that was sent between two worlds went to [destination]. *)
Definition sent_only_to (destination : option Z) (w w' : World) : Prop :=
  exists new, sent w' = sent w ++ new /\
              forall x, x ∈ new -> Some (fst x) = destination.

(** The file [path] is left as it was. *)
Definition same_file (path : string) (w w' : World) : Prop :=
  files w' !! path = files w !! path.

(** The log only grows. *)
Definition log_extended (w w' : World) : Prop := log w `prefix_of` log w'.

(** Neither the flag nor what the collaborators saw is changed. *)
Definition same_effects (w w' : World) : Prop :=
  awaiting_response w' = awaiting_response w /\
  sent w' = sent w /\ ai_requests w' = ai_requests w.

(** [m], started in a state where [P] holds, ends with an outcome and in
    a state that [Q] relates. *)
Definition hoare {S A} (P : S -> Prop) (m : M S A)
    (Q : Outcome A -> S -> Prop) : Prop :=
  forall s, P s -> Q (fst (m s)) (snd (m s)).

(** The frame of a dispatch has [local] for [cached_data] and the cache
    file holds [cache]. *)
Definition cache_holds (cfg : Config) (local : option (list CachedMessage))
    (cache : list CachedMessage) (f : Frame) : Prop :=
  cached_data f = local /\ files (world f) !! messages_cache cfg = Some cache.

(** The state in which a dispatch that went through its final block leaves
    the bot and the cache file. *)
Definition concluded (cfg : Config) (env : Env) (cache : list CachedMessage)
    (w : World) : Prop :=
  awaiting_response w = false /\
  last_message_time w = time_time env /\
  files w !! messages_cache cfg = Some cache.

(** ** Concrete inputs used in the examples *)

Definition record_of (user text : string) : CachedMessage :=
  {| message_info := {| username := user; name := user; message := text |};
     reply_message := None |}.

Definition m1 : CachedMessage := record_of "ann" "hello".
Definition m2 : CachedMessage := record_of "bob" "hi there".
Definition m3 : CachedMessage := record_of "cat" "good evening".

Definition user_of (id : Z) (h : string) : User :=
  {| user_id := id; handle := h; global_name := None; user_name := h |}.

(** A message in channel 10, as the platform delivers it. *)
Definition message_of (id : Z) (user text : string) (ref : option Z)
    : DiscordMessage :=
  {| channel_id := 10; author := user_of id user; content := text;
     reference := ref |}.

(** The same message in another channel. *)
Definition in_channel (channel : Z) (msg : DiscordMessage) : DiscordMessage :=
  {| channel_id := channel; author := author msg; content := content msg;
     reference := reference msg |}.

(** Three watched channels, channel 30 first. *)
Definition three_channel_config : Config :=
  {| channel_bot_chat := Some [30%Z; 10%Z; 20%Z];
     messages_cache := "messages_cache.json";
     remove_emojis_AI := false;
     send_message_line_by_line := true |}.

(** The default configuration of [boot.py], with channel 10 watched. *)
Definition sample_config : Config :=
  {| channel_bot_chat := Some [10%Z];
     messages_cache := "messages_cache.json";
     remove_emojis_AI := false;
     send_message_line_by_line := true |}.

(** The same with the cache kept in another file. *)
Definition moved_cache_config : Config :=
  {| channel_bot_chat := Some [10%Z];
     messages_cache := "cache/pending.json";
     remove_emojis_AI := false;
     send_message_line_by_line := true |}.

(** The same with an empty list of watched channels. *)
Definition no_channel_config : Config :=
  {| channel_bot_chat := Some [];
     messages_cache := "messages_cache.json";
     remove_emojis_AI := false;
     send_message_line_by_line := true |}.

(** A client that knows every channel and cannot fetch any message. *)
Definition sample_client : Client :=
  {| bot_user_id := 1;
     fetch_message := fun _ _ => inl (ExternalError "NotFound");
     get_channel := fun id => id |}.

(** A client that knows no channel. *)
Definition lost_client : Client :=
  {| bot_user_id := 1;
     fetch_message := fun _ _ => inl (ExternalError "NotFound");
     get_channel := fun _ => None |}.

(** Collaborators that all answer; the reply has two lines; the events
    [evs] are delivered while the AI call is awaited; the second [send]
    fails when [broken] is set. *)
Definition sample_env (evs : list Event) (broken : bool) : Env :=
  {| test_internet := true;
     typing_error := None;
     cai_response := fun _ => inr ("first line" +:+ String newline "second line");
     remove_emoji := fun s => inr s;
     send_error := fun n => if broken && (n =? 1)%nat
                            then Some (ExternalError "HTTPException")
                            else None;
     interleaved := fun p => match p with AtAI => evs | _ => [] end;
     time_time := 20 |}.

(** U+00A0, the no-break space, and U+3000, the ideographic space. *)
Definition no_break_space : string :=
  String (Ascii.ascii_of_nat 194) (String (Ascii.ascii_of_nat 160) "").

Definition ideographic_space : string :=
  String (Ascii.ascii_of_nat 227)
    (String (Ascii.ascii_of_nat 128) (String (Ascii.ascii_of_nat 128) "")).

(** Collaborators that all answer, with [reply] for the AI client; the
    second [send] fails when [broken] is set. *)
Definition replying_env (reply : string) (broken : bool) : Env :=
  {| test_internet := true;
     typing_error := None;
     cai_response := fun _ => inr reply;
     remove_emoji := fun s => inr s;
     send_error := fun n => if broken && (n =? 1)%nat
                            then Some (ExternalError "HTTPException")
                            else None;
     interleaved := fun _ => [];
     time_time := 20 |}.

(** A reply of three lines, the second made of a no-break space and an
    ideographic space. *)
Definition spaced_reply : string :=
  "Hi ann" +:+ String newline
    (no_break_space +:+ ideographic_space +:+ String newline "How are you?").

Definition world_with (path : string) (cache : list CachedMessage) : World :=
  {| awaiting_response := false;
     last_message_time := 0;
     files := {[ path := cache ]};
     log := []; sent := []; ai_requests := [] |}.

(** A world where the configured cache of [moved_cache_config] holds five
    records and the file named in [monitor_inactivity] holds none. *)
Definition two_cache_world : World :=
  {| awaiting_response := false;
     last_message_time := 0;
     files := {[ "messages_cache.json" := [];
                 "cache/pending.json" := [m1; m2; m3; m2; m1] ]};
     log := []; sent := []; ai_requests := [] |}.

(** ** Paths and files *)

(** The configuration of a program that runs on a file system which
    resolves paths by [resolve]: the cache is the file that the configured
    path names. *)
Definition on_disk (resolve : string -> string) (cfg : Config) : Config :=
  {| channel_bot_chat := channel_bot_chat cfg;
     messages_cache := resolve (messages_cache cfg);
     remove_emojis_AI := remove_emojis_AI cfg;
     send_message_line_by_line := send_message_line_by_line cfg |}.

(** A file system that knows a file by its path from the working
    directory: a leading ["./"] names the working directory itself, and the
    file is the one that the rest of the path names. *)
Fixpoint from_working_directory (path : string) : string :=
  match path with
  | String c1 (String c2 rest) =>
      if Ascii.eqb c1 (Ascii.ascii_of_nat 46)
         && Ascii.eqb c2 (Ascii.ascii_of_nat 47)
      then from_working_directory rest
      else path
  | _ => path
  end.

(** The default configuration with the cache given as
    ["./messages_cache.json"]. *)
Definition dotted_cache_config : Config :=
  {| channel_bot_chat := Some [10%Z];
     messages_cache := "./messages_cache.json";
     remove_emojis_AI := false;
     send_message_line_by_line := true |}.

(** ** Several calls of [AI_send_message] on one event loop

    The event loop resumes one call at a time and the call runs until it
    next suspends; [self.response_lock] is an [asyncio.Lock], taken as its
    documentation has it: [acquire] returns only when the lock is free and
    takes it, and leaving the [async with] block releases it. *)

(** Where a call stands between two turns of the event loop. *)
Inductive Task :=
| Called                   (* created, not yet run *)
| Acquiring                (* suspended in [self.response_lock.acquire()] *)
| Inside (p : AwaitPoint)  (* within [async with self.response_lock:],
                              suspended at [p] *)
| Finished.                (* ended, by [return] or by an exception *)

(** The suspension point that follows another inside the lock. *)
Inductive next_point : AwaitPoint -> AwaitPoint -> Prop :=
| next_ai : next_point AtTyping AtAI
| next_first_send : next_point AtAI (AtSend 0)
| next_send n : next_point (AtSend n) (AtSend (S n)).

(** One turn of a call: the lock before, the call before, the lock after,
    the call after. *)
Inductive resume : bool -> Task -> bool -> Task -> Prop :=
| resume_index_error l :
    (* lines 125-126 raise before the lock is reached *)
    resume l Called l Finished
| resume_wait l :
    (* line 129, the lock is not granted at once *)
    resume l Called l Acquiring
| resume_enter :
    (* line 129 with the lock free, up to the suspension of line 132 *)
    resume false Called true (Inside AtTyping)
| resume_through :
    (* line 129 with the lock free; no network (lines 183-186) or no
       channel (line 132 raises): the block is left without suspending *)
    resume false Called false Finished
| resume_granted :
    (* a waiting call is granted the lock and suspends at line 132 *)
    resume false Acquiring true (Inside AtTyping)
| resume_granted_through :
    resume false Acquiring false Finished
| resume_next l p p' :
    (* snapshot, AI call, sends: from one suspension to the next *)
    next_point p p' -> resume l (Inside p) l (Inside p')
| resume_leave l p :
    (* the rest of the body and the final block, then the lock is released *)
    resume l (Inside p) false Finished.

(** The suspension points [ps] are passed in this order after [p]. *)
Fixpoint follows (p : AwaitPoint) (ps : list AwaitPoint) : Prop :=
  match ps with
  | [] => True
  | q :: rest => next_point p q /\ follows q rest
  end.

(** The lock and the calls in progress. *)
Record System := {
  locked : bool;
  tasks : list Task
}.

(** The event loop picks a call and resumes it. *)
Inductive step : System -> System -> Prop :=
| step_resume s i t l' t' :
    tasks s !! i = Some t ->
    resume (locked s) t l' t' ->
    step s {| locked := l'; tasks := <[i := t']> (tasks s) |}.

(** [n] calls made at once. *)
Definition init (n : nat) : System :=
  {| locked := false; tasks := replicate n Called |}.

(** The call is in the critical section: snapshot, AI call, delivery and
    reconciliation all lie within the [async with] block. *)
Definition in_critical_section (t : Task) : bool :=
  match t with
  | Inside _ => true
  | _ => false
  end.

(** The number of calls in the critical section. *)
Definition holders (s : System) : nat :=
  length (filter (fun t => in_critical_section t = true) (tasks s)).

(** The lock is held exactly when one call is inside. *)
Definition lock_counts (s : System) : Prop :=
  holders s = if locked s then 1 else 0.

(** ** Notions used for the delivery of the reply *)

(** What the collaborators saw is the same in both worlds. *)
Definition same_outputs (w w' : World) : Prop :=
  sent w' = sent w /\ ai_requests w' = ai_requests w.

(** The frame of a dispatch has sent [out] and asked [asked] so far. *)
Definition outputs_are (out : list (Z * string))
    (asked : list (list CachedMessage)) (f : Frame) : Prop :=
  sent (world f) = out /\ ai_requests (world f) = asked.

(** The lines that the line-by-line loop gets through: the non-blank
    lines, up to the first [send] that raises. *)
Fixpoint lines_sent (env : Env) (n : nat) (lines : list string) : list string :=
  match lines with
  | [] => []
  | line :: rest =>
      if is_blank line then lines_sent env n rest
      else match send_error env n with
           | Some _ => []
           | None => line :: lines_sent env (S n) rest
           end
  end.

(** The texts that a dispatch over [snapshot] gets through to the channel. *)
Definition delivered (cfg : Config) (env : Env) (snapshot : list CachedMessage)
    : list string :=
  match snapshot with
  | [] => []
  | _ :: _ =>
      match cai_response env snapshot with
      | inl _ => []
      | inr response =>
          match (if remove_emojis_AI cfg then remove_emoji env response
                 else inr response) with
          | inl _ => []
          | inr response =>
              if send_message_line_by_line cfg
              then lines_sent env 0 (split_lines response)
              else match send_error env 0 with
                   | Some _ => []
                   | None => [response]
                   end
          end
      end
  end.

(** The character ["\n"] occurs in the string. *)
Fixpoint has_newline (s : string) : bool :=
  match s with
  | EmptyString => false
  | String c rest => Ascii.eqb c newline || has_newline rest
  end.

(** The requests that a dispatch over [snapshot] makes to the AI client. *)
Definition asked_for (snapshot : list CachedMessage)
    : list (list CachedMessage) :=
  match snapshot with
  | [] => []
  | _ :: _ => [snapshot]
  end.

(** The lines of a reply that are worth a message:
    [[line for line in response.split("\n") if line.strip()]]. *)
Definition non_blank_lines (response : string) : list string :=
  filter (fun line => is_blank line = false) (split_lines response).

(** ** Profile synchronisation: [sync_config] *)

(** The identity of the bot on the platform ([client.user]) and the log. *)
Record Identity := {
  identity_username : string;
  identity_avatar : option string;
  identity_log : list (Level * string)
}.

Definition set_username (n : string) (i : Identity) : Identity :=
  {| identity_username := n;
     identity_avatar := identity_avatar i;
     identity_log := identity_log i |}.

Definition set_avatar (bytes : string) (i : Identity) : Identity :=
  {| identity_username := identity_username i;
     identity_avatar := Some bytes;
     identity_log := identity_log i |}.

Definition note (l : Level) (s : string) : M Identity unit :=
  modify (fun i =>
            {| identity_username := identity_username i;
               identity_avatar := identity_avatar i;
               identity_log := identity_log i ++ [(l, s)] |}).

(** The two keys of the ["Discord"] section that [sync_config] reads with
    [.get(key, False)]; [None] is an absent key. *)
Record ProfileConfig := {
  use_cai_display_name : option bool;
  use_cai_avatar : option bool
}.

(** The collaborators of [sync_config]: [cai.get_bot_info()], the two uses
    of [client.user.edit], and the HTTP request for the picture, which
    answers a status and a body that may fail to be read. *)
Record ProfileEnv := {
  get_bot_info : Exn + gmap string string;
  edit_username : string -> option Exn;
  session_get : string -> Exn + (Z * (Exn + string));
  edit_avatar : string -> option Exn
}.

(** [info[key]]. *)
Definition subscript {S} (info : gmap string string) (key : string)
    : M S string :=
  match info !! key with
  | Some v => ret v
  | None => raise (ExternalError "KeyError")
  end.

(** A call that answers nothing and may raise. *)
Definition perform {S} (r : option Exn) : M S unit :=
  match r with
  | Some e => raise e
  | None => ret tt
  end.

Definition sync_config_body (cfg : ProfileConfig) (env : ProfileEnv)
    : M Identity unit :=
  info <- try_except (call (get_bot_info env))
            (fun e =>
               note ERROR "Failed to get bot info from cai: %s" ;;;
               return_) ;;
  (if default false (use_cai_display_name cfg) then
     try_except
       (n <- subscript info "name" ;;
        perform (edit_username env n) ;;;
        modify (set_username n) ;;;
        note INFO "Username updated to '%s'.")
       (fun e => note ERROR "Failed to update username: %s")
   else ret tt) ;;;
  (if default false (use_cai_avatar cfg) then
     try_except
       (url <- subscript info "avatar_url" ;;
        response <- call (session_get env url) ;;
        if (fst response =? 200)%Z then
          image_bytes <- call (snd response) ;;
          perform (edit_avatar env image_bytes) ;;;
          modify (set_avatar image_bytes) ;;;
          note INFO "Profile picture updated successfully."
        else
          note ERROR "Failed to update profile picture. HTTP status code: %s")
       (fun e => note ERROR "Error while updating profile picture: %s")
   else ret tt).

Definition sync_config (cfg : ProfileConfig) (env : ProfileEnv)
    : M Identity unit :=
  fun i =>
    match sync_config_body cfg env i with
    | (Returned, i') => (Normal tt, i')
    | r => r
    end.

(** The picture that [sync_config] would install, if every step of the
    avatar branch goes through. *)
Definition new_avatar (cfg : ProfileConfig) (env : ProfileEnv) : option string :=
  match get_bot_info env with
  | inr info =>
      if default false (use_cai_avatar cfg) then
        match info !! "avatar_url" with
        | Some url =>
            match session_get env url with
            | inr (status, inr image_bytes) =>
                if (status =? 200)%Z then
                  match edit_avatar env image_bytes with
                  | None => Some image_bytes
                  | Some _ => None
                  end
                else None
            | _ => None
            end
        | None => None
        end
      else None
  | inl _ => None
  end.

(** The name that [sync_config] would install. *)
Definition new_username (cfg : ProfileConfig) (env : ProfileEnv) : option string :=
  match get_bot_info env with
  | inr info =>
      if default false (use_cai_display_name cfg) then
        match info !! "name" with
        | Some n =>
            match edit_username env n with
            | None => Some n
            | Some _ => None
            end
        | None => None
        end
      else None
  | inl _ => None
  end.

(** A service that answers a name and a picture address, and a platform
    that refuses the change of name. *)
Definition sample_profile_env : ProfileEnv :=
  {| get_bot_info := inr {[ "name" := "Neuro"; "avatar_url" := "https://cdn/a.png" ]};
     edit_username := fun _ => Some (ExternalError "HTTPException");
     session_get := fun url => inr (200%Z, inr ("PNG:" +:+ url));
     edit_avatar := fun _ => None |}.

Definition sample_identity : Identity :=
  {| identity_username := "bridge"; identity_avatar := None; identity_log := [] |}.

(** * [boot.py]: merging configurations *)

(** A value loaded from a YAML file in round-trip mode: [None], a value
    that is not a dictionary, or a [CommentedMap] with its items in order
    and the comments attached to its keys ([ca.items]). *)
#[warnings="-register-all"]
Inductive Yaml :=
| YNull
| YScalar (v : string)
| YMap (items : list (string * Yaml)) (ca : gmap string string).

(** [d.get(key)]. *)
Fixpoint dict_get (key : string) (d : list (string * Yaml)) : option Yaml :=
  match d with
  | [] => None
  | (k, v) :: rest => if decide (key = k) then Some v else dict_get key rest
  end.

(** [d[key] = value]: in place when the key is there, at the end
    otherwise. *)
Fixpoint dict_set (key : string) (value : Yaml) (d : list (string * Yaml))
    : list (string * Yaml) :=
  match d with
  | [] => [(key, value)]
  | (k, v) :: rest =>
      if decide (key = k) then (k, value) :: rest
      else (k, v) :: dict_set key value rest
  end.

(** [if key in from.ca.items: into.ca.items[key] = from.ca.items.get(key)]. *)
Definition copy_comment (key : string) (from : gmap string string)
    (into : gmap string string) : gmap string string :=
  match from !! key with
  | Some c => <[key := c]> into
  | None => into
  end.

(** The body of the first loop, over the items of [default_cfg]; [merge]
    stands for the recursive call. *)
Definition merge_default_item (merge : Yaml -> Yaml -> Yaml)
    (user_cfg : list (string * Yaml)) (uca dca : gmap string string)
    (merged : list (string * Yaml) * gmap string string)
    (item : string * Yaml) : list (string * Yaml) * gmap string string :=
  let key := fst item in
  let value := match dict_get key user_cfg with
               | Some user_val => merge (snd item) user_val
               | None => snd item
               end in
  (dict_set key value (fst merged),
   match uca !! key with
   | Some c => <[key := c]> (snd merged)
   | None => copy_comment key dca (snd merged)
   end).

(** The body of the second loop, over the items of [user_cfg]. *)
Definition append_extra_item (default_cfg : list (string * Yaml))
    (uca : gmap string string)
    (merged : list (string * Yaml) * gmap string string)
    (item : string * Yaml) : list (string * Yaml) * gmap string string :=
  let key := fst item in
  match dict_get key default_cfg with
  | Some _ => merged
  | None => (dict_set key (snd item) (fst merged),
             copy_comment key uca (snd merged))
  end.

(** The value merged for a key that both have: [merge_ordered] when both
    values are dictionaries, the user's value otherwise. *)
Fixpoint merge_value (default_val user_val : Yaml) {struct default_val} : Yaml :=
  match default_val, user_val with
  | YMap default_cfg dca, YMap user_cfg uca =>
      let merged :=
        fold_left (merge_default_item merge_value user_cfg uca dca)
          default_cfg ([], ∅) in
      let merged :=
        fold_left (append_extra_item default_cfg uca) user_cfg merged in
      YMap (fst merged) (snd merged)
  | _, _ => user_val
  end.

(** [merge_ordered(user_cfg, default_cfg)] for two dictionaries, which is
    what [merge_configs] and the recursive call of line 151 hand to it.
    With an argument that is no dictionary the function raises or answers
    according to the kind of the value, which [Yaml] does not tell apart:
    nothing is stated about [merge_ordered] there. *)
Definition merge_ordered (user_cfg default_cfg : Yaml) : Yaml :=
  merge_value default_cfg user_cfg.

(** [ConfigManager.merge_configs], on [self.user_config] ([None] when the
    file is missing or unreadable) and [self.default_config]. *)
Definition merge_configs (user_config : option Yaml) (default_config : Yaml)
    : Yaml :=
  match user_config with
  | None => default_config
  | Some user_cfg =>
      match merge_ordered user_cfg default_config with
      | YMap items ca =>
          YMap (dict_set "version"
                  (match default_config with
                   | YMap default_items _ =>
                       default YNull (dict_get "version" default_items)
                   | _ => YNull
                   end)
                  items) ca
      | merged => merged
      end
  end.

(** The keys of a dictionary, in order. *)
Definition keys (d : list (string * Yaml)) : list string := map fst d.

(** The items of the merge of two dictionaries with distinct keys: those of
    the default in their order, each with the merged value, then the items
    that only the user has, in their order. *)
Definition merged_items (user_cfg default_cfg : list (string * Yaml))
    : list (string * Yaml) :=
  map (fun item =>
         (fst item,
          match dict_get (fst item) user_cfg with
          | Some user_val => merge_value (snd item) user_val
          | None => snd item
          end)) default_cfg
  ++ filter (fun item => dict_get (fst item) default_cfg = None) user_cfg.

(** A small default configuration and a user's file: the user changed the
    token, has an old version and a key of their own, and lacks a key that
    the default has. *)
Definition default_yaml : Yaml :=
  YMap [("version", YScalar "1.0.4");
        ("Discord",
         YMap [("token", YScalar "YOUR_DISCORD_BOT_TOKEN");
               ("messages_cache", YScalar "messages_cache.json")]
              {[ "token" := "# keep this token secure" ]});
        ("Options", YMap [("auto_update", YScalar "true")] ∅)]
       {[ "version" := "# Don't touch here" ]}.

Definition user_yaml : Yaml :=
  YMap [("Discord", YMap [("token", YScalar "abc123")] ∅);
        ("nickname", YScalar "bridge");
        ("version", YScalar "1.0.2")]
       {[ "nickname" := "# mine" ]}.

(** A value as the YAML loader gives it: in every dictionary, at any depth,
    the keys are distinct and comments are attached to keys that exist. *)
Fixpoint well_formed (y : Yaml) : Prop :=
  match y with
  | YMap items ca =>
      NoDup (keys items) /\
      (forall key, ca !! key <> None -> key ∈ keys items) /\
      fold_right (fun item rest => well_formed (snd item) /\ rest) True items
  | _ => True
  end.

(** * [boot.py]: the updater *)

(** ** [AutoUpdater._extract_repo_info] *)

(** The pattern of line 274 is matched against a [str], character by
    character, with character classes that go beyond ASCII: here a URL is
    the list of its code points. *)
Definition code_points (ascii_text : string) : list N :=
  map Ascii.N_of_ascii (String.list_ascii_of_string ascii_text).

Section Pattern.

(** [str.isalnum] on the code points from U+0080 on, as the Unicode
    database of the interpreter has it. *)
Variable isalnum_beyond_ascii : N -> bool.

(** [\w] of a [str] pattern without [re.ASCII]: [c.isalnum()] or the
    underscore. *)
Definition is_word_char (c : N) : bool :=
  if (c <? 128)%N then
    ((48 <=? c) && (c <=? 57) || (65 <=? c) && (c <=? 90)
     || (97 <=? c) && (c <=? 122) || (c =? 95))%N
  else isalnum_beyond_ascii c.

(** [[\w-]]. *)
Definition is_name_char (c : N) : bool :=
  is_word_char c || (c =? 45)%N.

(** The longest prefix matched by [[\w-]*], and what follows it. *)
Fixpoint span_name (s : list N) : list N * list N :=
  match s with
  | [] => ([], [])
  | c :: rest =>
      if is_name_char c
      then (c :: fst (span_name rest), snd (span_name rest))
      else ([], s)
  end.

(** What follows [pre] in [s], when [s] starts with [pre]. *)
Fixpoint after_prefix (pre s : list N) : option (list N) :=
  match pre, s with
  | [], _ => Some s
  | a :: pre', b :: s' => if (a =? b)%N then after_prefix pre' s' else None
  | _ :: _, [] => None
  end.

(** [AutoUpdater._extract_repo_info]: [re.match] of
    [(?:git@github\.com:|https:\/\/github\.com\/)([\w-]+)/([\w-]+)(?:\.git)?]
    at the start of the URL; [None] stands for the [ValueError].  The slash
    is not in the class, so the first group is the longest run of the class
    or there is no match; the second is the longest run, the optional
    [.git] taking from it nothing. *)
Definition _extract_repo_info (repo_url : list N) : option (list N * list N) :=
  match (match after_prefix (code_points "git@github.com:") repo_url with
         | Some rest => Some rest
         | None => after_prefix (code_points "https://github.com/") repo_url
         end) with
  | None => None
  | Some rest =>
      match span_name rest with
      | ([], _) => None
      | (owner, c :: rest') =>
          if (c =? 47)%N then
            match span_name rest' with
            | ([], _) => None
            | (name, _) => Some (owner, name)
            end
          else None
      | (_, []) => None
      end
  end.

(** Every character of the text is matched by [[\w-]]. *)
Fixpoint is_name (s : list N) : bool :=
  match s with
  | [] => true
  | c :: rest => is_name_char c && is_name rest
  end.

(** The text does not go on with a character that [[\w-]] matches. *)
Definition ends_name (s : list N) : bool :=
  match s with
  | [] => true
  | c :: _ => negb (is_name_char c)
  end.

End Pattern.

(** The Unicode database up to U+00FF: the letters and the numeric
    characters of Latin-1.  The examples do not go beyond U+00FF. *)
Definition latin1_isalnum (c : N) : bool :=
  ((c =? 170) || (c =? 178) || (c =? 179) || (c =? 181) || (c =? 185)
   || (c =? 186) || (188 <=? c) && (c <=? 190)
   || (192 <=? c) && (c <=? 214) || (216 <=? c) && (c <=? 246)
   || (248 <=? c) && (c <=? 255))%N.

(** ** [AutoUpdater.check_and_update] *)

Record Updater := {
  is_exe : bool;
  current_version : string
}.

(** What the outside answers during one check: the latest release
    ([None] when [_get_latest_release] returns [None] or an empty object,
    [Some None] when the object has no ["tag_name"]),
    the comparison [version.parse(tag) > version.parse(current)] ([None]
    when a version cannot be parsed), whether [_update_exe] got as far as
    [sys.exit], and the result of [_update_from_commit]. *)
Record UpdateEnv := {
  latest_release : option (option string);
  newer : string -> string -> option bool;
  update_exe_exits : bool;
  update_from_commit : bool
}.

(** How [check_and_update] ends. *)
Inductive UpdateOutcome :=
| Skipped                       (* SKIP_AUTOUPDATE is "1" *)
| Continues                     (* the program goes on *)
| Crashes                       (* an exception leaves the method *)
| ExitsForNewExecutable         (* [sys.exit(0)] in [_update_exe] *)
| Restarts (child : gmap string string).
                                (* [_restart_program]: a child process with
                                   this environment, then [sys.exit(0)] *)

(** [_restart_program], for the environment it gives the child. *)
Definition _restart_program (environ : gmap string string)
    : gmap string string :=
  <["SKIP_AUTOUPDATE" := "1"]> environ.

Definition check_and_update (u : Updater) (env : UpdateEnv)
    (environ : gmap string string) : UpdateOutcome :=
  if decide (environ !! "SKIP_AUTOUPDATE" = Some "1") then Skipped
  else if is_exe u then
    match latest_release env with
    | None => Continues
    | Some None => Crashes
    | Some (Some tag_name) =>
        match newer env tag_name (current_version u) with
        | None => Crashes
        | Some true =>
            if update_exe_exits env then ExitsForNewExecutable else Continues
        | Some false => Continues
        end
    end
  else if update_from_commit env then Restarts (_restart_program environ)
  else Continues.

(** The processes started one after the other through [_restart_program]
    when each runs [check_and_update] once at start-up: the [n]-th finds
    the outside as [envs n]; at most [fuel] processes are followed.  (The
    executable that the batch file of [_update_exe] starts is not followed:
    it is started outside the program.) *)
Fixpoint processes_started (fuel : nat) (u : Updater) (envs : nat -> UpdateEnv)
    (n : nat) (environ : gmap string string) : nat :=
  match fuel with
  | 0 => 0
  | S fuel' =>
      match check_and_update u (envs n) environ with
      | Restarts child => S (processes_started fuel' u envs (S n) child)
      | _ => 1
      end
  end.

(** * Properties *)

(** ** Relations that every step of a computation keeps *)

Section Keeps.

Context {S : Type} (R : S -> S -> Prop).
Hypothesis R_refl : forall s, R s s.
Hypothesis R_trans : forall a b c, R a b -> R b c -> R a c.

Lemma keeps_ret {A} (a : A) : keeps R (ret a).
Proof. intros s. apply R_refl. Qed.

Lemma keeps_raise {A} (e : Exn) : keeps R (raise (A := A) e).
Proof. intros s. apply R_refl. Qed.

Lemma keeps_return {A} : keeps R (return_ (A := A)).
Proof. intros s. apply R_refl. Qed.

Lemma keeps_gets {A} (f : S -> A) : keeps R (gets f).
Proof. intros s. apply R_refl. Qed.

Lemma keeps_call {A} (r : Exn + A) : keeps R (call r).
Proof. destruct r; [apply keeps_raise | apply keeps_ret]. Qed.

Lemma keeps_modify (f : S -> S) : (forall s, R s (f s)) -> keeps R (modify f).
Proof. intros H s. apply H. Qed.

Lemma keeps_bind {A B} (m : M S A) (k : A -> M S B) :
  keeps R m -> (forall a, keeps R (k a)) -> keeps R (bind m k).
Proof.
  intros Hm Hk s. unfold bind. specialize (Hm s).
  destruct (m s) as [[a | e |] s']; simpl in *; try assumption.
  eapply R_trans; [exact Hm | apply Hk].
Qed.

Lemma keeps_try_except {A} (body : M S A) (handler : Exn -> M S A) :
  keeps R body -> (forall e, keeps R (handler e)) -> keeps R (try_except body handler).
Proof.
  intros Hb Hh s. unfold try_except. specialize (Hb s).
  destruct (body s) as [[a | e |] s']; simpl in *; try assumption.
  eapply R_trans; [exact Hb | apply Hh].
Qed.

Lemma keeps_try_finally {A} (body : M S A) (final : M S unit) :
  keeps R body -> keeps R final -> keeps R (try_finally body final).
Proof.
  intros Hb Hf s. unfold try_finally. specialize (Hb s).
  destruct (body s) as [r s']. specialize (Hf s').
  destruct (final s') as [[[] | e |] s'']; simpl in *;
    eapply R_trans; eassumption.
Qed.

End Keeps.

(** ** What the collector, the dispatch and the monitor can change

    A relation on worlds that is reflexive, transitive and kept by the
    elementary updates that the code performs is kept by every handler, by
    a whole dispatch and by a monitor tick.  The only file ever written is
    the configured cache, and the only channel ever sent to is the one
    resolved from [first_channel]. *)

Section Invariance.

Variable cfg : Config.
Variable client : Client.
Variable R : World -> World -> Prop.

Hypothesis R_refl : forall w, R w w.
Hypothesis R_trans : forall a b c, R a b -> R b c -> R a c.
Hypothesis R_awaiting : forall b w, R w (set_awaiting_response b w).
Hypothesis R_last : forall t w, R w (set_last_message_time t w).
Hypothesis R_log : forall l s w, R w (add_log l s w).
Hypothesis R_ai : forall c w, R w (add_ai_request c w).
Hypothesis R_write :
  forall c w, R w (set_files (<[messages_cache cfg := c]> (files w)) w).
Hypothesis R_sent :
  forall id ch text w,
    first_channel cfg = inr id -> get_channel client id = Some ch ->
    R w (add_sent ch text w).

Create HintDb keeps.

Local Hint Resolve keeps_ret keeps_raise keeps_return keeps_gets keeps_call
  keeps_bind keeps_try_except keeps_try_finally keeps_modify : keeps.

Local Ltac keeps_world := unfold log_, write_json; eauto 30 with keeps.

Lemma keeps_read_json path : keeps R (read_json path).
Proof. intros w. unfold read_json. destruct (files w !! path); apply R_refl. Qed.

Lemma keeps_json_load path : keeps R (json_load path).
Proof. intros w. unfold json_load. destruct (files w !! path); apply R_refl. Qed.

Local Hint Resolve keeps_read_json keeps_json_load : keeps.

Lemma keeps_log l s : keeps R (log_ l s).
Proof. keeps_world. Qed.

Lemma keeps_capture_message info reply :
  keeps R (capture_message (messages_cache cfg) info reply).
Proof. unfold capture_message. keeps_world. Qed.

Local Hint Resolve keeps_log keeps_capture_message : keeps.

Lemma keeps_time_typing now channel user :
  keeps R (time_typing cfg client now channel user).
Proof. unfold time_typing. destruct (_ && _); keeps_world. Qed.

Lemma keeps_read_channel_messages now msg :
  keeps R (read_channel_messages cfg client now msg).
Proof.
  unfold read_channel_messages.
  destruct (accepts cfg client msg), (reference msg); keeps_world.
Qed.

Lemma keeps_handle_event ev : keeps R (handle_event cfg client ev).
Proof.
  destruct ev; [apply keeps_read_channel_messages | apply keeps_time_typing].
Qed.

Lemma run_events_keeps evs w : R w (run_events cfg client evs w).
Proof.
  revert w. induction evs as [| ev evs IH]; intros w; simpl.
  - apply R_refl.
  - eapply R_trans; [apply keeps_handle_event | apply IH].
Qed.

(** The same for the frames of a dispatch. *)

Variable env : Env.

Lemma on_world_refl f : on_world R f f.
Proof. apply R_refl. Qed.

Lemma on_world_trans a b c : on_world R a b -> on_world R b c -> on_world R a c.
Proof. apply R_trans. Qed.

Local Hint Resolve on_world_refl on_world_trans : keeps.

Lemma keeps_lift {A} (m : M World A) : keeps R m -> keeps (on_world R) (lift m).
Proof.
  intros Hm f. unfold lift, on_world. specialize (Hm (world f)).
  destruct (m (world f)) as [r w]. exact Hm.
Qed.

Lemma keeps_set_cached_data c : keeps (on_world R) (set_cached_data c).
Proof. intros f. apply R_refl. Qed.

Lemma keeps_unprocessed c : keeps (on_world R) (unprocessed c).
Proof.
  intros f. unfold unprocessed.
  destruct c, (cached_data f); apply R_refl.
Qed.

Lemma keeps_suspend p : keeps (on_world R) (suspend cfg client env p).
Proof.
  apply keeps_lift, keeps_modify. intros w. apply run_events_keeps.
Qed.

Local Hint Resolve keeps_lift keeps_set_cached_data keeps_unprocessed
  keeps_suspend : keeps.

Local Ltac keeps_frame := unfold logF; keeps_world.

Lemma keeps_enter_typing ch : keeps (on_world R) (enter_typing cfg client env ch).
Proof.
  unfold enter_typing. destruct ch; [destruct (typing_error env) |]; keeps_frame.
Qed.

Lemma keeps_await_cai_response c :
  keeps (on_world R) (await_cai_response cfg client env c).
Proof. unfold await_cai_response. keeps_frame. Qed.

Section Destination.

Variable id : option Z.
Variable ch : Z.
Hypothesis id_first : first_channel cfg = inr id.
Hypothesis ch_found : get_channel client id = Some ch.

Lemma keeps_send n text : keeps (on_world R) (send cfg client env ch n text).
Proof.
  unfold send. destruct (send_error env n); keeps_frame.
Qed.

Local Hint Resolve keeps_send : keeps.

Lemma keeps_send_lines lines n :
  keeps (on_world R) (send_lines cfg client env ch n lines).
Proof.
  revert n. induction lines as [| line rest IH]; intros n; simpl.
  - keeps_frame.
  - destruct (is_blank line); [apply IH |]. keeps_frame.
Qed.

End Destination.

Lemma keeps_deliver id :
  first_channel cfg = inr id ->
  forall response,
    keeps (on_world R)
      (deliver cfg client env id (get_channel client id) response).
Proof.
  intros Hid response. unfold deliver.
  destruct (get_channel client id) as [ch |] eqn:Hch; [| keeps_frame].
  destruct (send_message_line_by_line cfg).
  - eapply keeps_send_lines; eassumption.
  - pose proof (keeps_send id ch Hid Hch). keeps_frame.
Qed.

Lemma keeps_update_cache : keeps (on_world R) (update_cache cfg).
Proof. unfold update_cache. keeps_frame. Qed.

Lemma keeps_dispatch_body id :
  first_channel cfg = inr id ->
  keeps (on_world R) (dispatch_body cfg client env id (get_channel client id)).
Proof.
  intros Hid. unfold dispatch_body.
  pose proof keeps_enter_typing. pose proof keeps_await_cai_response.
  pose proof (keeps_deliver id Hid).
  apply keeps_bind; [keeps_frame .. |]. intros _.
  apply keeps_bind; [keeps_frame .. |]. intros cached.
  apply keeps_bind; [keeps_frame .. |]. intros _.
  destruct cached; [keeps_frame |].
  destruct (remove_emojis_AI cfg); keeps_frame.
Qed.

Lemma keeps_AI_send_message_frame :
  keeps (on_world R) (AI_send_message_frame cfg client env).
Proof.
  unfold AI_send_message_frame.
  pose proof keeps_update_cache. pose proof keeps_dispatch_body.
  apply keeps_bind; [keeps_frame .. |]. intros _.
  destruct (first_channel cfg) as [e | id] eqn:Hid; simpl.
  - unfold bind; intros f; apply R_refl.
  - match goal with
    | |- keeps ?Q (bind (ret ?a) ?k) => change (keeps Q (k a)); cbv beta
    end.
    destruct (test_internet env); [unfold reset_and_clean_up |]; keeps_frame.
Qed.

Lemma keeps_AI_send_message : keeps R (AI_send_message cfg client env).
Proof.
  intros w. unfold AI_send_message.
  pose proof (keeps_AI_send_message_frame {| world := w; cached_data := None |}) as H.
  destruct (AI_send_message_frame _ _ _ _) as [[[] | e |] f]; exact H.
Qed.

Lemma keeps_monitor_tick now : keeps R (monitor_tick cfg client now env).
Proof.
  pose proof keeps_AI_send_message.
  unfold monitor_tick, trigger_dispatch.
  apply keeps_bind; [keeps_world .. |]. intros awaiting.
  destruct (negb awaiting); [| keeps_world].
  apply keeps_try_except; [keeps_world .. | | keeps_world].
  apply keeps_bind; [keeps_world .. |]. intros cached.
  apply keeps_bind; [keeps_world .. |]. intros last.
  destruct (trigger_condition _ _ _); keeps_world.
Qed.


End Invariance.

(** ** The reconciliation as a function on lists *)

Lemma elem_of_remove_messages x current snapshot :
  x ∈ remove_messages current snapshot <-> x ∈ current /\ x ∉ snapshot.
Proof. unfold remove_messages. rewrite list_elem_of_filter. tauto. Qed.

Lemma remove_messages_app c1 c2 snapshot :
  remove_messages (c1 ++ c2) snapshot
  = remove_messages c1 snapshot ++ remove_messages c2 snapshot.
Proof. apply filter_app. Qed.

Lemma remove_messages_none current snapshot :
  (forall x, x ∈ current -> x ∈ snapshot) ->
  remove_messages current snapshot = [].
Proof.
  unfold remove_messages. induction current as [| x l IH]; intros H.
  - reflexivity.
  - rewrite filter_cons_False.
    + apply IH. intros y Hy. apply H. now right.
    + intros Hx. apply Hx, H. now left.
Qed.

Lemma remove_messages_all current snapshot :
  (forall x, x ∈ current -> x ∉ snapshot) ->
  remove_messages current snapshot = current.
Proof.
  unfold remove_messages. induction current as [| x l IH]; intros H.
  - reflexivity.
  - rewrite filter_cons_True by (apply H; now left).
    f_equal. apply IH. intros y Hy. apply H. now right.
Qed.

Lemma remove_messages_snapshot_app snapshot arrived :
  remove_messages (snapshot ++ arrived) snapshot
  = remove_messages arrived snapshot.
Proof.
  rewrite remove_messages_app, remove_messages_none; [reflexivity | auto].
Qed.

Lemma remove_messages_sublist current snapshot :
  remove_messages current snapshot `sublist_of` current.
Proof. apply sublist_filter. Qed.

(** ** The handlers that run during a suspension *)

Section Handlers.

Variable cfg : Config.
Variable client : Client.

Lemma same_file_refl path w : same_file path w w.
Proof. reflexivity. Qed.

Lemma same_file_trans path a b c :
  same_file path a b -> same_file path b c -> same_file path a c.
Proof. unfold same_file. congruence. Qed.

Lemma log_extended_trans a b c :
  log_extended a b -> log_extended b c -> log_extended a c.
Proof. unfold log_extended. apply transitivity. Qed.

Lemma same_effects_trans a b c :
  same_effects a b -> same_effects b c -> same_effects a c.
Proof. unfold same_effects. intuition congruence. Qed.

Lemma read_channel_messages_cache now msg w c :
  files w !! messages_cache cfg = Some c ->
  files (snd (read_channel_messages cfg client now msg w)) !! messages_cache cfg
  = Some (c ++ option_list (captured cfg client msg)).
Proof.
  intros Hc.
  unfold read_channel_messages, captured, try_except, bind, capture_message,
    bind, read_json, write_json, log_, modify, call, raise, ret.
  destruct (accepts cfg client msg); simpl; [| now rewrite app_nil_r].
  destruct (reference msg) as [message_id |]; simpl.
  - destruct (fetch_message client (channel_id msg) message_id) as [e | r];
      simpl.
    + now rewrite app_nil_r.
    + rewrite Hc. simpl. now rewrite lookup_insert_eq.
  - rewrite Hc. simpl. now rewrite lookup_insert_eq.
Qed.

Lemma time_typing_files now channel user w :
  files (snd (time_typing cfg client now channel user w)) = files w.
Proof.
  unfold time_typing, try_except, bind, log_, modify, ret.
  destruct (_ && _); reflexivity.
Qed.

Lemma run_events_cache evs w c :
  files w !! messages_cache cfg = Some c ->
  files (run_events cfg client evs w) !! messages_cache cfg
  = Some (c ++ arrivals cfg client evs).
Proof.
  revert w c. induction evs as [| ev evs IH]; intros w c Hc; simpl.
  - now rewrite app_nil_r.
  - destruct ev as [t msg | t channel user]; simpl.
    + erewrite IH by (apply read_channel_messages_cache, Hc).
      unfold arrivals. simpl.
      destruct (captured cfg client msg); simpl;
        [now rewrite <- app_assoc | now rewrite app_nil_r].
    + apply IH. now rewrite time_typing_files.
Qed.

Lemma run_events_same_file path evs w :
  path <> messages_cache cfg ->
  same_file path w (run_events cfg client evs w).
Proof.
  intros Hp.
  apply run_events_keeps; intros; unfold same_file in *; simpl;
    try congruence.
  now apply lookup_insert_ne.
Qed.

Lemma run_events_same_effects evs w :
  same_effects w (run_events cfg client evs w).
Proof.
  apply run_events_keeps; try (intros; repeat split; fail).
  apply same_effects_trans.
Qed.

Lemma run_events_log_extended evs w :
  log_extended w (run_events cfg client evs w).
Proof.
  apply run_events_keeps; try apply log_extended_trans;
    intros; unfold log_extended; simpl; try reflexivity.
  now apply prefix_app_r.
Qed.

End Handlers.

(** ** Rules for the control-flow combinators *)

Section Rules.

Context {S : Type}.

Lemma bind_eq {A B} (m : M S A) (k : A -> M S B) s :
  bind m k s
  = match m s with
    | (Normal a, s') => k a s'
    | (Raised e, s') => (Raised e, s')
    | (Returned, s') => (Returned, s')
    end.
Proof. reflexivity. Qed.

Lemma hoare_weaken {A} (P : S -> Prop) (m : M S A) (Q Q' : Outcome A -> S -> Prop) :
  hoare P m Q -> (forall r s, Q r s -> Q' r s) -> hoare P m Q'.
Proof. intros Hm HQ s HP. apply HQ, Hm, HP. Qed.

Lemma hoare_ret {A} (P : S -> Prop) (a : A) :
  hoare P (ret a) (fun r s => r = Normal a /\ P s).
Proof. intros s HP. simpl. auto. Qed.

Lemma hoare_modify (P P' : S -> Prop) (f : S -> S) :
  (forall s, P s -> P' (f s)) ->
  hoare P (modify f) (fun r s => r = Normal tt /\ P' s).
Proof. intros H s HP. simpl. auto. Qed.

Lemma hoare_bind {A B} (P : S -> Prop) (m : M S A) (k : A -> M S B)
    (Q1 : Outcome A -> S -> Prop) (Q : Outcome B -> S -> Prop) :
  hoare P m Q1 ->
  (forall a, hoare (Q1 (Normal a)) (k a) Q) ->
  (forall e s, Q1 (Raised e) s -> Q (Raised e) s) ->
  (forall s, Q1 Returned s -> Q Returned s) ->
  hoare P (bind m k) Q.
Proof.
  intros Hm Hk He Hr s HP. unfold bind. specialize (Hm s HP).
  destruct (m s) as [[a | e |] s']; simpl in *; auto.
  apply Hk, Hm.
Qed.

(** The common case: the first step ends normally with a known value. *)
Lemma hoare_step {A B} (P P' : S -> Prop) (m : M S A) (a : A)
    (k : A -> M S B) (Q : Outcome B -> S -> Prop) :
  hoare P m (fun r s => r = Normal a /\ P' s) ->
  hoare P' (k a) Q ->
  hoare P (bind m k) Q.
Proof.
  intros Hm Hk s HP. unfold bind. destruct (Hm s HP) as [Hr HP'].
  destruct (m s) as [r s']; simpl in *; subst r. apply Hk, HP'.
Qed.

Lemma hoare_try_except {A} (P : S -> Prop) (body : M S A)
    (handler : Exn -> M S A) (Q1 Q : Outcome A -> S -> Prop) :
  hoare P body Q1 ->
  (forall e, hoare (Q1 (Raised e)) (handler e) Q) ->
  (forall a s, Q1 (Normal a) s -> Q (Normal a) s) ->
  (forall s, Q1 Returned s -> Q Returned s) ->
  hoare P (try_except body handler) Q.
Proof.
  intros Hb Hh Hn Hr s HP. unfold try_except. specialize (Hb s HP).
  destruct (body s) as [[a | e |] s']; simpl in *; auto.
  apply Hh, Hb.
Qed.

(** When the final block always ends normally, the outcome of the body
    stands. *)
Lemma hoare_try_finally {A} (P : S -> Prop) (body : M S A) (final : M S unit)
    (Q1 : Outcome A -> S -> Prop) (Q : Outcome A -> S -> Prop) :
  hoare P body Q1 ->
  (forall r, hoare (Q1 r) final (fun r' s => r' = Normal tt /\ Q r s)) ->
  hoare P (try_finally body final) Q.
Proof.
  intros Hb Hf s HP. unfold try_finally. specialize (Hb s HP).
  destruct (body s) as [r s']; simpl in *.
  destruct (Hf r s' Hb) as [Hr HQ].
  destruct (final s') as [r' s'']; simpl in *; subst r'. exact HQ.
Qed.

Lemma hoare_pre_pure {A} (F : Prop) (P : S -> Prop) (m : M S A)
    (Q : Outcome A -> S -> Prop) :
  (F -> hoare P m Q) -> hoare (fun s => F /\ P s) m Q.
Proof. intros H s [HF HP]. now apply H. Qed.

End Rules.

(** ** Splitting a reply into lines *)

Example split_lines_keeps_empty_lines :
  split_lines ("a" +:+ String newline (String newline ("b" +:+ String newline "")))
  = ["a"; ""; "b"; ""].
Proof. reflexivity. Qed.

Example is_blank_spaces : is_blank "   " = true /\ is_blank " x " = false.
Proof. split; reflexivity. Qed.

(** A line of whitespace beyond ASCII is blank; a letter beyond ASCII, here
    U+00E9, is not, and neither is half of a character. *)
Example is_blank_beyond_ascii :
  is_blank (no_break_space +:+ " " +:+ ideographic_space) = true /\
  is_blank (String (Ascii.ascii_of_nat 195) (String (Ascii.ascii_of_nat 169) ""))
  = false /\
  is_blank (String (Ascii.ascii_of_nat 194) "") = false.
Proof. repeat split; reflexivity. Qed.

(** Blank lines are not sent and do not count as a [send]. *)
Example sends_reached_skips_blank_lines :
  sends_reached (sample_env [] false) 0 ["a"; ""; "  "; "b"]
  = [AtSend 0; AtSend 1].
Proof. reflexivity. Qed.

(** ** A dispatch, step by step *)

Section Dispatch.

Variable cfg : Config.
Variable client : Client.
Variable env : Env.

Lemma arrivals_app evs1 evs2 :
  arrivals cfg client (evs1 ++ evs2)
  = arrivals cfg client evs1 ++ arrivals cfg client evs2.
Proof. apply omap_app. Qed.

Lemma events_at_cons p points :
  events_at env (p :: points) = interleaved env p ++ events_at env points.
Proof. reflexivity. Qed.

Lemma hoare_lift_modify local cache (g : World -> World) :
  (forall w, files (g w) = files w) ->
  hoare (cache_holds cfg local cache) (lift (modify g))
    (fun r f => r = Normal tt /\ cache_holds cfg local cache f).
Proof.
  intros Hg f [Hd Hf]. unfold lift, modify, cache_holds. simpl.
  rewrite Hg. auto.
Qed.

Lemma hoare_logF local cache l s :
  hoare (cache_holds cfg local cache) (logF l s)
    (fun r f => r = Normal tt /\ cache_holds cfg local cache f).
Proof. apply hoare_lift_modify. reflexivity. Qed.

Lemma hoare_suspend local cache p :
  hoare (cache_holds cfg local cache) (suspend cfg client env p)
    (fun r f => r = Normal tt /\
                cache_holds cfg local
                  (cache ++ arrivals cfg client (interleaved env p)) f).
Proof.
  intros f [Hd Hf]. unfold suspend, lift, modify, cache_holds. simpl.
  repeat split; [assumption |]. now apply run_events_cache.
Qed.

Lemma hoare_send local cache ch n text :
  hoare (cache_holds cfg local cache) (send cfg client env ch n text)
    (fun r f =>
       r = match send_error env n with
           | Some e => Raised e
           | None => Normal tt
           end /\
       cache_holds cfg local
         (cache ++ arrivals cfg client (interleaved env (AtSend n))) f).
Proof.
  unfold send. eapply hoare_step; [apply hoare_suspend |].
  destruct (send_error env n).
  - intros f Hf. simpl. auto.
  - apply hoare_lift_modify. reflexivity.
Qed.

Lemma hoare_send_lines local ch lines :
  forall n cache,
    hoare (cache_holds cfg local cache) (send_lines cfg client env ch n lines)
      (fun r f =>
         r <> Returned /\
         cache_holds cfg local
           (cache ++ arrivals cfg client
                       (events_at env (sends_reached env n lines))) f).
Proof.
  induction lines as [| line rest IH]; intros n cache; simpl.
  - intros f Hf. simpl. rewrite app_nil_r. auto.
  - destruct (is_blank line); [apply IH |].
    rewrite events_at_cons, arrivals_app, app_assoc.
    eapply hoare_bind; [apply hoare_send | | |]; simpl.
    + intros []. destruct (send_error env n) as [e |].
      * intros f [Hr _]. discriminate.
      * eapply hoare_step; [| apply IH].
        intros f [_ Hf]. now apply hoare_logF.
    + intros e f [Hr Hf]. destruct (send_error env n); [| discriminate].
      rewrite app_nil_r. auto.
    + intros f [Hr Hf]. destruct (send_error env n); discriminate.
Qed.

Lemma hoare_deliver local cache id ch response :
  hoare (cache_holds cfg local cache)
    (deliver cfg client env id (Some ch) response)
    (fun r f =>
       r <> Returned /\
       cache_holds cfg local
         (cache ++ arrivals cfg client
                     (events_at env
                        (if send_message_line_by_line cfg
                         then sends_reached env 0 (split_lines response)
                         else [AtSend 0]))) f).
Proof.
  unfold deliver.
  destruct (send_message_line_by_line cfg); [apply hoare_send_lines |].
  unfold events_at. simpl. rewrite app_nil_r.
  eapply hoare_bind; [apply hoare_send | | |]; simpl.
  - intros []. destruct (send_error env 0) as [e |].
    + intros f [Hr _]. discriminate.
    + intros f [_ Hf]. destruct (hoare_logF _ _ DEBUG "Sent full response." f Hf) as [-> ?].
      auto.
  - intros e f [_ Hf]. auto.
  - intros f [Hr Hf]. destruct (send_error env 0); discriminate.
Qed.

Lemma hoare_await_cai_response local cache snapshot :
  hoare (cache_holds cfg local cache)
    (await_cai_response cfg client env snapshot)
    (fun r f =>
       r = match cai_response env snapshot with
           | inl e => Raised e
           | inr response => Normal response
           end /\
       cache_holds cfg local
         (cache ++ arrivals cfg client (interleaved env AtAI)) f).
Proof.
  unfold await_cai_response.
  eapply hoare_step; [apply hoare_lift_modify; reflexivity |].
  eapply hoare_step; [apply hoare_suspend |].
  intros f Hf. destruct (cai_response env snapshot); simpl; auto.
Qed.

Lemma hoare_enter_typing local cache ch :
  typing_error env = None ->
  hoare (cache_holds cfg local cache) (enter_typing cfg client env (Some ch))
    (fun r f =>
       r = Normal tt /\
       cache_holds cfg local
         (cache ++ arrivals cfg client (interleaved env AtTyping)) f).
Proof.
  intros Hty. unfold enter_typing. rewrite Hty.
  eapply hoare_step; [apply hoare_suspend |]. apply hoare_ret.
Qed.

Lemma hoare_read_json local cache :
  hoare (cache_holds cfg local cache) (lift (read_json (messages_cache cfg)))
    (fun r f => r = Normal cache /\ cache_holds cfg local cache f).
Proof.
  intros f [Hd Hf]. unfold lift, read_json, cache_holds. rewrite Hf. simpl. auto.
Qed.

Lemma hoare_set_cached_data local cache c :
  hoare (cache_holds cfg local cache) (set_cached_data c)
    (fun r f => r = Normal tt /\ cache_holds cfg (Some c) cache f).
Proof. intros f [Hd Hf]. unfold cache_holds. simpl. auto. Qed.

(** The optional removal of emojis from the response. *)
Lemma hoare_strip_emoji local cache response :
  hoare (cache_holds cfg local cache)
    (if remove_emojis_AI cfg
     then
       response <- call (remove_emoji env response) ;;
       logF DEBUG "AI response received (without emoji): %s" ;;;
       ret response
     else ret response)
    (fun r f =>
       r = match (if remove_emojis_AI cfg then remove_emoji env response
                  else inr response) with
           | inl e => Raised e
           | inr stripped => Normal stripped
           end /\
       cache_holds cfg local cache f).
Proof.
  destruct (remove_emojis_AI cfg); [| apply hoare_ret].
  destruct (remove_emoji env response) as [e | stripped]; simpl.
  - intros f Hf. simpl. auto.
  - intros f Hf. unfold bind. simpl. unfold cache_holds in *. simpl. auto.
Qed.

(** The body of the outer [try]: however it ends, [cached_data] holds the
    snapshot and the cache file holds the snapshot followed by what arrived
    at the suspension points that were passed. *)
Lemma hoare_dispatch_body id ch cache :
  typing_error env = None ->
  hoare (cache_holds cfg None cache)
    (dispatch_body cfg client env id (Some ch))
    (fun r f =>
       cache_holds cfg (Some (snapshot_of cfg client env cache))
         (snapshot_of cfg client env cache
          ++ arrived_during cfg client env (snapshot_of cfg client env cache))
         f).
Proof.
  intros Hty. unfold dispatch_body.
  eapply hoare_step; [now apply hoare_enter_typing |].
  eapply hoare_step; [apply hoare_read_json |].
  eapply hoare_step; [apply hoare_set_cached_data |].
  fold (snapshot_of cfg client env cache).
  generalize (snapshot_of cfg client env cache). intros snapshot.
  unfold arrived_during, awaited_after_snapshot.
  destruct snapshot as [| m l].
  - eapply hoare_step; [apply hoare_logF |].
    intros f Hf. exact Hf.
  - rewrite events_at_cons, arrivals_app, app_assoc.
    set (snapshot := m :: l).
    eapply hoare_bind; [apply hoare_await_cai_response | | |]; cbv beta.
    + intros response. apply hoare_pre_pure.
      destruct (cai_response env snapshot) as [e | response'];
        intros Hr; [discriminate |]. injection Hr as ->.
      eapply hoare_step; [apply hoare_logF |].
      eapply hoare_bind; [apply hoare_strip_emoji | | |]; cbv beta.
      * intros stripped. apply hoare_pre_pure.
        destruct (if remove_emojis_AI cfg then _ else _) as [e | stripped'];
          intros Hr; [discriminate |]. injection Hr as ->.
        eapply hoare_weaken; [apply hoare_deliver |].
        intros r f [_ Hf]. exact Hf.
      * intros e f [Hr Hf].
        destruct (if remove_emojis_AI cfg then _ else _); [| discriminate].
        simpl. rewrite app_nil_r. exact Hf.
      * intros f [Hr Hf].
        destruct (if remove_emojis_AI cfg then _ else _); discriminate.
    + intros e f [Hr Hf].
      destruct (cai_response env snapshot); [| discriminate].
      simpl. rewrite app_nil_r. exact Hf.
    + intros f [Hr Hf]. destruct (cai_response env snapshot); discriminate.
Qed.

(** The final block with the snapshot bound: the flag is cleared, the
    clock refreshed, and the cache file rewritten without the records of
    the snapshot. *)
Lemma hoare_reset_and_clean_up snapshot current :
  hoare (cache_holds cfg (Some snapshot) current)
    (reset_and_clean_up cfg env)
    (fun r f =>
       r = Normal tt /\
       concluded cfg env (remove_messages current snapshot) (world f)).
Proof.
  intros f [Hd Hf].
  unfold reset_and_clean_up, update_cache, try_except, bind, lift, modify,
    read_json, write_json, unprocessed, logF, log_, modify, concluded.
  simpl. rewrite Hf. simpl. rewrite Hd.
  destruct current; simpl; rewrite lookup_insert_eq; auto.
Qed.

(** The final block when [cached_data] was never bound: the comprehension
    fails on a non-empty cache, which is then left as it is. *)
Lemma hoare_reset_and_clean_up_unbound current :
  hoare (cache_holds cfg None current)
    (reset_and_clean_up cfg env)
    (fun r f => r = Normal tt /\ concluded cfg env current (world f)).
Proof.
  intros f [Hd Hf].
  unfold reset_and_clean_up, update_cache, try_except, bind, lift, modify,
    read_json, write_json, unprocessed, logF, log_, modify, concluded.
  simpl. rewrite Hf. simpl. rewrite Hd.
  destruct current; simpl; [rewrite lookup_insert_eq |]; auto.
Qed.

Lemma hoare_AI_send_message_frame id ch cache :
  test_internet env = true ->
  first_channel cfg = inr id ->
  get_channel client id = Some ch ->
  typing_error env = None ->
  hoare (cache_holds cfg None cache) (AI_send_message_frame cfg client env)
    (fun r f =>
       (forall e, r <> Raised e) /\
       concluded cfg env
         (remove_messages
            (snapshot_of cfg client env cache
             ++ arrived_during cfg client env (snapshot_of cfg client env cache))
            (snapshot_of cfg client env cache))
         (world f)).
Proof.
  intros Hnet Hid Hch Hty. unfold AI_send_message_frame.
  eapply hoare_step; [apply hoare_lift_modify; reflexivity |].
  rewrite Hid. eapply hoare_step; [apply hoare_ret |].
  cbv zeta. rewrite Hnet, Hch.
  eapply hoare_try_finally.
  - eapply hoare_try_except with
      (Q := fun r f => (forall e, r <> Raised e) /\ _ f);
      [now apply hoare_dispatch_body | | |]; cbv beta.
    + intros e. eapply hoare_weaken; [apply hoare_logF |].
      intros r f [-> Hf]. split; [discriminate | exact Hf].
    + intros a f Hf. split; [discriminate | exact Hf].
    + intros f Hf. split; [discriminate | exact Hf].
  - intros r. cbv beta. apply hoare_pre_pure. intros Hr.
    eapply hoare_weaken; [apply hoare_reset_and_clean_up |].
    intros r' f [-> Hf]. auto.
Qed.

(** A dispatch that finds the network and the channel, with a readable
    cache: it returns, and leaves the flag cleared, the clock refreshed and
    the cache file equal to the re-read cache minus the snapshot. *)
Lemma dispatch_outcome w id ch cache :
  test_internet env = true ->
  first_channel cfg = inr id ->
  get_channel client id = Some ch ->
  typing_error env = None ->
  files w !! messages_cache cfg = Some cache ->
  fst (AI_send_message cfg client env w) = Normal tt /\
  concluded cfg env
    (remove_messages
       (snapshot_of cfg client env cache
        ++ arrived_during cfg client env (snapshot_of cfg client env cache))
       (snapshot_of cfg client env cache))
    (snd (AI_send_message cfg client env w)).
Proof.
  intros Hnet Hid Hch Hty Hc. unfold AI_send_message.
  destruct (hoare_AI_send_message_frame id ch cache Hnet Hid Hch Hty
              {| world := w; cached_data := None |}) as [Hr Hf].
  { split; [reflexivity | exact Hc]. }
  destruct (AI_send_message_frame _ _ _ _) as [[[] | e |] f]; simpl in *;
    try (split; [reflexivity | exact Hf]).
  now destruct (Hr e).
Qed.

End Dispatch.

(** * What the code guarantees, and where it does not *)

(** ** Reconciliation *)

(** C8. Reconciliation is a no-op on disjoint inputs: when no entry of the
    current cache is a member of the snapshot, the computed remainder is the
    current cache unchanged, same entries in the same order. *)
Theorem reconciliation_disjoint_noop (current snapshot : list CachedMessage) :
  (forall x, x ∈ current -> x ∉ snapshot) ->
  remove_messages current snapshot = current.
Proof. apply remove_messages_all. Qed.

Lemma reconciliation_disjoint_noop_witness :
  remove_messages [m3; m1] [m2] = [m3; m1].
Proof.
  apply (reconciliation_disjoint_noop [m3; m1] [m2]).
  intros x Hx Hs.
  apply list_elem_of_singleton in Hs. subst x.
  revert Hx. apply (bool_decide_unpack _). vm_compute. reflexivity.
Defined.




(** ** The concluding step of a dispatch *)

(** C3. When the snapshot was read, whatever happens afterwards -- the AI
    call, the removal of emojis or any [send] may raise -- the dispatch
    returns with [awaiting_response] false and [last_message_time]
    refreshed, and the cache file holds the re-read cache minus the
    snapshot: the records of the re-read cache that are no member of the
    snapshot, all of them and in their order, and no record of the
    snapshot. *)
Theorem dispatch_concludes_whatever_fails
    (cfg : Config) (client : Client) (env : Env) (w : World)
    (id : option Z) (ch : Z) (cache : list CachedMessage) :
  test_internet env = true ->
  first_channel cfg = inr id ->
  get_channel client id = Some ch ->
  typing_error env = None ->
  files w !! messages_cache cfg = Some cache ->
  let snapshot := snapshot_of cfg client env cache in
  let current := snapshot ++ arrived_during cfg client env snapshot in
  let w' := snd (AI_send_message cfg client env w) in
  fst (AI_send_message cfg client env w) = Normal tt /\
  awaiting_response w' = false /\
  last_message_time w' = time_time env /\
  exists remainder,
    files w' !! messages_cache cfg = Some remainder /\
    remainder = filter (fun x => x ∉ snapshot) current /\
    (forall x, x ∈ remainder <-> x ∈ current /\ x ∉ snapshot) /\
    remainder `sublist_of` current /\
    (forall x, x ∈ snapshot -> x ∉ remainder).
Proof.
  intros Hnet Hid Hch Hty Hc snapshot current w'.
  destruct (dispatch_outcome cfg client env w id ch cache Hnet Hid Hch Hty Hc)
    as (Hr & Haw & Ht & Hf).
  fold snapshot current w' in Hf, Haw, Ht.
  repeat (split; [assumption |]).
  exists (remove_messages current snapshot).
  split; [exact Hf |]. split; [reflexivity |].
  split; [intros x; apply elem_of_remove_messages |].
  split; [apply remove_messages_sublist |].
  intros x Hx Hin. apply elem_of_remove_messages in Hin. tauto.
Qed.

(** The cache is [m1], [m3] arrives while the AI call is awaited, and the
    second [send] of the reply fails: the dispatch still ends with the flag
    cleared and the clock refreshed, and the cache holds [m3] alone.
    Without the arrival it is the example of the specification, and the
    cache ends empty. *)
Lemma dispatch_concludes_whatever_fails_witness :
  let cat := MessageEvent 5 (message_of 8 "cat" "good evening" None) in
  let w := world_with "messages_cache.json" [m1] in
  let after := fun evs =>
    snd (AI_send_message sample_config sample_client (sample_env evs true) w) in
  send_error (sample_env [cat] true) 1 = Some (ExternalError "HTTPException") /\
  (sent (after [cat]) = [(10%Z, "first line")] /\
   awaiting_response (after [cat]) = false /\
   last_message_time (after [cat]) = 20%Q /\
   files (after [cat]) !! "messages_cache.json" = Some [m3]) /\
  (awaiting_response (after []) = false /\
   last_message_time (after []) = 20%Q /\
   files (after []) !! "messages_cache.json" = Some []).
Proof.
  intros cat w after. split; [reflexivity |]. split.
  - destruct (dispatch_concludes_whatever_fails sample_config sample_client
                (sample_env [cat] true) w (Some 10%Z) 10%Z [m1]
                eq_refl eq_refl eq_refl eq_refl eq_refl)
      as (_ & Haw & Ht & remainder & Hf & Hr & _).
    split; [reflexivity |]. split; [exact Haw |]. split; [exact Ht |].
    unfold after. etransitivity; [exact Hf |]. rewrite Hr. reflexivity.
  - destruct (dispatch_concludes_whatever_fails sample_config sample_client
                (sample_env [] true) w (Some 10%Z) 10%Z [m1]
                eq_refl eq_refl eq_refl eq_refl eq_refl)
      as (_ & Haw & Ht & remainder & Hf & Hr & _).
    split; [exact Haw |]. split; [exact Ht |].
    unfold after. etransitivity; [exact Hf |]. rewrite Hr. reflexivity.
Defined.

(** A dispatch whose snapshot is empty, written out. *)
Lemma empty_snapshot_run
    (cfg : Config) (client : Client) (env : Env) (w : World)
    (id : option Z) (ch : Z) (cache : list CachedMessage) :
  test_internet env = true ->
  first_channel cfg = inr id ->
  get_channel client id = Some ch ->
  typing_error env = None ->
  files w !! messages_cache cfg = Some cache ->
  snapshot_of cfg client env cache = [] ->
  let entered :=
    run_events cfg client (interleaved env AtTyping)
      (set_awaiting_response true w) in
  AI_send_message cfg client env w
  = (Normal tt,
     add_log DEBUG "Cache updated after sending AI message."
       (set_files (<[messages_cache cfg := []]> (files entered))
          (set_last_message_time (time_time env)
             (set_awaiting_response false
                (add_log INFO "No cached messages found." entered))))).
Proof.
  intros Hnet Hid Hch Hty Hc Hs entered.
  assert (Hf : files entered !! messages_cache cfg = Some []).
  { unfold entered. erewrite run_events_cache by exact Hc. now f_equal. }
  unfold AI_send_message, AI_send_message_frame.
  rewrite bind_eq. simpl. rewrite Hid. simpl.
  rewrite bind_eq. simpl. rewrite Hnet, Hch.
  unfold try_finally, try_except, dispatch_body, enter_typing.
  rewrite Hty. rewrite !bind_eq. simpl. fold entered.
  rewrite bind_eq. unfold lift at 1, read_json. simpl. rewrite Hf. simpl.
  unfold reset_and_clean_up, update_cache, try_except, bind, lift, modify,
    read_json, write_json, unprocessed, logF, log_, modify.
  simpl. rewrite Hf. reflexivity.
Qed.

(** C7, as stated, fails: a dispatch that finds the cache empty is not
    without effect on [last_message_time].  The [return] is inside the
    [try], so the final block runs and refreshes the clock. *)
Lemma empty_dispatch_refreshes_clock :
  let env := sample_env [] false in
  let w := world_with "messages_cache.json" [] in
  let w' := snd (AI_send_message sample_config sample_client env w) in
  snapshot_of sample_config sample_client env [] = [] /\
  last_message_time w = 0%Q /\
  last_message_time w' = 20%Q /\
  last_message_time w' <> last_message_time w.
Proof. vm_compute. repeat split; discriminate. Qed.

(** C7, amended.  A dispatch whose snapshot is empty returns without calling
    the AI client and without sending anything, leaves every file with the
    content it had, and leaves [awaiting_response] false; it does refresh
    [last_message_time]. *)
Theorem empty_snapshot_dispatch
    (cfg : Config) (client : Client) (env : Env) (w : World)
    (id : option Z) (ch : Z) (cache : list CachedMessage) :
  test_internet env = true ->
  first_channel cfg = inr id ->
  get_channel client id = Some ch ->
  typing_error env = None ->
  files w !! messages_cache cfg = Some cache ->
  snapshot_of cfg client env cache = [] ->
  let w' := snd (AI_send_message cfg client env w) in
  fst (AI_send_message cfg client env w) = Normal tt /\
  files w' = files w /\
  ai_requests w' = ai_requests w /\
  sent w' = sent w /\
  awaiting_response w' = false /\
  last_message_time w' = time_time env.
Proof.
  intros Hnet Hid Hch Hty Hc Hs w'. subst w'.
  rewrite (empty_snapshot_run cfg client env w id ch cache) by assumption.
  simpl.
  set (entered := run_events cfg client (interleaved env AtTyping)
                    (set_awaiting_response true w)).
  destruct (run_events_same_effects cfg client (interleaved env AtTyping)
              (set_awaiting_response true w)) as (_ & Hsent & Hai).
  fold entered in Hsent, Hai. simpl in Hsent, Hai.
  split; [reflexivity |]. split; [| auto].
  apply app_eq_nil in Hs. destruct Hs as [-> Harr].
  apply map_eq. intros path.
  destruct (decide (path = messages_cache cfg)) as [-> | Hne].
  - now rewrite lookup_insert_eq, Hc.
  - rewrite lookup_insert_ne by congruence.
    apply (run_events_same_file cfg client path (interleaved env AtTyping)
             (set_awaiting_response true w) Hne).
Qed.

Lemma empty_snapshot_dispatch_witness :
  let env := sample_env [] false in
  let w := world_with "messages_cache.json" [] in
  let w' := snd (AI_send_message sample_config sample_client env w) in
  fst (AI_send_message sample_config sample_client env w) = Normal tt /\
  files w' = files w /\
  ai_requests w' = ai_requests w /\
  sent w' = sent w /\
  awaiting_response w' = false /\
  last_message_time w' = 20%Q.
Proof.
  intros env w.
  apply (empty_snapshot_dispatch sample_config sample_client env w
           (Some 10%Z) 10%Z [] eq_refl eq_refl eq_refl eq_refl eq_refl eq_refl).
Defined.

(** ** The destination channel *)

(** C5, on the code.  When [client.get_channel] answers [None], entering
    [response_channel.typing()] raises before the snapshot is read.  The
    dispatch returns with the flag cleared and the clock refreshed, but the
    failure is logged at severity [ERROR] and nothing is logged at
    [CRITICAL]; the AI client is never called, so no reply is generated; and
    no file changes: over a non-empty cache the final block fails on the
    unbound [cached_data], and the cache keeps all its records. *)
Theorem unresolved_channel_dispatch
    (cfg : Config) (client : Client) (env : Env) (w : World)
    (id : option Z) (cache : list CachedMessage) :
  test_internet env = true ->
  first_channel cfg = inr id ->
  get_channel client id = None ->
  files w !! messages_cache cfg = Some cache ->
  let w' := snd (AI_send_message cfg client env w) in
  fst (AI_send_message cfg client env w) = Normal tt /\
  awaiting_response w' = false /\
  last_message_time w' = time_time env /\
  files w' = files w /\
  ai_requests w' = ai_requests w /\
  sent w' = sent w /\
  log w' = log w ++ [(ERROR, "An error occurred while sending AI message: %s");
                     match cache with
                     | [] => (DEBUG, "Cache updated after sending AI message.")
                     | _ :: _ => (ERROR, "Error updating message cache: %s")
                     end].
Proof.
  intros Hnet Hid Hch Hc w'. subst w'.
  unfold AI_send_message, AI_send_message_frame.
  rewrite bind_eq. simpl. rewrite Hid. simpl.
  rewrite bind_eq. simpl. rewrite Hnet, Hch.
  unfold try_finally, try_except, dispatch_body, enter_typing.
  rewrite !bind_eq. simpl.
  unfold reset_and_clean_up, update_cache, try_except, bind, lift, modify,
    read_json, write_json, unprocessed, logF, log_, modify.
  simpl. rewrite Hc. simpl.
  destruct cache as [| m cache]; simpl; repeat split;
    try (now rewrite <- app_assoc).
  now apply insert_id.
Qed.

(** The cache holds [m1] and the channel is unknown to the client: the
    dispatch logs two errors, asks nothing of the AI client, and the cache
    still holds [m1]. *)
Lemma unresolved_channel_dispatch_witness :
  let env := sample_env [] false in
  let w := world_with "messages_cache.json" [m1] in
  let w' := snd (AI_send_message sample_config lost_client env w) in
  files w' !! "messages_cache.json" = Some [m1] /\
  (fst (AI_send_message sample_config lost_client env w) = Normal tt /\
   awaiting_response w' = false /\
   last_message_time w' = 20%Q /\
   files w' = files w /\
   ai_requests w' = [] /\
   sent w' = [] /\
   log w' = [(ERROR, "An error occurred while sending AI message: %s");
             (ERROR, "Error updating message cache: %s")]).
Proof.
  intros env w w'. split; [reflexivity |].
  apply (unresolved_channel_dispatch sample_config lost_client env w
           (Some 10%Z) [m1] eq_refl eq_refl eq_refl eq_refl).
Defined.

(** C10, as stated, fails for an empty list of watched channels: the
    subscript raises [IndexError] instead of giving [None], before the lock
    is taken, and the dispatch ends by that exception with
    [awaiting_response] left true. *)
Lemma empty_channel_list_raises :
  let r := AI_send_message no_channel_config sample_client (sample_env [] false)
             (world_with "messages_cache.json" [m1]) in
  channel_bot_chat no_channel_config = Some [] /\
  first_channel no_channel_config = inl IndexError /\
  first_channel no_channel_config <> inr None /\
  fst r = Raised IndexError /\
  awaiting_response (snd r) = true /\
  sent (snd r) = [].
Proof. vm_compute. repeat split; discriminate. Qed.

Ltac nothing_sent :=
  exists []; simpl; rewrite app_nil_r; split; [reflexivity |];
  intros ? Hx; now apply elem_of_nil in Hx.

(** C10, amended.  The destination of a dispatch is resolved from the first
    element of the configured list of watched channels, and from [None]
    when the configuration has no such list; whatever the cache holds,
    every message that the dispatch sends goes to the channel resolved
    from it. *)
Theorem destination_is_first_channel
    (cfg : Config) (client : Client) (env : Env) (w : World) :
  (forall c rest, channel_bot_chat cfg = Some (c :: rest) ->
                  first_channel cfg = inr (Some c)) /\
  (channel_bot_chat cfg = None -> first_channel cfg = inr None) /\
  (forall id, first_channel cfg = inr id ->
              sent_only_to (get_channel client id) w
                (snd (AI_send_message cfg client env w))).
Proof.
  split; [| split].
  - intros c rest H. unfold first_channel. now rewrite H.
  - intros H. unfold first_channel. now rewrite H.
  - intros id Hid. apply keeps_AI_send_message.
    + intros w0. nothing_sent.
    + intros a b c (n1 & H1 & F1) (n2 & H2 & F2). exists (n1 ++ n2).
      rewrite H2, H1, app_assoc. split; [reflexivity |].
      intros x Hx. apply elem_of_app in Hx. destruct Hx; auto.
    + intros b w0. nothing_sent.
    + intros t w0. nothing_sent.
    + intros l s w0. nothing_sent.
    + intros c w0. nothing_sent.
    + intros c w0. nothing_sent.
    + intros id' ch text w0 Hid' Hch. exists [(ch, text)]. simpl.
      split; [reflexivity |].
      intros x Hx. apply list_elem_of_singleton in Hx. subst x. simpl.
      congruence.
Qed.

(** Three channels are watched; a message arrives in channel 20 and is
    cached; the reply, in two lines, goes to channel 30, the first of the
    list. *)
Lemma destination_is_first_channel_witness :
  let cfg := three_channel_config in
  let msg := in_channel 20 (message_of 7 "ann" "hello" None) in
  let w := snd (read_channel_messages cfg sample_client 1 msg
                  (world_with "messages_cache.json" [])) in
  let w' := snd (AI_send_message cfg sample_client (sample_env [] false) w) in
  files w !! "messages_cache.json" = Some [m1] /\
  first_channel cfg = inr (Some 30%Z) /\
  sent_only_to (Some 30%Z) w w' /\
  sent w' = [(30%Z, "first line"); (30%Z, "second line")].
Proof.
  intros cfg msg w w'.
  destruct (destination_is_first_channel cfg sample_client
              (sample_env [] false) w) as (H1 & _ & H3).
  split; [reflexivity |].
  split; [exact (H1 30%Z [10%Z; 20%Z] eq_refl) |].
  split; [exact (H3 (Some 30%Z) eq_refl) | reflexivity].
Defined.

(** ** The collector and a reply whose reference cannot be resolved *)

(** C4, on the code.  For an accepted message that is a reply, when
    [fetch_message] raises, [capture_message] is never reached: the handler
    logs the failure and refreshes [last_message_time], and no file is
    written, so the message is not in the cache. *)
Theorem unfetchable_reference_drops_message
    (cfg : Config) (client : Client) (now : Q) (msg : DiscordMessage)
    (w : World) (message_id : Z) (e : Exn) :
  accepts cfg client msg = true ->
  reference msg = Some message_id ->
  fetch_message client (channel_id msg) message_id = inl e ->
  let w' := snd (read_channel_messages cfg client now msg w) in
  fst (read_channel_messages cfg client now msg w) = Normal tt /\
  files w' = files w /\
  last_message_time w' = now /\
  log w' = log w ++ [(DEBUG, "Reading message from channel: %s");
                     (ERROR, "Error fetching reference message: %s")].
Proof.
  intros Hacc Href Hfetch w'. subst w'.
  unfold read_channel_messages, try_except, bind, log_, modify, call, raise.
  rewrite Hacc. simpl. rewrite Href, Hfetch. simpl.
  repeat split. now rewrite <- app_assoc.
Qed.

(** The cache holds [m1]; cat replies "good evening" to a message that can
    no longer be fetched; the cache still holds [m1] alone. *)
Lemma unfetchable_reference_drops_message_witness :
  let msg := message_of 7 "cat" "good evening" (Some 99%Z) in
  let w := world_with "messages_cache.json" [m1] in
  let w' := snd (read_channel_messages sample_config sample_client 5 msg w) in
  files w' !! "messages_cache.json" = Some [m1] /\
  (fst (read_channel_messages sample_config sample_client 5 msg w) = Normal tt /\
   files w' = files w /\
   last_message_time w' = 5%Q /\
   log w' = [(DEBUG, "Reading message from channel: %s");
             (ERROR, "Error fetching reference message: %s")]).
Proof.
  intros msg w w'. split; [reflexivity |].
  apply (unfetchable_reference_drops_message sample_config sample_client 5 msg
           w 99%Z (ExternalError "NotFound") eq_refl eq_refl eq_refl).
Defined.

(** The sibling branch: an accepted message that is not a reply is appended
    to the cache. *)
Lemma plain_message_is_stored
    (cfg : Config) (client : Client) (now : Q) (msg : DiscordMessage)
    (w : World) (cache : list CachedMessage) :
  accepts cfg client msg = true ->
  reference msg = None ->
  files w !! messages_cache cfg = Some cache ->
  files (snd (read_channel_messages cfg client now msg w)) !! messages_cache cfg
  = Some (cache ++ [{| message_info :=
                         {| username := handle (author msg);
                            name := global_name_or_name (author msg);
                            message := content msg |};
                       reply_message := None |}]).
Proof.
  intros Hacc Href Hc.
  rewrite (read_channel_messages_cache cfg client now msg w cache Hc).
  unfold captured. now rewrite Hacc, Href.
Qed.

(** ** The inactivity monitor *)

Section Monitor.

Variable cfg : Config.
Variable client : Client.
Variable env : Env.

Lemma AI_send_message_log_extended w :
  log_extended w (snd (AI_send_message cfg client env w)).
Proof.
  apply keeps_AI_send_message; try apply log_extended_trans;
    intros; unfold log_extended; simpl; try reflexivity.
  now apply prefix_app_r.
Qed.

Lemma AI_send_message_same_file path w :
  path <> messages_cache cfg ->
  same_file path w (snd (AI_send_message cfg client env w)).
Proof.
  intros Hp.
  apply keeps_AI_send_message; intros; unfold same_file in *; simpl;
    try congruence.
  now apply lookup_insert_ne.
Qed.

Lemma read_channel_messages_same_file path now msg w :
  path <> messages_cache cfg ->
  same_file path w (snd (read_channel_messages cfg client now msg w)).
Proof.
  intros Hp.
  apply keeps_read_channel_messages; intros; unfold same_file in *; simpl;
    try congruence.
  now apply lookup_insert_ne.
Qed.

(** A turn of the loop, case by case. *)
Lemma monitor_tick_cases now w :
  monitor_tick cfg client now env w
  = if awaiting_response w then (Normal tt, w)
    else match files w !! "messages_cache.json" with
         | None =>
             (Normal tt, add_log ERROR "Error in monitor_inactivity: %s" w)
         | Some c =>
             if trigger_condition now (last_message_time w) (length c)
             then dispatching_tick cfg client env w
             else (Normal tt, w)
         end.
Proof.
  unfold monitor_tick. rewrite bind_eq. unfold gets. cbv beta iota.
  destruct (awaiting_response w); simpl; [reflexivity |].
  unfold try_except at 1. rewrite bind_eq. unfold json_load.
  destruct (files w !! "messages_cache.json") as [c |]; [| reflexivity].
  rewrite bind_eq. cbv beta iota.
  destruct (trigger_condition _ _ _); reflexivity.
Qed.

(** The first line logged by a turn that calls [AI_send_message]. *)
Lemma dispatching_tick_log w :
  log (snd (dispatching_tick cfg client env w)) !! length (log w)
  = Some trigger_line.
Proof.
  assert (H : log_extended (add_log (fst trigger_line) (snd trigger_line) w)
                (snd (dispatching_tick cfg client env w))).
  { unfold dispatching_tick, try_except. rewrite bind_eq. simpl.
    pose proof (AI_send_message_log_extended
                  (add_log DEBUG (snd trigger_line) w)) as He.
    destruct (AI_send_message cfg client env _) as [[[] | e |] w']; simpl in *;
      try exact He.
    eapply log_extended_trans; [exact He |].
    unfold log_extended. simpl. now apply prefix_app_r. }
  eapply prefix_lookup_Some; [| exact H].
  simpl. now rewrite list_lookup_middle.
Qed.

(** What decides a turn: the flag, the file named ["messages_cache.json"],
    and the condition on the clock and on the number of records in that
    file. *)
Lemma tick_dispatches_spec now w :
  tick_dispatches cfg client now env w <->
  awaiting_response w = false /\
  exists c, files w !! "messages_cache.json" = Some c /\
            trigger_condition now (last_message_time w) (length c) = true.
Proof.
  unfold tick_dispatches. rewrite monitor_tick_cases.
  pose proof (dispatching_tick_log w) as Hlog.
  destruct (awaiting_response w).
  - split; [| intros [? _]; discriminate].
    intros H. rewrite <- H in Hlog. simpl in Hlog.
    rewrite lookup_ge_None_2 in Hlog by lia. discriminate.
  - destruct (files w !! "messages_cache.json") as [c |].
    + destruct (trigger_condition now (last_message_time w) (length c)) eqn:Ht.
      * split; [intros _; eauto | reflexivity].
      * split.
        -- intros H. rewrite <- H in Hlog. simpl in Hlog.
           rewrite lookup_ge_None_2 in Hlog by lia. discriminate.
        -- intros (_ & c' & Hc' & Ht'). congruence.
    + split; [| intros (_ & c' & Hc' & _); discriminate].
      intros H. rewrite <- H in Hlog. simpl in Hlog.
      rewrite list_lookup_middle in Hlog by reflexivity. discriminate.
Qed.

Lemma trigger_condition_true now last n :
  trigger_condition now last n = true <->
  1 <= n /\ ((7 <= now - last)%Q \/ 5 <= n).
Proof.
  unfold trigger_condition.
  rewrite andb_true_iff, orb_true_iff, Qle_bool_iff, !Nat.leb_le. tauto.
Qed.

(** No exception escapes a turn of the loop, so the loop goes on. *)
Lemma monitor_tick_never_raises now w :
  fst (monitor_tick cfg client now env w) = Normal tt.
Proof.
  unfold monitor_tick. rewrite bind_eq. unfold gets. cbv beta iota.
  destruct (awaiting_response w); simpl; [reflexivity |].
  unfold try_except. rewrite bind_eq. unfold json_load.
  destruct (files w !! "messages_cache.json"); [| reflexivity].
  rewrite bind_eq. cbv beta iota.
  destruct (trigger_condition _ _ _); [| reflexivity].
  unfold trigger_dispatch. rewrite bind_eq. simpl.
  unfold AI_send_message.
  destruct (AI_send_message_frame _ _ _ _) as [[[] | e |] f]; reflexivity.
Qed.

End Monitor.

Lemma monitor_inactivity_never_raises cfg client turns w :
  fst (monitor_inactivity cfg client turns w) = Normal tt.
Proof.
  revert w. induction turns as [| [[evs now] env] rest IH]; intros w; simpl;
    [reflexivity |].
  rewrite bind_eq. unfold modify. cbv beta iota. rewrite bind_eq.
  pose proof (monitor_tick_never_raises cfg client env now
                (run_events cfg client evs w)) as H.
  destruct (monitor_tick _ _ _ _ _) as [r w']. simpl in H. subst r.
  apply IH.
Qed.

(** Modelled rule and code agree on [trigger_condition]. *)
Lemma rule_holds_iff now last n :
  trigger_condition now last n = true <-> rule_holds n (now - last).
Proof. apply trigger_condition_true. Qed.

(** C2 fails where the cache is configured under another name: the monitor
    counts the records of the file named ["messages_cache.json"] and not
    those of the cache.  Let the cache hold enough records, or have waited
    long enough, for the rule to hold.  With the other file empty, a turn
    taken while [awaiting_response] is false leaves everything as it is:
    nothing is logged, asked or sent and no file is written.  With the
    other file missing, the turn logs an error and that is all.  Either
    way [AI_send_message] is not called. *)
Theorem monitor_counts_the_literal_file
    (cfg : Config) (client : Client) (env : Env) (now : Q) (w : World)
    (cache : list CachedMessage) :
  awaiting_response w = false ->
  files w !! messages_cache cfg = Some cache ->
  rule_holds (length cache) (now - last_message_time w) ->
  (files w !! "messages_cache.json" = Some [] ->
   monitor_tick cfg client now env w = (Normal tt, w)) /\
  (files w !! "messages_cache.json" = None ->
   monitor_tick cfg client now env w
   = (Normal tt, add_log ERROR "Error in monitor_inactivity: %s" w)) /\
  (files w !! "messages_cache.json" = Some [] \/
   files w !! "messages_cache.json" = None ->
   ~ tick_dispatches cfg client now env w).
Proof.
  intros Haw Hcache Hrule.
  split; [| split].
  - intros Hlit. rewrite monitor_tick_cases, Haw, Hlit. simpl.
    unfold trigger_condition. simpl. now rewrite andb_false_r.
  - intros Hlit. now rewrite monitor_tick_cases, Haw, Hlit.
  - intros Hlit. rewrite tick_dispatches_spec.
    intros (_ & c & Hc & Ht). destruct Hlit as [Hlit | Hlit];
      rewrite Hlit in Hc; [| discriminate].
    injection Hc as <-. unfold trigger_condition in Ht. simpl in Ht.
    rewrite andb_false_r in Ht. discriminate.
Qed.

(** The cache is configured as ["cache/pending.json"] and holds five
    records, the last activity is 100 units old: the turn does nothing. *)
Lemma monitor_counts_the_literal_file_witness :
  let w := two_cache_world in
  files w !! "cache/pending.json" = Some [m1; m2; m3; m2; m1] /\
  rule_holds 5 (100 - 0) /\
  monitor_tick moved_cache_config sample_client 100 (sample_env [] false) w
  = (Normal tt, w).
Proof.
  intros w.
  assert (Hrule : rule_holds 5 (100 - 0)).
  { split; [lia |]. right. lia. }
  split; [reflexivity |]. split; [exact Hrule |].
  exact (proj1 (monitor_counts_the_literal_file moved_cache_config
                  sample_client (sample_env [] false) 100 w
                  [m1; m2; m3; m2; m1] eq_refl eq_refl Hrule) eq_refl).
Defined.

(** ** Mutual exclusion of dispatches *)

(** The suspension points of a dispatch come in the order that the calls
    of the interleaving model follow: after the typing indicator the AI
    call, then the [send]s one after the other. *)
Lemma sends_reached_follows env lines n p :
  next_point p (AtSend n) -> follows p (sends_reached env n lines).
Proof.
  revert n p. induction lines as [| line rest IH]; intros n p Hp; simpl;
    [exact I |].
  destruct (is_blank line); [now apply IH |].
  split; [exact Hp |].
  destruct (send_error env n); [exact I |]. apply IH. constructor.
Qed.

Lemma awaited_after_snapshot_follows cfg env snapshot :
  follows AtTyping (awaited_after_snapshot cfg env snapshot).
Proof.
  unfold awaited_after_snapshot. destruct snapshot; [exact I |].
  split; [constructor |].
  destruct (cai_response env _); [exact I |].
  destruct (if remove_emojis_AI cfg then _ else _); [exact I |].
  destruct (send_message_line_by_line cfg).
  - apply sends_reached_follows. constructor.
  - split; [constructor | exact I].
Qed.

Lemma holders_insert (l : list Task) (i : nat) (t t' : Task) :
  l !! i = Some t ->
  length (filter (fun t => in_critical_section t = true) (<[i := t']> l))
  + (if in_critical_section t then 1 else 0)
  = length (filter (fun t => in_critical_section t = true) l)
    + (if in_critical_section t' then 1 else 0).
Proof.
  revert i. induction l as [| x l IH]; intros i Hi; [discriminate |].
  destruct i as [| i]; simpl in *.
  - injection Hi as ->. rewrite !filter_cons.
    destruct (decide (in_critical_section t' = true)) as [-> | Ht'],
             (decide (in_critical_section t = true)) as [-> | Ht]; simpl;
      try (apply not_true_is_false in Ht'; rewrite Ht');
      try (apply not_true_is_false in Ht; rewrite Ht); lia.
  - specialize (IH i Hi). rewrite !filter_cons.
    destruct (decide (in_critical_section x = true)); simpl; lia.
Qed.

Lemma lock_counts_init n : lock_counts (init n).
Proof.
  unfold lock_counts, holders, init. simpl.
  induction n as [| n IH]; simpl; [reflexivity |].
  rewrite filter_cons. simpl. exact IH.
Qed.

Lemma lock_counts_step s s' : step s s' -> lock_counts s -> lock_counts s'.
Proof.
  intros Hstep. destruct Hstep as [s i t l' t' Hi Hr].
  unfold lock_counts, holders. simpl. intros Hinv.
  pose proof (holders_insert (tasks s) i t t' Hi) as Hc.
  destruct Hr; simpl in *; try destruct l; simpl in *; lia.
Qed.

Lemma lock_counts_reachable n s : rtc step (init n) s -> lock_counts s.
Proof.
  revert s. apply rtc_ind_r; [apply lock_counts_init |].
  intros y z _ Hstep Hy. now apply (lock_counts_step y z).
Qed.

(** C6. Whatever the number of calls made at once and however the event
    loop interleaves them, at most one call is in the critical section. *)
Theorem dispatch_mutual_exclusion (n : nat) (s : System) :
  rtc step (init n) s -> holders s <= 1.
Proof.
  intros H. apply lock_counts_reachable in H. unfold lock_counts in H.
  rewrite H. destruct (locked s); lia.
Qed.

(** Three calls: the first is inside the lock waiting for the AI client,
    the second waits for the lock, the third has not run yet. *)
Lemma dispatch_mutual_exclusion_witness :
  holders {| locked := true; tasks := [Inside AtAI; Acquiring; Called] |} <= 1.
Proof.
  apply (dispatch_mutual_exclusion 3).
  eapply rtc_l.
  { apply (step_resume (init 3) 0 Called true (Inside AtTyping));
      [reflexivity | apply resume_enter]. }
  eapply rtc_l.
  { apply (step_resume _ 1 Called true Acquiring);
      [reflexivity | apply resume_wait]. }
  eapply rtc_l.
  { apply (step_resume _ 0 (Inside AtTyping) true (Inside AtAI));
      [reflexivity | apply resume_next, next_ai]. }
  apply rtc_refl.
Defined.

(** * Further properties of [AI_utils.py] *)

(** ** What the collector ignores and what it records *)

Lemma is_comment_hash rest : is_comment ("#" +:+ rest) = true.
Proof. destruct rest; reflexivity. Qed.

Lemma is_comment_slashes rest : is_comment ("//" +:+ rest) = true.
Proof. destruct rest; reflexivity. Qed.

(** A message from a channel that is not watched, from the bot itself, or
    whose text starts with ["#"] or ["//"], leaves the bot and the files
    exactly as they were: nothing is cached, nothing is logged, and the
    idle clock is not refreshed. *)
Theorem ignored_message_changes_nothing
    (cfg : Config) (client : Client) (now : Q) (msg : DiscordMessage)
    (w : World) :
  channel_id msg ∉ watched_channels cfg \/
  user_id (author msg) = bot_user_id client \/
  (exists rest, content msg = "#" +:+ rest \/ content msg = "//" +:+ rest) ->
  read_channel_messages cfg client now msg w = (Normal tt, w).
Proof.
  intros H.
  assert (Hacc : accepts cfg client msg = false).
  { unfold accepts. destruct H as [H | [H | (rest & [H | H])]].
    - rewrite bool_decide_eq_false_2 by exact H. reflexivity.
    - rewrite (bool_decide_eq_false_2 (user_id (author msg) ≠ bot_user_id client))
        by (intros Hne; now apply Hne).
      now rewrite andb_false_r.
    - rewrite H, is_comment_hash. now rewrite andb_false_r.
    - rewrite H, is_comment_slashes. now rewrite andb_false_r. }
  unfold read_channel_messages, try_except. now rewrite Hacc.
Qed.

Lemma ignored_message_changes_nothing_witness :
  let w := world_with "messages_cache.json" [m1] in
  read_channel_messages sample_config sample_client 5
    (message_of 7 "cat" "// not for the bot" None) w = (Normal tt, w).
Proof.
  intros w. apply ignored_message_changes_nothing.
  right. right. exists " not for the bot". right. reflexivity.
Defined.

(** An accepted message is appended to the cache as one record: the
    author's handle, the display name ([global_name], or [name] when that
    is missing or empty) and the text, with the same three fields of the
    referenced message when the message is a reply that could be fetched.
    The idle clock is refreshed; nothing else changes. *)
Theorem accepted_message_is_recorded
    (cfg : Config) (client : Client) (now : Q) (msg : DiscordMessage)
    (w : World) (cache : list CachedMessage) (reply : option Sender) :
  accepts cfg client msg = true ->
  files w !! messages_cache cfg = Some cache ->
  match reference msg with
  | None => reply = None
  | Some message_id =>
      exists u text,
        fetch_message client (channel_id msg) message_id = inr (u, text) /\
        reply = Some {| username := handle u;
                        name := global_name_or_name u;
                        message := text |}
  end ->
  let record :=
    {| message_info := {| username := handle (author msg);
                          name := global_name_or_name (author msg);
                          message := content msg |};
       reply_message := reply |} in
  let w' := snd (read_channel_messages cfg client now msg w) in
  fst (read_channel_messages cfg client now msg w) = Normal tt /\
  files w' = <[messages_cache cfg := cache ++ [record]]> (files w) /\
  last_message_time w' = now /\
  same_effects w w'.
Proof.
  intros Hacc Hc Href record w'. subst record w'.
  unfold read_channel_messages, try_except, bind, capture_message, bind,
    read_json, write_json, log_, modify, call, raise, ret, same_effects.
  rewrite Hacc. simpl.
  destruct (reference msg) as [message_id |].
  - destruct Href as (u & text & Hfetch & ->). rewrite Hfetch. simpl.
    rewrite Hc. simpl. repeat split.
  - subst reply. simpl. rewrite Hc. simpl. repeat split.
Qed.

(** Ann, whose [global_name] is empty, writes "hello" in the watched
    channel: the record carries her [name]. *)
Lemma accepted_message_is_recorded_witness :
  let ann := {| user_id := 7; handle := "ann#1"; global_name := Some "";
                user_name := "ann" |} in
  let msg := {| channel_id := 10; author := ann; content := "hello";
                reference := None |} in
  let w := world_with "messages_cache.json" [m2] in
  let w' := snd (read_channel_messages sample_config sample_client 5 msg w) in
  files w' !! "messages_cache.json"
  = Some [m2; {| message_info := {| username := "ann#1"; name := "ann";
                                    message := "hello" |};
                 reply_message := None |}].
Proof.
  intros ann msg w w'.
  destruct (accepted_message_is_recorded sample_config sample_client 5 msg w
              [m2] None eq_refl eq_refl eq_refl) as (_ & Hf & _).
  fold w' in Hf. rewrite Hf. reflexivity.
Defined.

(** Without a reply among them, the records that the handlers append are
    those of the accepted messages. *)
Lemma arrivals_without_replies cfg client evs :
  Forall never_awaits evs ->
  arrivals cfg client evs = accepted_records cfg client evs.
Proof.
  induction 1 as [| ev evs Hev _ IH]; [reflexivity |].
  destruct ev as [t msg | t channel user]; [| exact IH].
  simpl in Hev.
  change (match captured cfg client msg with
          | Some record => record :: arrivals cfg client evs
          | None => arrivals cfg client evs
          end
          = match (if accepts cfg client msg then Some (plain_record msg)
                   else None) with
            | Some record => record :: accepted_records cfg client evs
            | None => accepted_records cfg client evs
            end).
  unfold captured. rewrite Hev, IH. reflexivity.
Qed.

(** Calls of [time_typing] and calls of [read_channel_messages] for
    messages that are not replies never await, so they run one after the
    other.  After any sequence of them the cache is the former cache
    followed by one record for each accepted message, in the order of the
    calls; no other file, no flag and no output is touched. *)
Theorem events_append_in_arrival_order
    (cfg : Config) (client : Client) (evs : list Event) (w : World)
    (cache : list CachedMessage) :
  Forall never_awaits evs ->
  files w !! messages_cache cfg = Some cache ->
  let w' := run_events cfg client evs w in
  files w' !! messages_cache cfg
  = Some (cache ++ accepted_records cfg client evs) /\
  (forall path, path <> messages_cache cfg ->
                files w' !! path = files w !! path) /\
  awaiting_response w' = awaiting_response w /\
  sent w' = sent w /\
  ai_requests w' = ai_requests w.
Proof.
  intros Hevs Hc w'.
  split.
  { rewrite <- arrivals_without_replies by exact Hevs.
    now apply run_events_cache. }
  split; [intros path Hp; now apply run_events_same_file |].
  apply run_events_same_effects.
Qed.

(** Ann writes, the bot's own message and a comment are ignored, cat
    writes: the cache gains ann's record, then cat's. *)
Lemma events_append_in_arrival_order_witness :
  let evs := [MessageEvent 1 (message_of 7 "ann" "hello" None);
              MessageEvent 2 (message_of 1 "bot" "hi all" None);
              TypingEvent 3 10 8;
              MessageEvent 4 (message_of 8 "cat" "# aside" None);
              MessageEvent 5 (message_of 8 "cat" "good evening" None)] in
  let w := world_with "messages_cache.json" [m2] in
  files (run_events sample_config sample_client evs w) !! "messages_cache.json"
  = Some [m2; m1; m3].
Proof.
  intros evs w.
  refine (proj1 (events_append_in_arrival_order sample_config sample_client
                   evs w [m2] _ eq_refl)).
  repeat constructor.
Defined.

(** ** Typing and the idle clock *)

(** Someone other than the bot typing in a watched channel refreshes the
    idle clock and touches no file; a turn of the monitor taken less than
    seven units later, with fewer than five records in the file that the
    monitor reads, does not call [AI_send_message] and leaves everything as
    it is, however long ago the last message was. *)
Theorem typing_defers_dispatch
    (cfg : Config) (client : Client) (env : Env) (t now : Q)
    (channel user : Z) (w : World) (c : list CachedMessage) :
  channel ∈ watched_channels cfg ->
  user <> bot_user_id client ->
  awaiting_response w = false ->
  files w !! "messages_cache.json" = Some c ->
  length c < 5 ->
  (now - t < 7)%Q ->
  let w' := snd (time_typing cfg client t channel user w) in
  last_message_time w' = t /\
  files w' = files w /\
  monitor_tick cfg client now env w' = (Normal tt, w') /\
  ~ tick_dispatches cfg client now env w'.
Proof.
  intros Hch Hu Haw Hc Hn Ht w'. subst w'.
  unfold time_typing, try_except, bind, log_, modify, ret.
  rewrite bool_decide_eq_true_2 by exact Hch.
  rewrite bool_decide_eq_true_2 by exact Hu. simpl.
  split; [reflexivity |]. split; [reflexivity |].
  assert (Hcond : trigger_condition now t (length c) = false).
  { apply not_true_is_false. intros Htrig.
    apply trigger_condition_true in Htrig. destruct Htrig as (_ & [Hd | Hn']).
    - apply Qlt_not_le in Ht. contradiction.
    - lia. }
  split.
  - rewrite monitor_tick_cases. simpl. now rewrite Haw, Hc, Hcond.
  - rewrite tick_dispatches_spec. simpl.
    intros (_ & c' & Hc' & Htrig). congruence.
Qed.

(** The last message is 100 units old and one record waits; ann types at
    98; the turn taken at 100 changes nothing. *)
Lemma typing_defers_dispatch_witness :
  let w := world_with "messages_cache.json" [m1] in
  let w' := snd (time_typing sample_config sample_client 98 10 7 w) in
  last_message_time w' = 98%Q /\
  monitor_tick sample_config sample_client 100 (sample_env [] false) w'
  = (Normal tt, w').
Proof.
  intros w w'.
  assert (H : last_message_time w' = 98%Q /\ files w' = files w /\
              monitor_tick sample_config sample_client 100
                (sample_env [] false) w' = (Normal tt, w') /\
              ~ tick_dispatches sample_config sample_client 100
                  (sample_env [] false) w').
  { apply (typing_defers_dispatch sample_config sample_client
             (sample_env [] false) 98 100 10 7 w [m1]);
      try reflexivity.
    - apply (bool_decide_unpack _). reflexivity.
    - discriminate.
    - simpl. lia. }
  destruct H as (H1 & _ & H3 & _). split; assumption.
Defined.

(** ** The paths of a dispatch that the snapshot is not taken on *)

(** Without network access a dispatch logs a warning and gives the flag
    back: the cache and every other file, the idle clock, and what the
    channel and the AI client saw are all as before. *)
Theorem offline_dispatch_touches_nothing
    (cfg : Config) (client : Client) (env : Env) (w : World) (id : option Z) :
  test_internet env = false ->
  first_channel cfg = inr id ->
  let w' := snd (AI_send_message cfg client env w) in
  fst (AI_send_message cfg client env w) = Normal tt /\
  awaiting_response w' = false /\
  files w' = files w /\
  last_message_time w' = last_message_time w /\
  sent w' = sent w /\
  ai_requests w' = ai_requests w /\
  log w' = log w ++ [(WARNING, "No internet access detected. AI message not sent.")].
Proof.
  intros Hnet Hid w'. subst w'.
  unfold AI_send_message, AI_send_message_frame.
  rewrite bind_eq. simpl. rewrite Hid. simpl.
  rewrite bind_eq. simpl. rewrite Hnet.
  repeat split.
Qed.

Lemma offline_dispatch_touches_nothing_witness :
  let env := {| test_internet := false;
                typing_error := None;
                cai_response := fun _ => inr "unused";
                remove_emoji := fun s => inr s;
                send_error := fun _ => None;
                interleaved := fun _ => [];
                time_time := 20 |} in
  let w := world_with "messages_cache.json" [m1; m2] in
  let w' := snd (AI_send_message sample_config sample_client env w) in
  files w' !! "messages_cache.json" = Some [m1; m2] /\
  last_message_time w' = 0%Q /\
  awaiting_response w' = false.
Proof.
  intros env w w'.
  destruct (offline_dispatch_touches_nothing sample_config sample_client env w
              (Some 10%Z) eq_refl eq_refl) as (_ & Ha & Hf & Hl & _).
  fold w' in Ha, Hf, Hl. rewrite Hf, Hl. auto.
Defined.

(** The inner [try] of the final block never lets an exception out, and
    changes neither the flag nor the clock. *)
Lemma update_cache_contained cfg f :
  fst (update_cache cfg f) = Normal tt /\
  awaiting_response (world (snd (update_cache cfg f)))
  = awaiting_response (world f) /\
  last_message_time (world (snd (update_cache cfg f)))
  = last_message_time (world f).
Proof.
  unfold update_cache, try_except, bind, lift, modify, read_json, write_json,
    unprocessed, logF, log_, modify.
  destruct (files (world f) !! messages_cache cfg) as [[| m c] |]; simpl;
    [auto | | auto].
  destruct (cached_data f); simpl; auto.
Qed.

Lemma reset_and_clean_up_contained cfg env f :
  fst (reset_and_clean_up cfg env f) = Normal tt /\
  awaiting_response (world (snd (reset_and_clean_up cfg env f))) = false /\
  last_message_time (world (snd (reset_and_clean_up cfg env f)))
  = time_time env.
Proof.
  set (f1 := {| world := set_last_message_time (time_time env)
                           (set_awaiting_response false (world f));
                cached_data := cached_data f |}).
  change (reset_and_clean_up cfg env f) with (update_cache cfg f1).
  destruct (update_cache_contained cfg f1) as (Hr & Ha & Hl).
  rewrite Hr, Ha, Hl. auto.
Qed.

(** Whenever the destination can be looked up in the configuration, a
    dispatch returns without an exception and with [awaiting_response]
    false, whatever the network, the channel, the files and the
    collaborators do; and once the network was found the idle clock is
    refreshed. *)
Theorem dispatch_always_gives_the_flag_back
    (cfg : Config) (client : Client) (env : Env) (w : World) (id : option Z) :
  first_channel cfg = inr id ->
  let w' := snd (AI_send_message cfg client env w) in
  fst (AI_send_message cfg client env w) = Normal tt /\
  awaiting_response w' = false /\
  (test_internet env = true -> last_message_time w' = time_time env).
Proof.
  intros Hid w'. subst w'.
  unfold AI_send_message, AI_send_message_frame.
  rewrite bind_eq. simpl. rewrite Hid. simpl. rewrite bind_eq. simpl.
  destruct (test_internet env).
  - unfold try_finally, try_except.
    match goal with
    | |- context [dispatch_body cfg client env ?a ?b ?f0] =>
        destruct (dispatch_body cfg client env a b f0) as [r f1]
    end.
    destruct r as [[] | e |]; cbv beta iota;
      unfold logF, lift, log_, modify; cbv beta iota;
      match goal with
      | |- context [reset_and_clean_up cfg env ?f] =>
          destruct (reset_and_clean_up_contained cfg env f) as (Hr & Ha & Hl);
          destruct (reset_and_clean_up cfg env f) as [r2 f2]
      end;
      simpl in *; subst r2; auto.
  - simpl. split; [reflexivity |]. split; [reflexivity | discriminate].
Qed.

(** The channel is unknown, the AI client is down and the cache file is
    missing: the dispatch still returns with the flag cleared. *)
Lemma dispatch_always_gives_the_flag_back_witness :
  let env := {| test_internet := true;
                typing_error := Some (ExternalError "Forbidden");
                cai_response := fun _ => inl (ExternalError "Timeout");
                remove_emoji := fun _ => inl (ExternalError "Broken");
                send_error := fun _ => Some (ExternalError "HTTPException");
                interleaved := fun _ => [];
                time_time := 20 |} in
  let w := {| awaiting_response := false; last_message_time := 0;
              files := ∅; log := []; sent := []; ai_requests := [] |} in
  let w' := snd (AI_send_message sample_config lost_client env w) in
  fst (AI_send_message sample_config lost_client env w) = Normal tt /\
  awaiting_response w' = false /\
  (test_internet env = true -> last_message_time w' = 20%Q).
Proof.
  intros env w.
  exact (dispatch_always_gives_the_flag_back sample_config lost_client env w
           (Some 10%Z) eq_refl).
Defined.

(** ** The monitor over many turns *)

Lemma same_outputs_trans a b c :
  same_outputs a b -> same_outputs b c -> same_outputs a c.
Proof. unfold same_outputs. intuition congruence. Qed.

(** While the flag is set a turn of the loop only runs the handlers of the
    events that came in. *)
Lemma monitor_skips_while_awaiting cfg client turns w :
  awaiting_response w = true ->
  same_effects w (snd (monitor_inactivity cfg client turns w)).
Proof.
  revert w. induction turns as [| [[evs now] env] rest IH]; intros w Haw; simpl.
  - repeat split.
  - rewrite bind_eq. unfold modify. cbv beta iota. rewrite bind_eq.
    pose proof (run_events_same_effects cfg client evs w) as He.
    set (w1 := run_events cfg client evs w) in *.
    assert (Haw1 : awaiting_response w1 = true)
      by (destruct He as (-> & _); exact Haw).
    unfold monitor_tick at 1. rewrite bind_eq. unfold gets. cbv beta iota.
    rewrite Haw1. simpl.
    eapply same_effects_trans; [exact He | now apply IH].
Qed.

(** With an empty list of watched channels the first dispatch that the
    monitor starts ends by [IndexError] before the lock and leaves
    [awaiting_response] true; since only a dispatch clears the flag, the
    monitor skips every later turn: whatever messages arrive, nothing is
    ever asked of the AI client or sent again. *)
Theorem empty_channel_list_stalls_the_monitor
    (cfg : Config) (client : Client) (env : Env) (now : Q) (w : World)
    (c : list CachedMessage) (turns : list (list Event * Q * Env)) :
  channel_bot_chat cfg = Some [] ->
  awaiting_response w = false ->
  files w !! "messages_cache.json" = Some c ->
  trigger_condition now (last_message_time w) (length c) = true ->
  let w1 := snd (monitor_tick cfg client now env w) in
  let w2 := snd (monitor_inactivity cfg client turns w1) in
  awaiting_response w1 = true /\
  files w1 = files w /\
  awaiting_response w2 = true /\
  sent w2 = sent w /\
  ai_requests w2 = ai_requests w.
Proof.
  intros Hcfg Haw Hc Ht w1 w2.
  assert (Hw1 : w1 = add_log ERROR "Error in monitor_inactivity: %s"
                       (set_awaiting_response true
                          (add_log (fst trigger_line) (snd trigger_line) w))).
  { subst w1. unfold monitor_tick. rewrite bind_eq. unfold gets.
    cbv beta iota. rewrite Haw. simpl.
    unfold try_except. rewrite bind_eq. unfold json_load. rewrite Hc.
    rewrite bind_eq. cbv beta iota. rewrite Ht.
    unfold trigger_dispatch. rewrite bind_eq. simpl.
    unfold AI_send_message, AI_send_message_frame. rewrite bind_eq. simpl.
    unfold first_channel. rewrite Hcfg. reflexivity. }
  assert (Haw1 : awaiting_response w1 = true) by (rewrite Hw1; reflexivity).
  destruct (monitor_skips_while_awaiting cfg client turns w1 Haw1)
    as (Ha & Hs & Hq).
  fold w2 in Ha, Hs, Hq.
  split; [exact Haw1 |]. split; [rewrite Hw1; reflexivity |].
  split; [congruence |]. rewrite Hs, Hq, Hw1. auto.
Qed.

(** One record and 100 units of silence; the dispatch fails on the empty
    list; then five more messages arrive and the monitor runs two more
    turns: the cache holds six records and nothing was ever sent. *)
Lemma empty_channel_list_stalls_the_monitor_witness :
  let w := world_with "messages_cache.json" [m1] in
  let env := sample_env [] false in
  let hello := fun t => MessageEvent t (message_of 7 "ann" "hello" None) in
  let cfg := {| channel_bot_chat := Some [];
                messages_cache := "messages_cache.json";
                remove_emojis_AI := false;
                send_message_line_by_line := true |} in
  let w1 := snd (monitor_tick cfg sample_client 100 env w) in
  let w2 := snd (monitor_inactivity cfg sample_client
                   [([hello 101%Q; hello 102%Q], 103%Q, env);
                    ([], 200%Q, env)] w1) in
  trigger_condition 200 (last_message_time w2) 3 = true /\
  (awaiting_response w1 = true /\
   files w1 = files w /\
   awaiting_response w2 = true /\
   sent w2 = [] /\
   ai_requests w2 = []).
Proof.
  intros w env hello cfg. split; [reflexivity |].
  apply (empty_channel_list_stalls_the_monitor cfg sample_client
           env 100 w [m1] _ eq_refl eq_refl eq_refl eq_refl).
Defined.

Lemma monitor_inactivity_same_file cfg client turns path w :
  path <> messages_cache cfg ->
  same_file path w (snd (monitor_inactivity cfg client turns w)).
Proof.
  intros Hp. revert w.
  induction turns as [| [[evs now] env] rest IH]; intros w; simpl;
    [reflexivity |].
  rewrite bind_eq. unfold modify. cbv beta iota. rewrite bind_eq.
  pose proof (run_events_same_file cfg client path evs w Hp) as He.
  set (w1 := run_events cfg client evs w) in *.
  assert (Ht : same_file path w1 (snd (monitor_tick cfg client now env w1))).
  { apply keeps_monitor_tick; intros; unfold same_file in *; simpl;
      try congruence.
    now apply lookup_insert_ne. }
  pose proof (monitor_tick_never_raises cfg client env now w1) as Hn.
  destruct (monitor_tick cfg client now env w1) as [r w2]. simpl in *. subst r.
  eapply same_file_trans; [exact He |].
  eapply same_file_trans; [exact Ht | apply IH].
Qed.

(** The loop of the monitor never ends by an exception, whatever happens in
    a turn: an unreadable cache file, a failing collaborator, even the
    [IndexError] of a dispatch are logged and the loop goes on.  And of all
    the files, only the configured cache is ever written. *)
Theorem monitor_loop_survives_every_turn
    (cfg : Config) (client : Client) (turns : list (list Event * Q * Env))
    (w : World) :
  fst (monitor_inactivity cfg client turns w) = Normal tt /\
  forall path, path <> messages_cache cfg ->
               files (snd (monitor_inactivity cfg client turns w)) !! path
               = files w !! path.
Proof.
  split; [apply monitor_inactivity_never_raises |].
  intros path Hp. now apply monitor_inactivity_same_file.
Qed.

(** The cache of the monitor is missing in the first turn and the
    configured list of channels is empty in all of them: the loop goes
    through its three turns and the other file is as it was. *)
Lemma monitor_loop_survives_every_turn_witness :
  let env := sample_env [] false in
  let w := {| awaiting_response := false; last_message_time := 0;
              files := {[ "notes.json" := [m3] ]};
              log := []; sent := []; ai_requests := [] |} in
  let turns := [([], 3%Q, env); ([], 6%Q, env); ([], 9%Q, env)] in
  fst (monitor_inactivity no_channel_config sample_client turns w) = Normal tt /\
  files (snd (monitor_inactivity no_channel_config sample_client turns w))
    !! "notes.json" = Some [m3].
Proof.
  intros env w turns.
  destruct (monitor_loop_survives_every_turn no_channel_config sample_client
              turns w) as (H1 & H2).
  split; [exact H1 |]. rewrite H2 by discriminate. reflexivity.
Defined.

(** ** What a dispatch asks and sends *)

Section Delivery.

Variable cfg : Config.
Variable client : Client.
Variable env : Env.

Lemma hoare_of_keeps {A} (m : M Frame A) out asked :
  keeps (on_world same_outputs) m ->
  hoare (outputs_are out asked) m (fun _ f => outputs_are out asked f).
Proof.
  intros Hm f [Hs Ha]. destruct (Hm f) as [Hs' Ha'].
  split; congruence.
Qed.

Lemma hoare_frame {A} (P P' A' B : Frame -> Prop) (m : M Frame A) (a : A) :
  hoare P m (fun r f => r = Normal a /\ A' f) ->
  hoare P' m (fun _ f => B f) ->
  hoare (fun f => P f /\ P' f) m (fun r f => r = Normal a /\ (A' f /\ B f)).
Proof.
  intros H1 H2 f [HP HP']. destruct (H1 f HP) as [Hr HA].
  split; [exact Hr |]. split; [exact HA | exact (H2 f HP')].
Qed.

Local Ltac outputs_kept :=
  intros; unfold same_outputs; simpl; try (split; reflexivity);
  try (apply same_outputs_trans).

Lemma suspend_keeps_outputs p :
  keeps (on_world same_outputs) (suspend cfg client env p).
Proof.
  intros f. unfold suspend, lift, modify, on_world. simpl.
  destruct (run_events_same_effects cfg client (interleaved env p) (world f))
    as (_ & Hs & Ha).
  split; assumption.
Qed.

Lemma hoare_suspend_out out asked p :
  hoare (outputs_are out asked) (suspend cfg client env p)
    (fun r f => r = Normal tt /\ outputs_are out asked f).
Proof.
  intros f Hf. split; [reflexivity |].
  exact (hoare_of_keeps _ out asked (suspend_keeps_outputs p) f Hf).
Qed.

Lemma hoare_logF_out out asked l s :
  hoare (outputs_are out asked) (logF l s)
    (fun r f => r = Normal tt /\ outputs_are out asked f).
Proof. intros f Hf. split; [reflexivity | exact Hf]. Qed.

Lemma hoare_send_out out asked ch n text :
  hoare (outputs_are out asked) (send cfg client env ch n text)
    (fun r f =>
       match send_error env n with
       | Some e => r = Raised e /\ outputs_are out asked f
       | None => r = Normal tt /\ outputs_are (out ++ [(ch, text)]) asked f
       end).
Proof.
  unfold send. eapply hoare_step; [apply hoare_suspend_out |].
  destruct (send_error env n).
  - intros f Hf. simpl. auto.
  - intros f [Hs Ha]. unfold outputs_are. simpl. rewrite Hs. auto.
Qed.

Lemma hoare_send_lines_out asked ch lines :
  forall n out,
    hoare (outputs_are out asked) (send_lines cfg client env ch n lines)
      (fun r f =>
         outputs_are (out ++ map (pair ch) (lines_sent env n lines)) asked f).
Proof.
  induction lines as [| line rest IH]; intros n out; simpl.
  - intros f Hf. simpl. now rewrite app_nil_r.
  - destruct (is_blank line); [apply IH |].
    eapply hoare_bind; [apply hoare_send_out | | |]; cbv beta.
    + intros []. destruct (send_error env n) as [e |].
      * intros f [Hr _]. discriminate.
      * apply hoare_pre_pure. intros _.
        eapply hoare_step; [apply hoare_logF_out |].
        eapply hoare_weaken; [apply IH |].
        intros r f Hf. simpl. now rewrite <- app_assoc in Hf.
    + intros e f Hf. destruct (send_error env n); [| now destruct Hf].
      simpl. rewrite app_nil_r. now destruct Hf.
    + intros f Hf. destruct (send_error env n); now destruct Hf.
Qed.

Lemma hoare_deliver_out out asked id ch response :
  hoare (outputs_are out asked)
    (deliver cfg client env id (Some ch) response)
    (fun r f =>
       outputs_are
         (out ++ map (pair ch)
                   (if send_message_line_by_line cfg
                    then lines_sent env 0 (split_lines response)
                    else match send_error env 0 with
                         | Some _ => []
                         | None => [response]
                         end)) asked f).
Proof.
  unfold deliver.
  destruct (send_message_line_by_line cfg); [apply hoare_send_lines_out |].
  eapply hoare_bind; [apply hoare_send_out | | |]; cbv beta.
  - intros []. destruct (send_error env 0) as [e |].
    + intros f [Hr _]. discriminate.
    + intros f [_ Hf]. exact Hf.
  - intros e f Hf. destruct (send_error env 0); [| now destruct Hf].
    simpl. rewrite app_nil_r. now destruct Hf.
  - intros f Hf. destruct (send_error env 0); now destruct Hf.
Qed.

Lemma hoare_await_cai_response_out out asked snapshot :
  hoare (outputs_are out asked)
    (await_cai_response cfg client env snapshot)
    (fun r f =>
       r = match cai_response env snapshot with
           | inl e => Raised e
           | inr response => Normal response
           end /\
       outputs_are out (asked ++ [snapshot]) f).
Proof.
  unfold await_cai_response.
  eapply hoare_step with (P' := outputs_are out (asked ++ [snapshot])).
  { intros f [Hs Ha]. unfold outputs_are. simpl. rewrite Ha. auto. }
  eapply hoare_step; [apply hoare_suspend_out |].
  intros f Hf. destruct (cai_response env snapshot); simpl; auto.
Qed.

Lemma hoare_strip_emoji_out out asked response :
  hoare (outputs_are out asked)
    (if remove_emojis_AI cfg
     then
       response <- call (remove_emoji env response) ;;
       logF DEBUG "AI response received (without emoji): %s" ;;;
       ret response
     else ret response)
    (fun r f =>
       r = match (if remove_emojis_AI cfg then remove_emoji env response
                  else inr response) with
           | inl e => Raised e
           | inr stripped => Normal stripped
           end /\
       outputs_are out asked f).
Proof.
  destruct (remove_emojis_AI cfg); [| apply hoare_ret].
  destruct (remove_emoji env response) as [e | stripped]; simpl.
  - intros f Hf. simpl. auto.
  - intros f Hf. unfold bind. simpl. auto.
Qed.

Lemma same_outputs_refl w : same_outputs w w.
Proof. split; reflexivity. Qed.

Lemma enter_typing_keeps_outputs ch :
  keeps (on_world same_outputs) (enter_typing cfg client env ch).
Proof.
  apply keeps_enter_typing;
    first [apply same_outputs_refl | apply same_outputs_trans
          | intros; split; reflexivity].
Qed.

Lemma update_cache_keeps_outputs :
  keeps (on_world same_outputs) (update_cache cfg).
Proof.
  apply keeps_update_cache;
    first [apply same_outputs_refl | apply same_outputs_trans
          | intros; split; reflexivity].
Qed.

Lemma hoare_reset_and_clean_up_out out asked :
  hoare (outputs_are out asked) (reset_and_clean_up cfg env)
    (fun r f => r = Normal tt /\ outputs_are out asked f).
Proof.
  intros f Hf.
  split; [apply reset_and_clean_up_contained |].
  set (f1 := {| world := set_last_message_time (time_time env)
                           (set_awaiting_response false (world f));
                cached_data := cached_data f |}).
  change (reset_and_clean_up cfg env f) with (update_cache cfg f1).
  apply (hoare_of_keeps _ out asked update_cache_keeps_outputs f1). exact Hf.
Qed.

(** The body of the outer [try], for what it asks and sends. *)
Lemma hoare_dispatch_body_out id ch cache out asked :
  typing_error env = None ->
  hoare (fun f => cache_holds cfg None cache f /\ outputs_are out asked f)
    (dispatch_body cfg client env id (Some ch))
    (fun r f =>
       outputs_are
         (out ++ map (pair ch)
                   (delivered cfg env (snapshot_of cfg client env cache)))
         (asked ++ asked_for (snapshot_of cfg client env cache)) f).
Proof.
  intros Hty. unfold dispatch_body.
  eapply hoare_step.
  { apply hoare_frame; [now apply hoare_enter_typing |].
    apply hoare_of_keeps, enter_typing_keeps_outputs. }
  eapply hoare_step.
  { apply hoare_frame with (B := outputs_are out asked);
      [apply hoare_read_json |].
    intros f Hf. unfold lift, read_json.
    destruct (files (world f) !! messages_cache cfg); exact Hf. }
  fold (snapshot_of cfg client env cache).
  generalize (snapshot_of cfg client env cache). intros snapshot.
  eapply hoare_step with (P' := outputs_are out asked).
  { intros f (_ & Hf). split; [reflexivity | exact Hf]. }
  unfold delivered, asked_for.
  destruct snapshot as [| m l].
  - eapply hoare_step; [apply hoare_logF_out |].
    intros f Hf. simpl. now rewrite !app_nil_r.
  - set (snapshot := m :: l).
    eapply hoare_bind; [apply hoare_await_cai_response_out | | |]; cbv beta.
    + intros response. apply hoare_pre_pure.
      destruct (cai_response env snapshot) as [e | response'];
        intros Hr; [discriminate |]. injection Hr as ->.
      eapply hoare_step; [apply hoare_logF_out |].
      eapply hoare_bind; [apply hoare_strip_emoji_out | | |]; cbv beta.
      * intros stripped. apply hoare_pre_pure.
        destruct (if remove_emojis_AI cfg then _ else _) as [e | stripped'];
          intros Hr; [discriminate |]. injection Hr as ->.
        apply hoare_deliver_out.
      * intros e f [Hr Hf].
        destruct (if remove_emojis_AI cfg then _ else _); [| discriminate].
        simpl. rewrite app_nil_r. exact Hf.
      * intros f [Hr Hf].
        destruct (if remove_emojis_AI cfg then _ else _); discriminate.
    + intros e f [Hr Hf].
      destruct (cai_response env snapshot); [| discriminate].
      simpl. rewrite app_nil_r. exact Hf.
    + intros f [Hr Hf]. destruct (cai_response env snapshot); discriminate.
Qed.

(** A dispatch that finds the network and the channel, with a readable
    cache: the AI client is asked once, for the snapshot, unless the
    snapshot is empty; the channel receives the texts that got through. *)
Lemma dispatch_outputs w id ch cache :
  test_internet env = true ->
  first_channel cfg = inr id ->
  get_channel client id = Some ch ->
  typing_error env = None ->
  files w !! messages_cache cfg = Some cache ->
  outputs_are
    (sent w ++ map (pair ch)
               (delivered cfg env (snapshot_of cfg client env cache)))
    (ai_requests w ++ asked_for (snapshot_of cfg client env cache))
    {| world := snd (AI_send_message cfg client env w); cached_data := None |}.
Proof.
  intros Hnet Hid Hch Hty Hc.
  assert (H : hoare (fun f => cache_holds cfg None cache f /\
                              outputs_are (sent w) (ai_requests w) f)
                (AI_send_message_frame cfg client env)
                (fun r f =>
                   outputs_are
                     (sent w ++ map (pair ch)
                        (delivered cfg env (snapshot_of cfg client env cache)))
                     (ai_requests w
                        ++ asked_for (snapshot_of cfg client env cache)) f)).
  { unfold AI_send_message_frame.
    eapply hoare_step with
      (P' := fun f => cache_holds cfg None cache f /\
                      outputs_are (sent w) (ai_requests w) f).
    { intros f ((Hd & Hf) & Ho). split; [reflexivity |].
      split; [split |]; assumption. }
    rewrite Hid. eapply hoare_step; [apply hoare_ret |].
    cbv zeta. rewrite Hnet, Hch.
    eapply hoare_try_finally.
    - eapply hoare_try_except;
        [now apply hoare_dispatch_body_out | | |]; cbv beta.
      + intros e. eapply hoare_weaken; [apply hoare_logF_out |].
        intros r f [_ Hf]. exact Hf.
      + intros a f Hf. exact Hf.
      + intros f Hf. exact Hf.
    - intros r. apply hoare_reset_and_clean_up_out. }
  specialize (H {| world := w; cached_data := None |}).
  unfold AI_send_message.
  destruct (AI_send_message_frame _ _ _ _) as [r f]. simpl in H.
  assert (Hf : outputs_are
                 (sent w ++ map (pair ch)
                    (delivered cfg env (snapshot_of cfg client env cache)))
                 (ai_requests w
                    ++ asked_for (snapshot_of cfg client env cache)) f).
  { apply H. repeat split. exact Hc. }
  destruct r as [[] | e |]; exact Hf.
Qed.

End Delivery.

Lemma lines_sent_prefix env lines n :
  lines_sent env n lines
  `prefix_of` filter (fun line => is_blank line = false) lines.
Proof.
  revert n. induction lines as [| line rest IH]; intros n; simpl.
  - reflexivity.
  - rewrite filter_cons. destruct (is_blank line) eqn:Hb; simpl.
    + destruct (decide (true = false)); [discriminate | apply IH].
    + destruct (decide (false = false)); [| congruence].
      destruct (send_error env n); [apply prefix_nil |].
      apply prefix_cons, IH.
Qed.

Lemma lines_sent_until env lines :
  forall n k,
    (forall j, j < k -> send_error env (n + j) = None) ->
    (k < length (filter (fun line => is_blank line = false) lines) ->
     send_error env (n + k) <> None) ->
    lines_sent env n lines
    = take k (filter (fun line => is_blank line = false) lines).
Proof.
  induction lines as [| line rest IH]; intros n k Hok Hfail; simpl.
  - rewrite filter_nil. now destruct k.
  - rewrite filter_cons in *. destruct (is_blank line) eqn:Hb; simpl in *.
    + destruct (decide (true = false)); [discriminate |]. now apply IH.
    + destruct (decide (false = false)); [| congruence]. simpl in *.
      destruct k as [| k].
      * rewrite Nat.add_0_r in Hfail.
        destruct (send_error env n); [reflexivity |].
        exfalso. apply Hfail; [lia | reflexivity].
      * rewrite <- (Nat.add_0_r n) at 1. rewrite Hok by lia. simpl. f_equal.
        apply IH.
        -- intros j Hj. replace (S n + j) with (n + S j) by lia.
           apply Hok. lia.
        -- intros Hk. replace (S n + k) with (n + S k) by lia.
           apply Hfail. lia.
Qed.

Lemma split_lines_no_newline s :
  Forall (fun line => has_newline line = false) (split_lines s).
Proof.
  induction s as [| c s IH]; simpl.
  - repeat constructor.
  - destruct (Ascii.eqb c newline) eqn:Hc.
    + constructor; [reflexivity | exact IH].
    + destruct (split_lines s) as [| l ls]; simpl.
      * repeat constructor. simpl. now rewrite Hc.
      * inversion IH; subst. constructor; [| assumption].
        simpl. now rewrite Hc.
Qed.

(** When every [send] succeeds, the reply reaches the channel whole: the
    AI client is asked once, for the snapshot; with line-by-line delivery
    the channel receives the non-blank lines of the reply (after the
    removal of emojis, if configured), one message each and in order, and
    otherwise the reply as a single message. *)
Theorem reply_is_delivered
    (cfg : Config) (client : Client) (env : Env) (w : World)
    (id : option Z) (ch : Z) (cache : list CachedMessage)
    (response text : string) :
  test_internet env = true ->
  first_channel cfg = inr id ->
  get_channel client id = Some ch ->
  typing_error env = None ->
  files w !! messages_cache cfg = Some cache ->
  snapshot_of cfg client env cache <> [] ->
  cai_response env (snapshot_of cfg client env cache) = inr response ->
  (if remove_emojis_AI cfg then remove_emoji env response else inr response)
  = inr text ->
  (forall n, send_error env n = None) ->
  let w' := snd (AI_send_message cfg client env w) in
  ai_requests w' = ai_requests w ++ [snapshot_of cfg client env cache] /\
  sent w' = sent w ++ map (pair ch)
                        (if send_message_line_by_line cfg
                         then non_blank_lines text
                         else [text]).
Proof.
  intros Hnet Hid Hch Hty Hc Hne Hai Hemoji Hsend w'.
  destruct (dispatch_outputs cfg client env w id ch cache Hnet Hid Hch Hty Hc)
    as [Hs Ha].
  simpl in Hs, Ha. fold w' in Hs, Ha.
  unfold delivered, asked_for in *.
  destruct (snapshot_of cfg client env cache) as [| m l] eqn:Hsnap;
    [congruence |].
  rewrite Hai, Hemoji in Hs. split; [exact Ha |].
  rewrite Hs. f_equal. f_equal.
  destruct (send_message_line_by_line cfg).
  - unfold non_blank_lines.
    rewrite (lines_sent_until env (split_lines text) 0
               (length (filter (fun line => is_blank line = false)
                          (split_lines text)))).
    + now rewrite firstn_all.
    + intros j _. apply Hsend.
    + lia.
  - now rewrite Hsend.
Qed.

(** Between the two lines of the reply there is a line made of a no-break
    space and an ideographic space, which [strip] leaves empty: it is not
    sent. *)
Lemma reply_is_delivered_witness :
  let env := replying_env spaced_reply false in
  let w := world_with "messages_cache.json" [m1] in
  let w' := snd (AI_send_message sample_config sample_client env w) in
  split_lines spaced_reply
  = ["Hi ann"; no_break_space +:+ ideographic_space; "How are you?"] /\
  ai_requests w' = [[m1]] /\
  sent w' = [(10%Z, "Hi ann"); (10%Z, "How are you?")].
Proof.
  intros env w. split; [reflexivity |].
  apply (reply_is_delivered sample_config sample_client env w (Some 10%Z)
           10%Z [m1] spaced_reply spaced_reply
           eq_refl eq_refl eq_refl eq_refl eq_refl);
    [discriminate | reflexivity | reflexivity | reflexivity].
Defined.

(** When the [k]-th [send] of a line-by-line delivery is the first to fail,
    the channel has received the first [k] non-blank lines of the reply
    and no more; the rest of the reply is never sent, and the snapshot is
    removed from the cache all the same. *)
Theorem failed_send_truncates_the_reply
    (cfg : Config) (client : Client) (env : Env) (w : World)
    (id : option Z) (ch : Z) (cache : list CachedMessage)
    (response text : string) (k : nat) :
  test_internet env = true ->
  first_channel cfg = inr id ->
  get_channel client id = Some ch ->
  typing_error env = None ->
  files w !! messages_cache cfg = Some cache ->
  snapshot_of cfg client env cache <> [] ->
  cai_response env (snapshot_of cfg client env cache) = inr response ->
  (if remove_emojis_AI cfg then remove_emoji env response else inr response)
  = inr text ->
  send_message_line_by_line cfg = true ->
  (forall j, j < k -> send_error env j = None) ->
  send_error env k <> None ->
  let snapshot := snapshot_of cfg client env cache in
  let w' := snd (AI_send_message cfg client env w) in
  sent w' = sent w ++ map (pair ch) (take k (non_blank_lines text)) /\
  files w' !! messages_cache cfg
  = Some (remove_messages (arrived_during cfg client env snapshot) snapshot).
Proof.
  intros Hnet Hid Hch Hty Hc Hne Hai Hemoji Hmode Hok Hfail snapshot w'.
  destruct (dispatch_outputs cfg client env w id ch cache Hnet Hid Hch Hty Hc)
    as [Hs _].
  destruct (dispatch_outcome cfg client env w id ch cache Hnet Hid Hch Hty Hc)
    as (_ & _ & _ & Hf).
  simpl in Hs. fold snapshot in Hs, Hf, Hai, Hne. fold w' in Hs, Hf.
  split.
  - rewrite Hs. f_equal. f_equal. unfold delivered.
    destruct snapshot; [congruence |].
    rewrite Hai, Hemoji, Hmode. unfold non_blank_lines.
    apply lines_sent_until; [exact Hok | intros _; exact Hfail].
  - rewrite Hf. f_equal. apply remove_messages_snapshot_app.
Qed.

(** The reply has a line of whitespace beyond ASCII between its two lines
    and the second [send] fails: that [send] is the one of the third line,
    so "Hi ann" is in the channel, "How are you?" is not, and the cache is
    empty. *)
Lemma failed_send_truncates_the_reply_witness :
  let env := replying_env spaced_reply true in
  let w := world_with "messages_cache.json" [m1] in
  let w' := snd (AI_send_message sample_config sample_client env w) in
  sent w' = [(10%Z, "Hi ann")] /\
  files w' !! "messages_cache.json" = Some [].
Proof.
  intros env w.
  apply (failed_send_truncates_the_reply sample_config sample_client env w
           (Some 10%Z) 10%Z [m1] spaced_reply spaced_reply 1
           eq_refl eq_refl eq_refl eq_refl eq_refl);
    try reflexivity; try discriminate.
  intros j Hj. destruct j; [reflexivity | lia].
Defined.

(** With line-by-line delivery no message that a dispatch sends is blank
    and none contains a line break, whatever the reply and whichever
    collaborator fails. *)
Theorem no_blank_or_multiline_message
    (cfg : Config) (client : Client) (env : Env) (w : World)
    (id : option Z) (ch : Z) (cache : list CachedMessage) :
  test_internet env = true ->
  first_channel cfg = inr id ->
  get_channel client id = Some ch ->
  typing_error env = None ->
  files w !! messages_cache cfg = Some cache ->
  send_message_line_by_line cfg = true ->
  exists new,
    sent (snd (AI_send_message cfg client env w)) = sent w ++ new /\
    forall c text, (c, text) ∈ new ->
                   c = ch /\ is_blank text = false /\ has_newline text = false.
Proof.
  intros Hnet Hid Hch Hty Hc Hmode.
  destruct (dispatch_outputs cfg client env w id ch cache Hnet Hid Hch Hty Hc)
    as [Hs _].
  simpl in Hs. eexists. split; [exact Hs |].
  intros c text Hin. apply list_elem_of_fmap in Hin.
  destruct Hin as (line & Heq & Hin). injection Heq as -> ->.
  split; [reflexivity |].
  unfold delivered in Hin.
  destruct (snapshot_of cfg client env cache); [now apply elem_of_nil in Hin |].
  destruct (cai_response env _); [now apply elem_of_nil in Hin |].
  destruct (if remove_emojis_AI cfg then _ else _) as [e | stripped];
    [now apply elem_of_nil in Hin |].
  rewrite Hmode in Hin.
  pose proof (lines_sent_prefix env (split_lines stripped) 0) as [rest Hrest].
  assert (Hf : line ∈ filter (fun l => is_blank l = false) (split_lines stripped)).
  { rewrite Hrest. apply elem_of_app. now left. }
  apply list_elem_of_filter in Hf. destruct Hf as [Hb Hl].
  split; [exact Hb |].
  pose proof (split_lines_no_newline stripped) as Hall.
  rewrite Forall_forall in Hall. now apply Hall.
Qed.

Lemma no_blank_or_multiline_message_witness :
  let reply := "Hi ann" +:+ String newline ("  " +:+ String newline "How are you?") in
  let env := {| test_internet := true;
                typing_error := None;
                cai_response := fun _ => inr reply;
                remove_emoji := fun s => inr s;
                send_error := fun _ => None;
                interleaved := fun _ => [];
                time_time := 20 |} in
  let w := world_with "messages_cache.json" [m1] in
  exists new,
    sent (snd (AI_send_message sample_config sample_client env w))
    = sent w ++ new /\
    forall c text, (c, text) ∈ new ->
                   c = 10%Z /\ is_blank text = false /\ has_newline text = false.
Proof.
  intros reply env w.
  exact (no_blank_or_multiline_message sample_config sample_client env w
           (Some 10%Z) 10%Z [m1] eq_refl eq_refl eq_refl eq_refl eq_refl eq_refl).
Defined.

(** When the AI client fails, nothing is sent, and yet the final block
    removes the snapshot from the cache: the messages of the batch are
    gone without an answer, and only what arrived during the call
    remains. *)
Theorem failed_ai_call_consumes_the_snapshot
    (cfg : Config) (client : Client) (env : Env) (w : World)
    (id : option Z) (ch : Z) (cache : list CachedMessage) (e : Exn) :
  test_internet env = true ->
  first_channel cfg = inr id ->
  get_channel client id = Some ch ->
  typing_error env = None ->
  files w !! messages_cache cfg = Some cache ->
  snapshot_of cfg client env cache <> [] ->
  cai_response env (snapshot_of cfg client env cache) = inl e ->
  let snapshot := snapshot_of cfg client env cache in
  let w' := snd (AI_send_message cfg client env w) in
  sent w' = sent w /\
  ai_requests w' = ai_requests w ++ [snapshot] /\
  files w' !! messages_cache cfg
  = Some (remove_messages (arrivals cfg client (interleaved env AtAI)) snapshot) /\
  forall x new_cache,
    files w' !! messages_cache cfg = Some new_cache ->
    x ∈ snapshot -> x ∉ new_cache.
Proof.
  intros Hnet Hid Hch Hty Hc Hne Hai snapshot w'.
  destruct (dispatch_outputs cfg client env w id ch cache Hnet Hid Hch Hty Hc)
    as [Hs Ha].
  destruct (dispatch_outcome cfg client env w id ch cache Hnet Hid Hch Hty Hc)
    as (_ & _ & _ & Hf).
  simpl in Hs, Ha. fold snapshot in Hs, Ha, Hf, Hai, Hne. fold w' in Hs, Ha, Hf.
  rewrite remove_messages_snapshot_app in Hf.
  unfold delivered, asked_for, arrived_during, awaited_after_snapshot in *.
  destruct snapshot as [| m l] eqn:Hsnap; [congruence |].
  rewrite Hai in Hs, Hf. simpl in Hs. rewrite app_nil_r in Hs.
  rewrite (events_at_cons env AtAI []) in Hf.
  change (events_at env []) with (@nil Event) in Hf. rewrite app_nil_r in Hf.
  split; [exact Hs |]. split; [exact Ha |]. split; [exact Hf |].
  intros x new_cache Hnew Hx Hin. rewrite Hf in Hnew. injection Hnew as <-.
  apply elem_of_remove_messages in Hin. now destruct Hin.
Qed.

(** The cache holds [m1; m2], the AI client times out while [m3] arrives:
    nothing is sent and the cache holds [m3] alone. *)
Lemma failed_ai_call_consumes_the_snapshot_witness :
  let env := {| test_internet := true;
                typing_error := None;
                cai_response := fun _ => inl (ExternalError "Timeout");
                remove_emoji := fun s => inr s;
                send_error := fun _ => None;
                interleaved :=
                  fun p => match p with
                           | AtAI => [MessageEvent 5 (message_of 8 "cat" "good evening" None)]
                           | _ => []
                           end;
                time_time := 20 |} in
  let w := world_with "messages_cache.json" [m1; m2] in
  let w' := snd (AI_send_message sample_config sample_client env w) in
  sent w' = [] /\
  ai_requests w' = [[m1; m2]] /\
  files w' !! "messages_cache.json" = Some [m3].
Proof.
  intros env w.
  destruct (failed_ai_call_consumes_the_snapshot sample_config sample_client
              env w (Some 10%Z) 10%Z [m1; m2] (ExternalError "Timeout")
              eq_refl eq_refl eq_refl eq_refl eq_refl)
    as (H1 & H2 & H3 & _); [discriminate | reflexivity |].
  split; [exact H1 |]. split; [exact H2 | exact H3].
Defined.

(** ** The monitor and the file it reads *)

(** A dispatch that is called from the loop and does not raise is the
    whole turn. *)
Lemma dispatching_tick_of_call cfg client env w :
  let w1 := add_log (fst trigger_line) (snd trigger_line) w in
  fst (AI_send_message cfg client env w1) = Normal tt ->
  dispatching_tick cfg client env w
  = (Normal tt, snd (AI_send_message cfg client env w1)).
Proof.
  intros w1 H.
  assert (E : dispatching_tick cfg client env w
              = match AI_send_message cfg client env w1 with
                | (Raised e, w2) =>
                    log_ ERROR "Error in monitor_inactivity: %s" w2
                | r => r
                end) by reflexivity.
  rewrite E. destruct (AI_send_message cfg client env w1) as [r w2].
  simpl in H. now subst r.
Qed.

(** The rule of the monitor.  On a turn taken while [awaiting_response] is
    false, with [N] the number of records in the file named
    ["messages_cache.json"] and [D] the time since [last_message_time], the
    loop calls [AI_send_message] if and only if [N >= 1] and ([D >= 7] or
    [N >= 5]), and otherwise the turn changes nothing.  When that file is
    the configured cache and the network and the channel are there, the
    call asks the AI client once, for the snapshot that the dispatch takes
    of the cache. *)
Theorem monitor_trigger_rule
    (cfg : Config) (client : Client) (env : Env) (now : Q) (w : World)
    (c : list CachedMessage) :
  awaiting_response w = false ->
  files w !! "messages_cache.json" = Some c ->
  let N := length c in
  let D := (now - last_message_time w)%Q in
  let w' := snd (monitor_tick cfg client now env w) in
  (tick_dispatches cfg client now env w <-> rule_holds N D) /\
  (~ rule_holds N D -> monitor_tick cfg client now env w = (Normal tt, w)) /\
  (forall id ch,
     rule_holds N D ->
     messages_cache cfg = "messages_cache.json" ->
     test_internet env = true ->
     first_channel cfg = inr id ->
     get_channel client id = Some ch ->
     typing_error env = None ->
     ai_requests w' = ai_requests w ++ [snapshot_of cfg client env c]).
Proof.
  intros Haw Hc N D w'.
  assert (Hiff : tick_dispatches cfg client now env w <-> rule_holds N D).
  { rewrite tick_dispatches_spec. subst N D. rewrite <- rule_holds_iff. split.
    - intros (_ & c' & Hc' & Ht). congruence.
    - intros Ht. split; [exact Haw |]. exists c. auto. }
  split; [exact Hiff |]. split.
  - intros Hno. rewrite monitor_tick_cases, Haw, Hc.
    destruct (trigger_condition now (last_message_time w) (length c)) eqn:Ht;
      [| reflexivity].
    apply rule_holds_iff in Ht. contradiction.
  - intros id ch Hrule Hpath Hnet Hid Hch Hty. subst w'.
    apply Hiff in Hrule as Htick. unfold tick_dispatches in Htick.
    rewrite Htick.
    set (w1 := add_log (fst trigger_line) (snd trigger_line) w).
    assert (Hc1 : files w1 !! messages_cache cfg = Some c)
      by (rewrite Hpath; exact Hc).
    destruct (dispatch_outcome cfg client env w1 id ch c Hnet Hid Hch Hty Hc1)
      as (Hr & _).
    rewrite (dispatching_tick_of_call cfg client env w Hr).
    destruct (dispatch_outputs cfg client env w1 id ch c Hnet Hid Hch Hty Hc1)
      as (_ & Hasked).
    change (ai_requests (snd (AI_send_message cfg client env w1))
            = ai_requests w ++ asked_for (snapshot_of cfg client env c))
      in Hasked.
    change (ai_requests (snd (AI_send_message cfg client env w1))
            = ai_requests w ++ [snapshot_of cfg client env c]).
    rewrite Hasked. f_equal.
    destruct Hrule as (HN & _). subst N.
    destruct c as [| x c]; [simpl in HN; lia | reflexivity].
Qed.

(** One record in the cache and eight units of silence: the turn calls
    [AI_send_message], and the AI client is asked for the record. *)
Lemma monitor_trigger_rule_witness :
  let w := world_with "messages_cache.json" [m1] in
  let env := sample_env [] false in
  rule_holds 1 (8 - 0) /\
  tick_dispatches sample_config sample_client 8 env w /\
  ai_requests (snd (monitor_tick sample_config sample_client 8 env w)) = [[m1]].
Proof.
  intros w env.
  assert (Hrule : rule_holds 1 (8 - 0)).
  { split; [lia |]. left. apply Qle_bool_imp_le. reflexivity. }
  destruct (monitor_trigger_rule sample_config sample_client env 8 w [m1]
              eq_refl eq_refl) as (H1 & _ & H3).
  split; [exact Hrule |]. split; [apply H1; exact Hrule |].
  exact (H3 (Some 10%Z) 10%Z Hrule eq_refl eq_refl eq_refl eq_refl eq_refl).
Defined.

(** C9, as stated, fails for a path that differs from
    ["messages_cache.json"] and names the same file.  The cache is
    configured as ["./messages_cache.json"]: the collector writes ann's
    message to the file that the monitor reads, the turn taken eight units
    later calls [AI_send_message] on account of it, and the dispatch asks
    the AI client for it and empties that same file. *)
Lemma aliased_path_is_one_file :
  let program := on_disk from_working_directory dotted_cache_config in
  let w := world_with "messages_cache.json" [] in
  let w1 := snd (read_channel_messages program sample_client 1
                   (message_of 7 "ann" "hello" None) w) in
  let w2 := snd (monitor_tick program sample_client 9 (sample_env [] false) w1) in
  messages_cache dotted_cache_config <> "messages_cache.json" /\
  messages_cache program = "messages_cache.json" /\
  files w1 !! "messages_cache.json" = Some [m1] /\
  ai_requests w2 = [[m1]] /\
  files w2 !! "messages_cache.json" = Some [].
Proof. vm_compute. repeat split. discriminate. Qed.

(** C9, amended.  The monitor counts the records of the file named
    ["messages_cache.json"], whatever the configuration says, while the
    collector and the dispatch read and write the file that the configured
    path names.  When this is another file, whether a turn calls
    [AI_send_message] is decided by the flag, the clock and the file named
    ["messages_cache.json"] alone and does not depend on the content of the
    cache; the collector and the dispatch work on the cache and leave the
    file that the monitor reads as it is. *)
Theorem monitor_reads_literal_path
    (resolve : string -> string) (cfg : Config) (client : Client) (env : Env)
    (now : Q) (w : World) :
  resolve "messages_cache.json" = "messages_cache.json" ->
  resolve (messages_cache cfg) <> resolve "messages_cache.json" ->
  let program := on_disk resolve cfg in
  let cache := resolve (messages_cache cfg) in
  (tick_dispatches program client now env w <->
   awaiting_response w = false /\
   exists c, files w !! "messages_cache.json" = Some c /\
             rule_holds (length c) (now - last_message_time w)) /\
  (forall c,
     awaiting_response w = false ->
     files w !! "messages_cache.json" = Some c ->
     ~ rule_holds (length c) (now - last_message_time w) ->
     monitor_tick program client now env w = (Normal tt, w)) /\
  (forall c,
     tick_dispatches program client now env
       (set_files (<[cache := c]> (files w)) w)
     <-> tick_dispatches program client now env w) /\
  (forall t msg c,
     files w !! cache = Some c ->
     files (snd (read_channel_messages program client t msg w)) !! cache
     = Some (c ++ option_list (captured program client msg))) /\
  (forall t msg,
     same_file "messages_cache.json" w
       (snd (read_channel_messages program client t msg w))) /\
  (forall id ch c,
     test_internet env = true ->
     first_channel program = inr id ->
     get_channel client id = Some ch ->
     typing_error env = None ->
     files w !! cache = Some c ->
     let snapshot := snapshot_of program client env c in
     let w' := snd (AI_send_message program client env w) in
     ai_requests w' = ai_requests w ++ asked_for snapshot /\
     files w' !! cache
     = Some (filter (fun x => x ∉ snapshot)
               (arrived_during program client env snapshot))) /\
  same_file "messages_cache.json" w (snd (AI_send_message program client env w)).
Proof.
  intros Hlit Hp program cache. rewrite Hlit in Hp.
  assert (Hpath : messages_cache program = cache) by reflexivity.
  split.
  { rewrite tick_dispatches_spec. split.
    - intros (Haw & c & Hc & Ht). split; [exact Haw |]. exists c.
      split; [exact Hc | now apply rule_holds_iff].
    - intros (Haw & c & Hc & Ht). split; [exact Haw |]. exists c.
      split; [exact Hc | now apply rule_holds_iff]. }
  split.
  { intros c Haw Hc Hno. rewrite monitor_tick_cases, Haw, Hc.
    destruct (trigger_condition now (last_message_time w) (length c)) eqn:Ht;
      [| reflexivity].
    apply rule_holds_iff in Ht. contradiction. }
  split.
  { intros c. rewrite !tick_dispatches_spec. simpl.
    now rewrite lookup_insert_ne. }
  split; [intros t msg c Hc; now apply read_channel_messages_cache |].
  split.
  { intros t msg. apply read_channel_messages_same_file.
    rewrite Hpath. intros Heq. apply Hp. symmetry. exact Heq. }
  split.
  2: { apply AI_send_message_same_file. rewrite Hpath.
       intros Heq. apply Hp. symmetry. exact Heq. }
  intros id ch c Hnet Hid Hch Hty Hc snapshot w'.
  destruct (dispatch_outcome program client env w id ch c Hnet Hid Hch Hty Hc)
    as (_ & _ & _ & Hf).
  destruct (dispatch_outputs program client env w id ch c Hnet Hid Hch Hty Hc)
    as (_ & Hasked).
  split; [exact Hasked |].
  fold snapshot in Hf. fold w' in Hf. rewrite Hpath in Hf. rewrite Hf.
  f_equal. apply remove_messages_snapshot_app.
Qed.

(** The cache is configured as ["cache/pending.json"] and holds five
    records, the file that the monitor reads holds none: the turn changes
    nothing, and a dispatch started by hand asks for the five records,
    empties the cache and leaves the other file alone. *)
Lemma monitor_reads_literal_path_witness :
  let w := two_cache_world in
  let env := sample_env [] false in
  let program := on_disk from_working_directory moved_cache_config in
  let w' := snd (AI_send_message program sample_client env w) in
  files w !! "cache/pending.json" = Some [m1; m2; m3; m2; m1] /\
  monitor_tick program sample_client 100 env w = (Normal tt, w) /\
  ai_requests w' = [[m1; m2; m3; m2; m1]] /\
  files w' !! "cache/pending.json" = Some [] /\
  files w' !! "messages_cache.json" = files w !! "messages_cache.json".
Proof.
  intros w env program w'.
  assert (Hp : from_working_directory (messages_cache moved_cache_config)
               <> from_working_directory "messages_cache.json")
    by discriminate.
  destruct (monitor_reads_literal_path from_working_directory
              moved_cache_config sample_client env 100 w eq_refl Hp)
    as (_ & H2 & _ & _ & _ & H6 & H7).
  split; [reflexivity |]. split.
  - apply (H2 []); [reflexivity | reflexivity |].
    intros (Hn & _). simpl in Hn. lia.
  - destruct (H6 (Some 10%Z) 10%Z [m1; m2; m3; m2; m1]
                eq_refl eq_refl eq_refl eq_refl eq_refl) as (Ha & Hf).
    split; [exact Ha |]. split; [exact Hf | exact H7].
Defined.

(** * Profile synchronisation *)

(** What [sync_config] leaves behind, in one equation per attribute. *)
Lemma sync_config_result cfg env i :
  fst (sync_config cfg env i) = Normal tt /\
  identity_username (snd (sync_config cfg env i))
  = default (identity_username i) (new_username cfg env) /\
  identity_avatar (snd (sync_config cfg env i))
  = match new_avatar cfg env with
    | Some image_bytes => Some image_bytes
    | None => identity_avatar i
    end.
Proof.
  unfold sync_config, sync_config_body, new_username, new_avatar, try_except,
    bind, call, subscript, perform, note, modify, raise, ret, return_.
  destruct (get_bot_info env) as [e | info]; simpl; [auto |].
  destruct (default false (use_cai_display_name cfg));
    destruct (default false (use_cai_avatar cfg)); simpl;
    repeat (case_match; simplify_eq/=); auto.
Qed.

(** [sync_config] never raises, whatever its collaborators do; it changes
    the name only when [use_cai_display_name] is set and the picture only
    when [use_cai_avatar] is set (an absent key counts as false); and when
    the AI service cannot give the bot's information it changes neither. *)
Theorem sync_config_is_contained
    (cfg : ProfileConfig) (env : ProfileEnv) (i : Identity) :
  let i' := snd (sync_config cfg env i) in
  fst (sync_config cfg env i) = Normal tt /\
  (default false (use_cai_display_name cfg) = false ->
   identity_username i' = identity_username i) /\
  (default false (use_cai_avatar cfg) = false ->
   identity_avatar i' = identity_avatar i) /\
  (forall e, get_bot_info env = inl e ->
             identity_username i' = identity_username i /\
             identity_avatar i' = identity_avatar i).
Proof.
  intros i'. destruct (sync_config_result cfg env i) as (Hr & Hu & Ha).
  fold i' in Hu, Ha. split; [exact Hr |].
  unfold new_username in Hu. unfold new_avatar in Ha.
  split; [| split].
  - intros Hf. rewrite Hf in Hu. rewrite Hu.
    now destruct (get_bot_info env).
  - intros Hf. rewrite Hf in Ha. rewrite Ha.
    now destruct (get_bot_info env).
  - intros e He. rewrite He in Hu, Ha. auto.
Qed.

(** The avatar key is absent from the configuration: the picture stays. *)
Lemma sync_config_is_contained_witness :
  let cfg := {| use_cai_display_name := Some true; use_cai_avatar := None |} in
  identity_avatar (snd (sync_config cfg sample_profile_env sample_identity))
  = identity_avatar sample_identity.
Proof.
  intros cfg.
  destruct (sync_config_is_contained cfg sample_profile_env sample_identity)
    as (_ & _ & H & _).
  exact (H eq_refl).
Defined.

(** The picture is replaced exactly when the flag is set, the information
    has an address, the request is answered with status 200, the body can
    be read and the platform accepts it; the new picture is then that body.
    Whether the change of name went through plays no part. *)
Theorem avatar_changes_only_on_status_200
    (cfg : ProfileConfig) (env : ProfileEnv) (i : Identity) :
  let i' := snd (sync_config cfg env i) in
  (forall info url image_bytes,
     get_bot_info env = inr info ->
     use_cai_avatar cfg = Some true ->
     info !! "avatar_url" = Some url ->
     session_get env url = inr (200%Z, inr image_bytes) ->
     edit_avatar env image_bytes = None ->
     identity_avatar i' = Some image_bytes) /\
  (identity_avatar i' <> identity_avatar i ->
   exists info url image_bytes,
     get_bot_info env = inr info /\
     use_cai_avatar cfg = Some true /\
     info !! "avatar_url" = Some url /\
     session_get env url = inr (200%Z, inr image_bytes) /\
     edit_avatar env image_bytes = None /\
     identity_avatar i' = Some image_bytes).
Proof.
  intros i'. destruct (sync_config_result cfg env i) as (_ & _ & Ha).
  fold i' in Ha. unfold new_avatar in Ha. split.
  - intros info url image_bytes Hinfo Hflag Hurl Hget Hedit.
    rewrite Hinfo, Hflag in Ha. simpl in Ha.
    now rewrite Hurl, Hget, Hedit in Ha.
  - intros Hne.
    destruct (get_bot_info env) as [e | info]; [congruence |].
    destruct (use_cai_avatar cfg) as [[] |]; simpl in Ha; try congruence.
    destruct (info !! "avatar_url") as [url |] eqn:Hurl; [| congruence].
    destruct (session_get env url) as [e | [status [e | image_bytes]]] eqn:Hget;
      try congruence.
    destruct (status =? 200)%Z eqn:Hs; [| congruence].
    apply Z.eqb_eq in Hs. subst status.
    destruct (edit_avatar env image_bytes) eqn:Hedit; [congruence |].
    exists info, url, image_bytes. repeat split; assumption || reflexivity.
Qed.

(** The platform refuses the new name and accepts the new picture: the
    name stays and the picture is installed. *)
Lemma avatar_changes_only_on_status_200_witness :
  let cfg := {| use_cai_display_name := Some true;
                use_cai_avatar := Some true |} in
  let i' := snd (sync_config cfg sample_profile_env sample_identity) in
  identity_username i' = "bridge" /\
  identity_avatar i' = Some "PNG:https://cdn/a.png".
Proof.
  intros cfg i'. split; [reflexivity |].
  destruct (avatar_changes_only_on_status_200 cfg sample_profile_env
              sample_identity) as (H & _).
  exact (H _ "https://cdn/a.png" "PNG:https://cdn/a.png"
           eq_refl eq_refl eq_refl eq_refl eq_refl).
Defined.

(** Synchronising twice in a row, with collaborators that answer the same,
    leaves the name and the picture that synchronising once leaves. *)
Theorem sync_config_is_idempotent
    (cfg : ProfileConfig) (env : ProfileEnv) (i : Identity) :
  let once := snd (sync_config cfg env i) in
  let twice := snd (sync_config cfg env once) in
  identity_username twice = identity_username once /\
  identity_avatar twice = identity_avatar once.
Proof.
  intros once twice.
  destruct (sync_config_result cfg env i) as (_ & Hu & Ha).
  destruct (sync_config_result cfg env once) as (_ & Hu' & Ha').
  fold once in Hu, Ha. fold twice in Hu', Ha'.
  rewrite Hu', Ha', Hu, Ha.
  destruct (new_username cfg env), (new_avatar cfg env); auto.
Qed.

(** * Merging configurations *)

(** ** Dictionaries as ordered lists of items *)

Lemma dict_get_None key d : dict_get key d = None <-> key ∉ keys d.
Proof.
  induction d as [| [k v] d IH]; simpl.
  - split; [intros _ H; now apply elem_of_nil in H | reflexivity].
  - destruct (decide (key = k)) as [-> | Hne].
    + split; [discriminate |]. intros H. exfalso. apply H. now left.
    + rewrite IH. split.
      * intros H Hin. apply elem_of_cons in Hin. destruct Hin; auto.
      * intros H Hin. apply H. now right.
Qed.

Lemma dict_get_Some_keys key d v : dict_get key d = Some v -> key ∈ keys d.
Proof.
  intros H. destruct (decide (key ∈ keys d)) as [Hin | Hnot]; [exact Hin |].
  apply dict_get_None in Hnot. congruence.
Qed.

Lemma dict_set_fresh key value d :
  key ∉ keys d -> dict_set key value d = d ++ [(key, value)].
Proof.
  induction d as [| [k v] d IH]; simpl; intros H; [reflexivity |].
  destruct (decide (key = k)) as [-> | Hne].
  - exfalso. apply H. now left.
  - rewrite IH; [reflexivity |]. intros Hin. apply H. now right.
Qed.

Lemma dict_get_app key d1 d2 :
  dict_get key (d1 ++ d2)
  = match dict_get key d1 with
    | Some v => Some v
    | None => dict_get key d2
    end.
Proof.
  induction d1 as [| [k v] d1 IH]; simpl; [reflexivity |].
  destruct (decide (key = k)); [reflexivity | exact IH].
Qed.

Lemma dict_get_set key k value d :
  dict_get key (dict_set k value d)
  = if decide (key = k) then Some value else dict_get key d.
Proof.
  induction d as [| [k' v'] d IH]; simpl.
  - destruct (decide (key = k)); reflexivity.
  - destruct (decide (k = k')) as [-> | Hne]; simpl.
    + destruct (decide (key = k')); reflexivity.
    + destruct (decide (key = k')) as [-> | Hne'].
      * destruct (decide (k' = k)); [congruence | reflexivity].
      * exact IH.
Qed.

Lemma keys_dict_set_present key value d :
  key ∈ keys d -> keys (dict_set key value d) = keys d.
Proof.
  induction d as [| [k v] d IH]; simpl; intros H.
  - now apply elem_of_nil in H.
  - destruct (decide (key = k)) as [-> | Hne]; [reflexivity |].
    simpl. f_equal. apply IH. apply elem_of_cons in H.
    destruct H; [congruence | assumption].
Qed.

(** ** The two loops of [merge_ordered] *)

Section Loops.

Variable merge : Yaml -> Yaml -> Yaml.
Variables user_cfg default_cfg : list (string * Yaml).
Variables uca dca : gmap string string.

Lemma first_loop_items items :
  forall m c,
    NoDup (keys items) ->
    (forall k, k ∈ keys items -> k ∉ keys m) ->
    fst (fold_left (merge_default_item merge user_cfg uca dca) items (m, c))
    = m ++ map (fun item =>
                  (fst item,
                   match dict_get (fst item) user_cfg with
                   | Some user_val => merge (snd item) user_val
                   | None => snd item
                   end)) items.
Proof.
  induction items as [| [k v] items IH]; intros m c Hnd Hfresh; simpl.
  - now rewrite app_nil_r.
  - unfold keys in Hnd. simpl in Hnd. apply NoDup_cons in Hnd.
    destruct Hnd as [Hk Hnd].
    unfold merge_default_item at 2. simpl.
    rewrite dict_set_fresh by (apply Hfresh; now left).
    rewrite IH; [now rewrite <- app_assoc | exact Hnd |].
    intros k' Hk' Hin. unfold keys in Hin. rewrite fmap_app in Hin.
    apply elem_of_app in Hin. destruct Hin as [Hin | Hin].
    + apply (Hfresh k'); [now right | exact Hin].
    + simpl in Hin. apply list_elem_of_singleton in Hin. subst k'.
      now apply Hk.
Qed.

Lemma first_loop_comments items :
  forall m c key,
    snd (fold_left (merge_default_item merge user_cfg uca dca) items (m, c))
      !! key
    = if decide (key ∈ keys items)
      then match uca !! key with
           | Some x => Some x
           | None => match dca !! key with
                     | Some x => Some x
                     | None => c !! key
                     end
           end
      else c !! key.
Proof.
  induction items as [| [k v] items IH]; intros m c key; simpl.
  - destruct (decide (key ∈ keys [])) as [H | _]; [| reflexivity].
    now apply elem_of_nil in H.
  - unfold merge_default_item at 2. simpl. rewrite IH.
    assert (Hstep :
      (match uca !! k with
       | Some x => <[k := x]> c
       | None => copy_comment k dca c
       end) !! key
      = if decide (key = k)
        then match uca !! key with
             | Some x => Some x
             | None => match dca !! key with
                       | Some x => Some x
                       | None => c !! key
                       end
             end
        else c !! key).
    { unfold copy_comment. destruct (decide (key = k)) as [-> | Hne].
      - destruct (uca !! k); [now rewrite lookup_insert_eq |].
        destruct (dca !! k); [now rewrite lookup_insert_eq | reflexivity].
      - destruct (uca !! k); [now rewrite lookup_insert_ne |].
        destruct (dca !! k); [now rewrite lookup_insert_ne | reflexivity]. }
    change (keys ((k, v) :: items)) with (k :: keys items).
    destruct (decide (key ∈ keys items)) as [Hin | Hnot].
    + rewrite decide_True by (now right).
      rewrite Hstep. destruct (decide (key = k)); [| reflexivity].
      destruct (uca !! key); [reflexivity |]. now destruct (dca !! key).
    + rewrite Hstep. destruct (decide (key = k)) as [-> | Hne].
      * now rewrite decide_True by (now left).
      * rewrite decide_False; [reflexivity |].
        intros H. apply elem_of_cons in H. destruct H; auto.
Qed.

Lemma second_loop_items items :
  forall m c,
    NoDup (keys items) ->
    (forall k, k ∈ keys items -> dict_get k default_cfg = None -> k ∉ keys m) ->
    fst (fold_left (append_extra_item default_cfg uca) items (m, c))
    = m ++ filter (fun item => dict_get (fst item) default_cfg = None) items.
Proof.
  induction items as [| [k v] items IH]; intros m c Hnd Hfresh; simpl.
  - now rewrite app_nil_r.
  - unfold keys in Hnd. simpl in Hnd. apply NoDup_cons in Hnd.
    destruct Hnd as [Hk Hnd].
    rewrite filter_cons. unfold append_extra_item at 2. simpl.
    destruct (dict_get k default_cfg) as [dv |] eqn:Hd.
    + destruct (decide (Some dv = None)); [discriminate |].
      apply IH; [exact Hnd |].
      intros k' Hk'. apply Hfresh. now right.
    + destruct (decide (None = None)); [| congruence].
      rewrite dict_set_fresh by (apply Hfresh; [now left | exact Hd]).
      rewrite IH; [now rewrite <- app_assoc | exact Hnd |].
      intros k' Hk' Hd' Hin. unfold keys in Hin. rewrite fmap_app in Hin.
      apply elem_of_app in Hin. destruct Hin as [Hin | Hin].
      * apply (Hfresh k'); [now right | exact Hd' | exact Hin].
      * simpl in Hin. apply list_elem_of_singleton in Hin. subst k'.
        now apply Hk.
Qed.

Lemma second_loop_comments items :
  forall m c key,
    snd (fold_left (append_extra_item default_cfg uca) items (m, c)) !! key
    = if decide (key ∈ keys items /\ dict_get key default_cfg = None)
      then match uca !! key with
           | Some x => Some x
           | None => c !! key
           end
      else c !! key.
Proof.
  induction items as [| [k v] items IH]; intros m c key; cbn [fold_left].
  - destruct (decide _) as [[H _] | _]; [| reflexivity].
    now apply elem_of_nil in H.
  - unfold append_extra_item at 2. cbn [fst snd].
    destruct (dict_get k default_cfg) as [dv |] eqn:Hd.
    + rewrite IH. change (keys ((k, v) :: items)) with (k :: keys items).
      destruct (decide (key ∈ keys items /\ dict_get key default_cfg = None))
        as [[Hin Hk] | Hnot].
      * rewrite decide_True; [reflexivity |]. split; [now right | exact Hk].
      * rewrite decide_False; [reflexivity |].
        intros [Hin Hk]. apply Hnot. split; [| exact Hk].
        apply elem_of_cons in Hin. destruct Hin as [-> | Hin]; [congruence |].
        exact Hin.
    + rewrite IH. change (keys ((k, v) :: items)) with (k :: keys items).
      unfold copy_comment.
      destruct (decide (key ∈ keys items /\ dict_get key default_cfg = None))
        as [[Hin Hk] | Hnot].
      * rewrite decide_True by (split; [now right | exact Hk]).
        destruct (uca !! key) eqn:Hu; [reflexivity |].
        destruct (decide (key = k)) as [-> | Hne].
        -- now rewrite Hu.
        -- destruct (uca !! k); [now rewrite lookup_insert_ne | reflexivity].
      * destruct (decide (key = k)) as [-> | Hne].
        -- rewrite decide_True by (split; [now left | exact Hd]).
           destruct (uca !! k); [now rewrite lookup_insert_eq | reflexivity].
        -- rewrite decide_False.
           ++ destruct (uca !! k); [now rewrite lookup_insert_ne | reflexivity].
           ++ intros [Hin Hk]. apply Hnot. split; [| exact Hk].
              apply elem_of_cons in Hin. destruct Hin; [congruence | assumption].
Qed.

End Loops.

Lemma merge_value_maps default_cfg dca user_cfg uca :
  merge_value (YMap default_cfg dca) (YMap user_cfg uca)
  = YMap
      (fst (fold_left (append_extra_item default_cfg uca) user_cfg
              (fold_left (merge_default_item merge_value user_cfg uca dca)
                 default_cfg ([], ∅))))
      (snd (fold_left (append_extra_item default_cfg uca) user_cfg
              (fold_left (merge_default_item merge_value user_cfg uca dca)
                 default_cfg ([], ∅)))).
Proof. reflexivity. Qed.

(** The merge of two dictionaries in closed form. *)
Lemma merge_ordered_maps user_cfg uca default_cfg dca :
  NoDup (keys default_cfg) ->
  NoDup (keys user_cfg) ->
  exists ca,
    merge_ordered (YMap user_cfg uca) (YMap default_cfg dca)
    = YMap (merged_items user_cfg default_cfg) ca /\
    forall key,
      ca !! key
      = if decide (key ∈ keys default_cfg)
        then match uca !! key with
             | Some x => Some x
             | None => dca !! key
             end
        else if decide (key ∈ keys user_cfg) then uca !! key else None.
Proof.
  intros Hd Hu. unfold merge_ordered. rewrite merge_value_maps.
  destruct (fold_left (merge_default_item merge_value user_cfg uca dca)
              default_cfg ([], ∅)) as [m1 c1] eqn:Hfirst.
  pose proof (first_loop_items merge_value user_cfg uca dca default_cfg [] ∅ Hd)
    as Hm1.
  rewrite Hfirst in Hm1. simpl in Hm1.
  specialize (Hm1 (fun k _ H => proj1 (elem_of_nil k) H)).
  assert (Hc1 : forall key,
             c1 !! key
             = if decide (key ∈ keys default_cfg)
               then match uca !! key with
                    | Some x => Some x
                    | None => dca !! key
                    end
               else None).
  { intros key.
    pose proof (first_loop_comments merge_value user_cfg uca dca default_cfg
                  [] ∅ key) as H.
    rewrite Hfirst in H. simpl in H. rewrite H.
    destruct (decide (key ∈ keys default_cfg)); [| apply lookup_empty].
    destruct (uca !! key); [reflexivity |].
    destruct (dca !! key); [reflexivity | apply lookup_empty]. }
  eexists. split.
  - f_equal. rewrite second_loop_items; [now rewrite Hm1 | exact Hu |].
    intros k _ Hk Hin. subst m1. unfold keys in Hin.
    rewrite <- list_fmap_compose in Hin. simpl in Hin.
    apply dict_get_None in Hk. now apply Hk.
  - intros key. rewrite second_loop_comments, Hc1.
    destruct (decide (key ∈ keys default_cfg)) as [Hin | Hnot].
    + rewrite decide_False; [reflexivity |].
      intros [_ Hk]. apply dict_get_None in Hk. now apply Hk.
    + apply dict_get_None in Hnot.
      destruct (decide (key ∈ keys user_cfg)) as [Hin | Hnot'].
      * rewrite decide_True by (split; assumption). now destruct (uca !! key).
      * rewrite decide_False; [reflexivity |]. now intros [H _].
Qed.

Lemma keys_merged_items user_cfg default_cfg :
  keys (merged_items user_cfg default_cfg)
  = keys default_cfg ++ filter (fun k => k ∉ keys default_cfg) (keys user_cfg).
Proof.
  unfold merged_items, keys. rewrite fmap_app. f_equal.
  - rewrite <- list_fmap_compose. reflexivity.
  - induction user_cfg as [| [k v] u IH]; [reflexivity |].
    rewrite fmap_cons, !filter_cons. simpl.
    destruct (decide (dict_get k default_cfg = None)) as [Hk | Hk];
      destruct (decide (k ∉ map fst default_cfg)) as [Hn | Hn]; simpl.
    + f_equal. exact IH.
    + exfalso. apply Hn. now apply dict_get_None.
    + exfalso. apply Hk. now apply dict_get_None.
    + exact IH.
Qed.

Lemma dict_get_merged_defaults user_cfg d key :
  dict_get key
    (map (fun item =>
            (fst item,
             match dict_get (fst item) user_cfg with
             | Some user_val => merge_value (snd item) user_val
             | None => snd item
             end)) d)
  = match dict_get key d with
    | Some default_val =>
        Some match dict_get key user_cfg with
             | Some user_val => merge_value default_val user_val
             | None => default_val
             end
    | None => None
    end.
Proof.
  induction d as [| [k v] d IH]; simpl; [reflexivity |].
  destruct (decide (key = k)) as [-> | Hne]; [reflexivity | exact IH].
Qed.

Lemma dict_get_extras default_cfg u key :
  dict_get key default_cfg = None ->
  dict_get key (filter (fun item => dict_get (fst item) default_cfg = None) u)
  = dict_get key u.
Proof.
  intros Hd. induction u as [| [k v] u IH]; [reflexivity |].
  rewrite filter_cons. simpl.
  destruct (decide (dict_get k default_cfg = None)) as [Hk | Hk]; simpl.
  - destruct (decide (key = k)); [reflexivity | exact IH].
  - destruct (decide (key = k)) as [-> | Hne]; [congruence | exact IH].
Qed.

Lemma dict_get_merged_items user_cfg default_cfg key :
  dict_get key (merged_items user_cfg default_cfg)
  = match dict_get key default_cfg with
    | Some default_val =>
        Some match dict_get key user_cfg with
             | Some user_val => merge_value default_val user_val
             | None => default_val
             end
    | None => dict_get key user_cfg
    end.
Proof.
  unfold merged_items. rewrite dict_get_app, dict_get_merged_defaults.
  destruct (dict_get key default_cfg) eqn:Hd; [reflexivity |].
  now apply dict_get_extras.
Qed.

Lemma merge_value_cases default_val user_val :
  merge_value default_val user_val
  = match default_val, user_val with
    | YMap _ _, YMap _ _ => merge_ordered user_val default_val
    | _, _ => user_val
    end.
Proof. destruct default_val, user_val; reflexivity. Qed.

(** ** What [merge_ordered] keeps *)

(** The merged configuration has the keys of the default, in the order of
    the default, followed by the keys that only the user has, in the
    user's order; no key is lost and none appears twice. *)
Theorem merge_ordered_key_order
    (user_cfg default_cfg : list (string * Yaml)) (uca dca : gmap string string) :
  NoDup (keys default_cfg) ->
  NoDup (keys user_cfg) ->
  exists items ca,
    merge_ordered (YMap user_cfg uca) (YMap default_cfg dca) = YMap items ca /\
    keys items
    = keys default_cfg ++ filter (fun k => k ∉ keys default_cfg) (keys user_cfg) /\
    NoDup (keys items) /\
    (forall k, k ∈ keys items <-> k ∈ keys default_cfg \/ k ∈ keys user_cfg).
Proof.
  intros Hd Hu.
  destruct (merge_ordered_maps user_cfg uca default_cfg dca Hd Hu)
    as (ca & Heq & _).
  exists (merged_items user_cfg default_cfg), ca.
  split; [exact Heq |]. split; [apply keys_merged_items |].
  rewrite keys_merged_items. split.
  - apply NoDup_app. split; [exact Hd |]. split.
    + intros k Hk Hin. apply list_elem_of_filter in Hin. now destruct Hin.
    + now apply NoDup_filter.
  - intros k. rewrite elem_of_app, list_elem_of_filter. split.
    + intros [H | [_ H]]; auto.
    + intros [H | H]; [now left |].
      destruct (decide (k ∈ keys default_cfg)); [now left | now right].
Qed.

Lemma merge_ordered_key_order_witness :
  exists items ca,
    merge_ordered user_yaml default_yaml = YMap items ca /\
    keys items = ["version"; "Discord"; "Options"; "nickname"].
Proof.
  destruct (merge_ordered_key_order
              [("Discord", YMap [("token", YScalar "abc123")] ∅);
               ("nickname", YScalar "bridge");
               ("version", YScalar "1.0.2")]
              [("version", YScalar "1.0.4");
               ("Discord",
                YMap [("token", YScalar "YOUR_DISCORD_BOT_TOKEN");
                      ("messages_cache", YScalar "messages_cache.json")]
                     {[ "token" := "# keep this token secure" ]});
               ("Options", YMap [("auto_update", YScalar "true")] ∅)]
              {[ "nickname" := "# mine" ]}
              {[ "version" := "# Don't touch here" ]})
    as (items & ca & Heq & Hk & _).
  - apply (bool_decide_unpack _). vm_compute. reflexivity.
  - apply (bool_decide_unpack _). vm_compute. reflexivity.
  - exists items, ca. split; [exact Heq |]. rewrite Hk.
    vm_compute. reflexivity.
Defined.

(** In the merged configuration a key that only one side has keeps that
    side's value; for a key that both have, the user's value wins, except
    that two dictionaries are merged in their turn. *)
Theorem merge_ordered_values
    (user_cfg default_cfg : list (string * Yaml)) (uca dca : gmap string string) :
  NoDup (keys default_cfg) ->
  NoDup (keys user_cfg) ->
  exists items ca,
    merge_ordered (YMap user_cfg uca) (YMap default_cfg dca) = YMap items ca /\
    forall key,
      dict_get key items
      = match dict_get key default_cfg, dict_get key user_cfg with
        | Some (YMap d c), Some (YMap u c') =>
            Some (merge_ordered (YMap u c') (YMap d c))
        | Some _, Some user_val => Some user_val
        | Some default_val, None => Some default_val
        | None, user_val => user_val
        end.
Proof.
  intros Hd Hu.
  destruct (merge_ordered_maps user_cfg uca default_cfg dca Hd Hu)
    as (ca & Heq & _).
  exists (merged_items user_cfg default_cfg), ca.
  split; [exact Heq |]. intros key. rewrite dict_get_merged_items.
  destruct (dict_get key default_cfg) as [dv |]; [| reflexivity].
  destruct (dict_get key user_cfg) as [uv |]; [| now destruct dv].
  rewrite merge_value_cases. destruct dv, uv; reflexivity.
Qed.

(** The user's token survives, the missing key is filled in from the
    default, and the user's own key is kept. *)
Lemma merge_ordered_values_witness :
  exists items ca,
    merge_ordered user_yaml default_yaml = YMap items ca /\
    dict_get "nickname" items = Some (YScalar "bridge") /\
    dict_get "Options" items = Some (YMap [("auto_update", YScalar "true")] ∅) /\
    exists section c,
      dict_get "Discord" items = Some (YMap section c) /\
      dict_get "token" section = Some (YScalar "abc123") /\
      dict_get "messages_cache" section = Some (YScalar "messages_cache.json").
Proof.
  destruct (merge_ordered_values
              [("Discord", YMap [("token", YScalar "abc123")] ∅);
               ("nickname", YScalar "bridge");
               ("version", YScalar "1.0.2")]
              [("version", YScalar "1.0.4");
               ("Discord",
                YMap [("token", YScalar "YOUR_DISCORD_BOT_TOKEN");
                      ("messages_cache", YScalar "messages_cache.json")]
                     {[ "token" := "# keep this token secure" ]});
               ("Options", YMap [("auto_update", YScalar "true")] ∅)]
              {[ "nickname" := "# mine" ]}
              {[ "version" := "# Don't touch here" ]})
    as (items & ca & Heq & Hget).
  - apply (bool_decide_unpack _). vm_compute. reflexivity.
  - apply (bool_decide_unpack _). vm_compute. reflexivity.
  - exists items, ca. split; [exact Heq |].
    split; [rewrite Hget; reflexivity |].
    split; [rewrite Hget; reflexivity |].
    eexists _, _. split; [rewrite Hget; reflexivity |].
    split; reflexivity.
Defined.

(** The comment kept for a key of the default is the user's, if the user's
    file has one for that key, and the default's otherwise; a key that only
    the user has keeps the user's comment. *)
Theorem merge_ordered_comments
    (user_cfg default_cfg : list (string * Yaml)) (uca dca : gmap string string) :
  NoDup (keys default_cfg) ->
  NoDup (keys user_cfg) ->
  exists items ca,
    merge_ordered (YMap user_cfg uca) (YMap default_cfg dca) = YMap items ca /\
    (forall key, key ∈ keys default_cfg ->
                 ca !! key = match uca !! key with
                             | Some x => Some x
                             | None => dca !! key
                             end) /\
    (forall key, key ∉ keys default_cfg -> key ∈ keys user_cfg ->
                 ca !! key = uca !! key) /\
    (forall key, key ∉ keys default_cfg -> key ∉ keys user_cfg ->
                 ca !! key = None).
Proof.
  intros Hd Hu.
  destruct (merge_ordered_maps user_cfg uca default_cfg dca Hd Hu)
    as (ca & Heq & Hca).
  exists (merged_items user_cfg default_cfg), ca.
  split; [exact Heq |]. split; [| split].
  - intros key Hin. rewrite Hca. now rewrite decide_True.
  - intros key Hnot Hin. rewrite Hca.
    rewrite decide_False by exact Hnot. now rewrite decide_True.
  - intros key Hnot Hnot'. rewrite Hca.
    rewrite decide_False by exact Hnot. now rewrite decide_False.
Qed.

Lemma merge_ordered_comments_witness :
  exists items ca,
    merge_ordered user_yaml default_yaml = YMap items ca /\
    ca !! "version" = Some "# Don't touch here" /\
    ca !! "nickname" = Some "# mine".
Proof.
  destruct (merge_ordered_comments
              [("Discord", YMap [("token", YScalar "abc123")] ∅);
               ("nickname", YScalar "bridge");
               ("version", YScalar "1.0.2")]
              [("version", YScalar "1.0.4");
               ("Discord",
                YMap [("token", YScalar "YOUR_DISCORD_BOT_TOKEN");
                      ("messages_cache", YScalar "messages_cache.json")]
                     {[ "token" := "# keep this token secure" ]});
               ("Options", YMap [("auto_update", YScalar "true")] ∅)]
              {[ "nickname" := "# mine" ]}
              {[ "version" := "# Don't touch here" ]})
    as (items & ca & Heq & H1 & H2 & _).
  - apply (bool_decide_unpack _). vm_compute. reflexivity.
  - apply (bool_decide_unpack _). vm_compute. reflexivity.
  - exists items, ca. split; [exact Heq |]. split.
    + rewrite H1; [reflexivity |]. apply (bool_decide_unpack _). reflexivity.
    + rewrite H2; [reflexivity | |]; apply (bool_decide_unpack _); reflexivity.
Defined.

(** ** [merge_configs] *)

(** The configuration that [merge_configs] builds from a user's file is the
    merge of the file with the default, with the default's version put in
    the place of whatever version the merge had: same keys in the same
    order, same values for all other keys.  Without a user's file it is the
    default itself. *)
Theorem merge_configs_takes_the_default_version
    (user_cfg default_cfg : list (string * Yaml)) (uca dca : gmap string string)
    (v : Yaml) :
  NoDup (keys default_cfg) ->
  NoDup (keys user_cfg) ->
  dict_get "version" default_cfg = Some v ->
  merge_configs None (YMap default_cfg dca) = YMap default_cfg dca /\
  exists merged items ca,
    merge_ordered (YMap user_cfg uca) (YMap default_cfg dca) = YMap merged ca /\
    merge_configs (Some (YMap user_cfg uca)) (YMap default_cfg dca)
    = YMap items ca /\
    dict_get "version" items = Some v /\
    keys items = keys merged /\
    forall key, key <> "version" -> dict_get key items = dict_get key merged.
Proof.
  intros Hd Hu Hv. split; [reflexivity |].
  destruct (merge_ordered_maps user_cfg uca default_cfg dca Hd Hu)
    as (ca & Heq & _).
  exists (merged_items user_cfg default_cfg),
         (dict_set "version" v (merged_items user_cfg default_cfg)), ca.
  split; [exact Heq |]. split.
  { unfold merge_configs. rewrite Heq, Hv. reflexivity. }
  split; [rewrite dict_get_set; now rewrite decide_True |]. split.
  - apply keys_dict_set_present. rewrite keys_merged_items.
    apply elem_of_app. left. now apply (dict_get_Some_keys _ _ v).
  - intros key Hne. rewrite dict_get_set. now rewrite decide_False.
Qed.

(** The user's file says version 1.0.2; the merged configuration says
    1.0.4 and keeps the user's token. *)
Lemma merge_configs_takes_the_default_version_witness :
  exists items ca section c,
    merge_configs (Some user_yaml) default_yaml = YMap items ca /\
    dict_get "version" items = Some (YScalar "1.0.4") /\
    dict_get "Discord" items = Some (YMap section c) /\
    dict_get "token" section = Some (YScalar "abc123").
Proof.
  destruct (merge_configs_takes_the_default_version
              [("Discord", YMap [("token", YScalar "abc123")] ∅);
               ("nickname", YScalar "bridge");
               ("version", YScalar "1.0.2")]
              [("version", YScalar "1.0.4");
               ("Discord",
                YMap [("token", YScalar "YOUR_DISCORD_BOT_TOKEN");
                      ("messages_cache", YScalar "messages_cache.json")]
                     {[ "token" := "# keep this token secure" ]});
               ("Options", YMap [("auto_update", YScalar "true")] ∅)]
              {[ "nickname" := "# mine" ]}
              {[ "version" := "# Don't touch here" ]}
              (YScalar "1.0.4"))
    as (_ & merged & items & ca & Hm & Heq & Hv & _ & Hother).
  - apply (bool_decide_unpack _). vm_compute. reflexivity.
  - apply (bool_decide_unpack _). vm_compute. reflexivity.
  - reflexivity.
  - exists items, ca. eexists _, _. split; [exact Heq |]. split; [exact Hv |].
    rewrite Hother by discriminate.
    injection Hm as <- _. split; reflexivity.
Defined.

(** ** Merging again *)

Lemma Yaml_deep_ind (P : Yaml -> Prop) :
  P YNull ->
  (forall v, P (YScalar v)) ->
  (forall items ca, Forall (fun item => P (snd item)) items -> P (YMap items ca)) ->
  forall y, P y.
Proof.
  intros Hnull Hscalar Hmap.
  fix IH 1. intros [| v | items ca].
  - exact Hnull.
  - apply Hscalar.
  - apply Hmap. induction items as [| [k v] items IHitems].
    + constructor.
    + constructor; [apply IH | exact IHitems].
Qed.

Lemma well_formed_items items ca :
  well_formed (YMap items ca) ->
  Forall (fun item => well_formed (snd item)) items.
Proof.
  intros (_ & _ & H). induction items as [| item items IH]; simpl in *.
  - constructor.
  - destruct H as [H1 H2]. constructor; [exact H1 | now apply IH].
Qed.

Lemma dict_get_of_item d k v :
  NoDup (keys d) -> (k, v) ∈ d -> dict_get k d = Some v.
Proof.
  induction d as [| [k' v'] d IH]; intros Hnd Hin.
  - now apply elem_of_nil in Hin.
  - unfold keys in Hnd. simpl in Hnd. apply NoDup_cons in Hnd.
    destruct Hnd as [Hk Hnd]. simpl.
    apply elem_of_cons in Hin. destruct Hin as [Heq | Hin].
    + injection Heq as -> ->. now rewrite decide_True.
    + destruct (decide (k = k')) as [-> | Hne]; [| now apply IH].
      exfalso. apply Hk. apply list_elem_of_fmap. exists (k', v). auto.
Qed.

Lemma no_extras_of_itself d :
  filter (fun item => dict_get (fst item) d = None) d = [].
Proof.
  assert (H : forall l : list (string * Yaml),
             (forall item, item ∈ l -> fst item ∈ keys d) ->
                        filter (fun item => dict_get (fst item) d = None) l = []).
  { induction l as [| item l IH]; intros Hl; [reflexivity |].
    rewrite filter_cons_False.
    - apply IH. intros item' Hin. apply Hl. now right.
    - intros Hnone. apply dict_get_None in Hnone. apply Hnone, Hl. now left. }
  apply H. intros item Hin. apply list_elem_of_fmap. exists item. auto.
Qed.

Lemma merge_value_itself y :
  well_formed y -> merge_value y y = y.
Proof.
  induction y as [| v | items ca IH] using Yaml_deep_ind; intros Hwf;
    [reflexivity | reflexivity |].
  pose proof (well_formed_items items ca Hwf) as Hsub.
  destruct Hwf as (Hnd & Hca & _).
  destruct (merge_ordered_maps items ca items ca Hnd Hnd) as (ca' & Heq & Hca').
  unfold merge_ordered in Heq. rewrite Heq. f_equal.
  - unfold merged_items. rewrite no_extras_of_itself, app_nil_r.
    transitivity (map id items); [| apply map_id]. apply map_ext_in.
    intros [k v] Hin. apply list_elem_of_In in Hin. simpl.
    rewrite (dict_get_of_item items k v Hnd Hin). f_equal.
    rewrite Forall_forall in IH, Hsub.
    apply (IH (k, v) Hin), (Hsub (k, v) Hin).
  - apply map_eq. intros key. rewrite Hca'.
    destruct (decide (key ∈ keys items)) as [Hin | Hnot].
    + now destruct (ca !! key).
    + destruct (ca !! key) eqn:Hc; [| reflexivity].
      exfalso. apply Hnot, Hca. congruence.
Qed.

(** A dictionary merged with itself is unchanged: for a file that already
    is the default, the merge gives the same items, in the same order, with
    the same comments, at every depth. *)
Theorem merge_ordered_with_itself
    (cfg : list (string * Yaml)) (ca : gmap string string) :
  well_formed (YMap cfg ca) ->
  merge_ordered (YMap cfg ca) (YMap cfg ca) = YMap cfg ca.
Proof. apply merge_value_itself. Qed.

Lemma merge_ordered_with_itself_witness :
  merge_ordered default_yaml default_yaml = default_yaml.
Proof.
  unfold default_yaml at 1 2 3. apply merge_ordered_with_itself.
  cbn [well_formed fold_right snd].
  repeat split; try (apply (bool_decide_unpack _); vm_compute; reflexivity).
  - intros key Hkey.
    destruct (decide (key = "version")) as [-> | Hne]; [now left |].
    exfalso. apply Hkey. apply lookup_singleton_ne. congruence.
  - intros key Hkey.
    destruct (decide (key = "token")) as [-> | Hne]; [now left |].
    exfalso. apply Hkey. apply lookup_singleton_ne. congruence.
  - intros key Hkey. exfalso. apply Hkey. apply lookup_empty.
Defined.

Lemma dict_get_elem d k v : dict_get k d = Some v -> (k, v) ∈ d.
Proof.
  induction d as [| [k' v'] d IH]; simpl; [discriminate |].
  destruct (decide (k = k')) as [-> | Hne].
  - intros [= ->]. now left.
  - intros H. right. now apply IH.
Qed.

Lemma NoDup_keys_merged_items user_cfg default_cfg :
  NoDup (keys default_cfg) -> NoDup (keys user_cfg) ->
  NoDup (keys (merged_items user_cfg default_cfg)).
Proof.
  intros Hd Hu. rewrite keys_merged_items.
  apply NoDup_app. split; [exact Hd |]. split.
  - intros k Hk Hin. apply list_elem_of_filter in Hin. now destruct Hin.
  - now apply NoDup_filter.
Qed.

Lemma extras_of_merged_items user_cfg default_cfg :
  filter (fun item => dict_get (fst item) default_cfg = None)
    (merged_items user_cfg default_cfg)
  = filter (fun item => dict_get (fst item) default_cfg = None) user_cfg.
Proof.
  unfold merged_items. rewrite filter_app.
  assert (H : forall l : list (string * Yaml),
             (forall item, item ∈ l -> fst item ∈ keys default_cfg) ->
             filter (fun item => dict_get (fst item) default_cfg = None) l = []).
  { induction l as [| item l IH]; intros Hl; [reflexivity |].
    rewrite filter_cons_False.
    - apply IH. intros item' Hin. apply Hl. now right.
    - intros Hnone. apply dict_get_None in Hnone. apply Hnone, Hl. now left. }
  rewrite H.
  - simpl. rewrite list_filter_filter. apply list_filter_iff. tauto.
  - intros item Hin. apply list_elem_of_fmap in Hin.
    destruct Hin as (item0 & -> & Hin). simpl.
    apply list_elem_of_fmap. exists item0. auto.
Qed.

Lemma merge_value_again default_val :
  forall user_val,
    well_formed default_val -> well_formed user_val ->
    merge_value default_val (merge_value default_val user_val)
    = merge_value default_val user_val.
Proof.
  induction default_val as [| v | d dca IH] using Yaml_deep_ind;
    intros user_val Hwd Hwu; try (destruct user_val; reflexivity).
  destruct user_val as [| v | u uca]; try reflexivity.
  pose proof (well_formed_items d dca Hwd) as Hsubd.
  pose proof (well_formed_items u uca Hwu) as Hsubu.
  destruct Hwd as (Hd & _ & _). destruct Hwu as (Hu & _ & _).
  destruct (merge_ordered_maps u uca d dca Hd Hu) as (ca1 & Heq1 & Hca1).
  unfold merge_ordered in Heq1. rewrite Heq1.
  pose proof (NoDup_keys_merged_items u d Hd Hu) as Hm.
  destruct (merge_ordered_maps (merged_items u d) ca1 d dca Hd Hm)
    as (ca2 & Heq2 & Hca2).
  unfold merge_ordered in Heq2. rewrite Heq2. f_equal.
  - unfold merged_items at 1. rewrite extras_of_merged_items.
    unfold merged_items at 2. f_equal. apply map_ext_in.
    intros [k v] Hin. apply list_elem_of_In in Hin. simpl. f_equal.
    rewrite dict_get_merged_items, (dict_get_of_item d k v Hd Hin).
    rewrite Forall_forall in IH, Hsubd, Hsubu.
    destruct (dict_get k u) as [uv |] eqn:Hku.
    + apply (IH (k, v) Hin); [exact (Hsubd (k, v) Hin) |].
      exact (Hsubu (k, uv) (dict_get_elem u k uv Hku)).
    + apply merge_value_itself. exact (Hsubd (k, v) Hin).
  - apply map_eq. intros key. rewrite Hca2, !Hca1.
    destruct (decide (key ∈ keys d)) as [Hin | Hnot].
    + destruct (uca !! key); [reflexivity |]. now destruct (dca !! key).
    + rewrite keys_merged_items.
      destruct (decide (key ∈ keys u)) as [Hinu | Hnotu].
      * rewrite decide_True; [reflexivity |].
        apply elem_of_app. right. now apply list_elem_of_filter.
      * rewrite decide_False; [reflexivity |].
        intros H. apply elem_of_app in H. destruct H as [H | H]; [auto |].
        apply list_elem_of_filter in H. now destruct H.
Qed.

(** Merging is stable: the merge of two dictionaries is a dictionary, and
    merged with the same default once more it is unchanged.  A
    configuration file that was brought up to date is not altered by a
    second update against the same default. *)
Theorem merge_ordered_is_idempotent
    (user_cfg default_cfg : list (string * Yaml)) (uca dca : gmap string string) :
  well_formed (YMap user_cfg uca) ->
  well_formed (YMap default_cfg dca) ->
  exists items ca,
    merge_ordered (YMap user_cfg uca) (YMap default_cfg dca) = YMap items ca /\
    merge_ordered (YMap items ca) (YMap default_cfg dca) = YMap items ca.
Proof.
  intros Hu Hd.
  pose proof (merge_value_again (YMap default_cfg dca) (YMap user_cfg uca)
                Hd Hu) as Hagain.
  destruct (merge_ordered_maps user_cfg uca default_cfg dca)
    as (ca & Hm & _); [apply Hd | apply Hu |].
  exists (merged_items user_cfg default_cfg), ca.
  split; [exact Hm |].
  unfold merge_ordered in *. rewrite Hm in Hagain. exact Hagain.
Qed.

Lemma well_formed_default_yaml : well_formed default_yaml.
Proof.
  unfold default_yaml. cbn [well_formed fold_right snd].
  repeat split; try (apply (bool_decide_unpack _); vm_compute; reflexivity).
  - intros key Hkey.
    destruct (decide (key = "version")) as [-> | Hne]; [now left |].
    exfalso. apply Hkey. apply lookup_singleton_ne. congruence.
  - intros key Hkey.
    destruct (decide (key = "token")) as [-> | Hne]; [now left |].
    exfalso. apply Hkey. apply lookup_singleton_ne. congruence.
  - intros key Hkey. exfalso. apply Hkey. apply lookup_empty.
Defined.

Lemma well_formed_user_yaml : well_formed user_yaml.
Proof.
  unfold user_yaml. cbn [well_formed fold_right snd].
  repeat split; try (apply (bool_decide_unpack _); vm_compute; reflexivity).
  - intros key Hkey.
    destruct (decide (key = "nickname")) as [-> | Hne]; [right; now left |].
    exfalso. apply Hkey. apply lookup_singleton_ne. congruence.
  - intros key Hkey. exfalso. apply Hkey. apply lookup_empty.
Defined.

(** The user's file of the examples, merged twice. *)
Lemma merge_ordered_is_idempotent_witness :
  exists items ca,
    merge_ordered user_yaml default_yaml = YMap items ca /\
    merge_ordered (YMap items ca) default_yaml = YMap items ca.
Proof.
  unfold user_yaml, default_yaml.
  apply merge_ordered_is_idempotent;
    [apply well_formed_user_yaml | apply well_formed_default_yaml].
Defined.

(** * The updater *)

(** ** The repository of a URL *)

Section PatternFacts.

Variable db : N -> bool.

(** The slash is not in the class [[\w-]], whatever lies beyond ASCII. *)
Lemma slash_is_no_name_char : is_name_char db 47 = false.
Proof. reflexivity. Qed.

Lemma span_name_app s t :
  is_name db s = true -> ends_name db t = true ->
  span_name db (s ++ t) = (s, t).
Proof.
  intros Hs Ht. induction s as [| c s IH].
  - destruct t as [| c t]; [reflexivity |].
    simpl in *. apply negb_true_iff in Ht. now rewrite Ht.
  - simpl in *. apply andb_true_iff in Hs.
    destruct Hs as [Hc Hs]. rewrite Hc, (IH Hs). reflexivity.
Qed.

Lemma span_name_sound s :
  s = fst (span_name db s) ++ snd (span_name db s) /\
  is_name db (fst (span_name db s)) = true /\
  ends_name db (snd (span_name db s)) = true.
Proof.
  induction s as [| c s (IH1 & IH2 & IH3)]; [repeat split |].
  simpl. destruct (is_name_char db c) eqn:Hc; simpl.
  - rewrite Hc. repeat split; [| assumption | assumption].
    now f_equal.
  - rewrite Hc. repeat split.
Qed.

Lemma after_prefix_app pre s : after_prefix pre (pre ++ s) = Some s.
Proof.
  induction pre as [| c pre IH]; [now destruct s |].
  simpl. now rewrite N.eqb_refl.
Qed.

Lemma after_prefix_sound pre s rest :
  after_prefix pre s = Some rest -> s = pre ++ rest.
Proof.
  revert s. induction pre as [| c pre IH]; intros s H.
  - destruct s; simpl in H; now injection H as <-.
  - destruct s as [| c' s]; simpl in H; [discriminate |].
    destruct (N.eqb_spec c c') as [<- | _]; [| discriminate].
    simpl. f_equal. now apply IH.
Qed.

(** The two groups, read after the prefix. *)
Lemma groups_after_prefix owner name rest :
  owner <> [] -> name <> [] ->
  is_name db owner = true -> is_name db name = true ->
  ends_name db rest = true ->
  match span_name db (owner ++ code_points "/" ++ name ++ rest) with
  | ([], _) => None
  | (owner, c :: rest') =>
      if (c =? 47)%N then
        match span_name db rest' with
        | ([], _) => None
        | (name, _) => Some (owner, name)
        end
      else None
  | (_, []) => None
  end = Some (owner, name).
Proof.
  intros Ho Hn Hio Hin Hr.
  rewrite (span_name_app owner (code_points "/" ++ name ++ rest) Hio)
    by reflexivity.
  destruct owner as [| c owner]; [congruence |].
  change (code_points "/" ++ name ++ rest) with (47%N :: name ++ rest).
  cbv beta iota. rewrite N.eqb_refl.
  rewrite (span_name_app name rest Hin Hr).
  destruct name; [congruence | reflexivity].
Qed.

End PatternFacts.

(** Round trip: from a URL in either of the two forms, made of an owner and
    a repository name in characters that [[\w-]] matches (letters and
    digits of any script, the underscore and the hyphen), and followed by
    [.git], by nothing or by anything that does not continue the name,
    [_extract_repo_info] gives back the owner and the name. *)
Theorem extract_repo_info_round_trip
    (isalnum_beyond_ascii : N -> bool) (owner name rest : list N) :
  owner <> [] -> name <> [] ->
  is_name isalnum_beyond_ascii owner = true ->
  is_name isalnum_beyond_ascii name = true ->
  ends_name isalnum_beyond_ascii rest = true ->
  _extract_repo_info isalnum_beyond_ascii
    (code_points "git@github.com:" ++ owner ++ code_points "/" ++ name ++ rest)
  = Some (owner, name) /\
  _extract_repo_info isalnum_beyond_ascii
    (code_points "https://github.com/" ++ owner ++ code_points "/" ++ name ++ rest)
  = Some (owner, name).
Proof.
  intros Ho Hn Hio Hin Hr.
  pose proof (groups_after_prefix isalnum_beyond_ascii owner name rest
                Ho Hn Hio Hin Hr) as Hmatch.
  split; unfold _extract_repo_info.
  - rewrite after_prefix_app. exact Hmatch.
  - assert (Hnot : after_prefix (code_points "git@github.com:")
                     (code_points "https://github.com/"
                      ++ owner ++ code_points "/" ++ name ++ rest)
                   = None) by reflexivity.
    rewrite Hnot, after_prefix_app. exact Hmatch.
Qed.

(** The URL of the default configuration, and a URL whose owner and name
    end with the letter U+00E9. *)
Lemma extract_repo_info_round_trip_witness :
  _extract_repo_info latin1_isalnum
    (code_points "git@github.com:LixxRarin/CharacterAI-Discord-Bridge.git")
  = Some (code_points "LixxRarin", code_points "CharacterAI-Discord-Bridge") /\
  _extract_repo_info latin1_isalnum
    (code_points "https://github.com/ren" ++ [233%N]
     ++ code_points "/caf" ++ [233%N] ++ code_points ".git")
  = Some (code_points "ren" ++ [233%N], code_points "caf" ++ [233%N]).
Proof.
  split.
  - assert (H := proj1 (extract_repo_info_round_trip latin1_isalnum
                          (code_points "LixxRarin")
                          (code_points "CharacterAI-Discord-Bridge")
                          (code_points ".git")
                          ltac:(discriminate) ltac:(discriminate)
                          eq_refl eq_refl eq_refl)).
    exact H.
  - assert (H := proj2 (extract_repo_info_round_trip latin1_isalnum
                          (code_points "ren" ++ [233%N])
                          (code_points "caf" ++ [233%N])
                          (code_points ".git")
                          ltac:(discriminate) ltac:(discriminate)
                          eq_refl eq_refl eq_refl)).
    vm_compute in H |- *. exact H.
Defined.

(** Conversely, whenever [_extract_repo_info] answers, the URL starts with
    one of the two GitHub prefixes, followed by the owner, a slash and the
    name it answers, both non-empty and made of characters that [[\w-]]
    matches, the name being read up to the first character of another kind.
    Every other URL is refused. *)
Theorem extract_repo_info_sound
    (isalnum_beyond_ascii : N -> bool) (repo_url owner name : list N) :
  _extract_repo_info isalnum_beyond_ascii repo_url = Some (owner, name) ->
  exists pre rest,
    (pre = code_points "git@github.com:"
     \/ pre = code_points "https://github.com/") /\
    repo_url = pre ++ owner ++ code_points "/" ++ name ++ rest /\
    owner <> [] /\ name <> [] /\
    is_name isalnum_beyond_ascii owner = true /\
    is_name isalnum_beyond_ascii name = true /\
    ends_name isalnum_beyond_ascii rest = true.
Proof.
  unfold _extract_repo_info. intros Hm.
  match type of Hm with
  | match ?m with _ => _ end = _ => destruct m as [rest0 |] eqn:Hs
  end; [| discriminate].
  assert (Hpre : exists pre,
             (pre = code_points "git@github.com:"
              \/ pre = code_points "https://github.com/") /\
             repo_url = pre ++ rest0).
  { destruct (after_prefix (code_points "git@github.com:") repo_url)
      as [r |] eqn:H1.
    - injection Hs as ->. exists (code_points "git@github.com:").
      split; [now left | now apply after_prefix_sound].
    - exists (code_points "https://github.com/").
      split; [now right | now apply after_prefix_sound]. }
  destruct Hpre as (pre & Hp & Hurl).
  destruct (span_name_sound isalnum_beyond_ascii rest0) as (Hr0 & Ho & He).
  destruct (span_name isalnum_beyond_ascii rest0) as [o after].
  cbn [fst snd] in *.
  destruct o as [| c o]; [discriminate |].
  destruct after as [| slash rest1]; [discriminate |].
  destruct (N.eqb_spec slash 47) as [-> | _]; [| discriminate].
  destruct (span_name_sound isalnum_beyond_ascii rest1) as (Hr1 & Hn & He1).
  destruct (span_name isalnum_beyond_ascii rest1) as [n rest].
  cbn [fst snd] in *.
  destruct n as [| c' n]; [discriminate |].
  injection Hm as <- <-.
  exists pre, rest. split; [exact Hp |]. split.
  - rewrite Hurl, Hr0, Hr1. reflexivity.
  - repeat split; try discriminate; assumption.
Qed.

(** A repository name with a dot in it is read up to the dot. *)
Lemma extract_repo_info_sound_witness :
  exists pre rest,
    (pre = code_points "git@github.com:"
     \/ pre = code_points "https://github.com/") /\
    code_points "https://github.com/octo/site.github.io"
    = pre ++ code_points "octo" ++ code_points "/" ++ code_points "site" ++ rest /\
    code_points "octo" <> [] /\ code_points "site" <> [] /\
    is_name latin1_isalnum (code_points "octo") = true /\
    is_name latin1_isalnum (code_points "site") = true /\
    ends_name latin1_isalnum rest = true.
Proof.
  apply (extract_repo_info_sound latin1_isalnum
           (code_points "https://github.com/octo/site.github.io")).
  reflexivity.
Defined.

(** ** Restarting after an update *)

(** A source checkout restarts through [_restart_program] whenever the
    update command succeeded; the process it starts is given
    [SKIP_AUTOUPDATE=1], the rest of the environment unchanged, and skips
    the check.  So, whatever the outside answers to each process, a chain
    of such restarts has at most two processes. *)
Theorem restarts_at_most_once
    (fuel : nat) (u : Updater) (envs : nat -> UpdateEnv) (n : nat)
    (environ : gmap string string) :
  processes_started fuel u envs n environ <= 2 /\
  forall child,
    check_and_update u (envs n) environ = Restarts child ->
    (forall u' env', check_and_update u' env' child = Skipped) /\
    (forall key, key <> "SKIP_AUTOUPDATE" -> child !! key = environ !! key).
Proof.
  assert (Hchild : forall child,
             check_and_update u (envs n) environ = Restarts child ->
             child = _restart_program environ).
  { unfold check_and_update. intros child H.
    repeat (case_match; simplify_eq/=); reflexivity. }
  assert (Hskip : forall u' env',
             check_and_update u' env' (_restart_program environ) = Skipped).
  { intros u' env'. unfold check_and_update, _restart_program.
    rewrite lookup_insert_eq. now rewrite decide_True. }
  split.
  - destruct fuel as [| fuel]; simpl; [lia |].
    destruct (check_and_update u (envs n) environ) as [| | | | child] eqn:Hc;
      try lia.
    rewrite (Hchild child eq_refl).
    destruct fuel as [| fuel]; simpl; [lia |].
    rewrite Hskip. lia.
  - intros child Hc. rewrite (Hchild child Hc). split; [exact Hskip |].
    intros key Hne. unfold _restart_program. now rewrite lookup_insert_ne.
Qed.

(** The update command succeeds every time: the first process restarts,
    the second goes on. *)
Lemma restarts_at_most_once_witness :
  let u := {| is_exe := false; current_version := "1.0.3" |} in
  let env := {| latest_release := None; newer := fun _ _ => Some true;
                update_exe_exits := true; update_from_commit := true |} in
  processes_started 10 u (fun _ => env) 0 ∅ = 2 /\
  check_and_update u env (<["SKIP_AUTOUPDATE" := "1"]> ∅) = Skipped.
Proof.
  intros u env. split; [reflexivity |].
  destruct (restarts_at_most_once 10 u (fun _ => env) 0 ∅) as (_ & H).
  destruct (H (<["SKIP_AUTOUPDATE" := "1"]> ∅) eq_refl) as (Hs & _).
  apply Hs.
Defined.
